(** * NeMo ASR audio preprocessing

    A shallow embedding of
    [nemo/collections/asr/modules/audio_preprocessing.py]:
    the abstract [AudioPreprocessor], the mel-spectrogram front end
    [AudioToMelSpectrogramPreprocessor] and [SpectrogramAugmentation].

    Python floats are IEEE-754 binary64 and [torch.float32] tensors are
    binary32; both are modelled with the Standard Library's executable
    specification of IEEE arithmetic ([SpecFloat]), so that [int(0.02 * 16000)]
    and [torch.ceil(length / hop_length)] are computed with the rounding the
    program really performs. *)

From Stdlib Require Import ZArith QArith Qround Qpower List String Bool Lia Lqa.
From Stdlib Require Import Floats.SpecFloat.
Import ListNotations.

Local Open Scope string_scope.
Local Open Scope Z_scope.

(* ================================================================== *)
(** * Part I. Definitions *)
(* ================================================================== *)

(** ** Python values, exceptions and effects *)

Module Py.

(** The exceptions the modelled code can raise. *)
Inductive exn : Type :=
| ValueError (msg : string)
| TypeError (msg : string)
| OverflowError (msg : string).

(** The outcome of a call: a value, a raised exception, or a result the
    tensor backend leaves unspecified (a float-to-integer cast of a value
    that is not finite or does not fit the integer type). *)
Inductive result (A : Type) : Type :=
| Ok (a : A)
| Raise (e : exn)
| Unspecified.

Arguments Ok {A} a.
Arguments Raise {A} e.
Arguments Unspecified {A}.

Definition result_bind {A B} (r : result A) (k : A -> result B) : result B :=
  match r with
  | Ok a => k a
  | Raise e => Raise e
  | Unspecified => Unspecified
  end.

Definition is_ok {A} (r : result A) : bool :=
  match r with
  | Ok _ => true
  | _ => false
  end.

Fixpoint result_mapM {A B} (f : A -> result B) (l : list A) : result (list B) :=
  match l with
  | [] => Ok []
  | x :: l' =>
      result_bind (f x) (fun y =>
      result_bind (result_mapM f l') (fun ys => Ok (y :: ys)))
  end.

(** A numeric argument: a Python [int] (unbounded) or a [float] (binary64). *)
Inductive pynum : Type :=
| PyInt (z : Z)
| PyFloat (f : spec_float).

Definition float_of_Z (z : Z) : spec_float := binary_normalize 53 1024 z 0 false.

(** The value of a decimal literal [num/den] such as [0.02 = 2/100]: the
    binary64 number nearest to it (both parts are exact in binary64, and
    IEEE division rounds correctly). *)
Definition float_literal (num den : Z) : spec_float :=
  SFdiv 53 1024 (float_of_Z num) (float_of_Z den).

(** [bool(x)] of an optional number: [None], [0], [0.0] and [-0.0] are
    false, everything else (NaN included) is true. *)
Definition truthy (v : option pynum) : bool :=
  match v with
  | None => false
  | Some (PyInt z) => negb (z =? 0)
  | Some (PyFloat (S754_zero _)) => false
  | Some (PyFloat _) => true
  end.

(** [float(z)] of an [int]: raises when the integer is beyond binary64. *)
Definition float_of_int (z : Z) : result spec_float :=
  match float_of_Z z with
  | S754_infinity _ => Raise (OverflowError "int too large to convert to float")
  | f => Ok f
  end.

(** [a * b] on numbers: exact on two [int]s, binary64 otherwise. *)
Definition mul (a b : pynum) : result pynum :=
  match a, b with
  | PyInt x, PyInt y => Ok (PyInt (x * y))
  | PyFloat x, PyFloat y => Ok (PyFloat (SFmul 53 1024 x y))
  | PyFloat x, PyInt y =>
      result_bind (float_of_int y) (fun fy => Ok (PyFloat (SFmul 53 1024 x fy)))
  | PyInt x, PyFloat y =>
      result_bind (float_of_int x) (fun fx => Ok (PyFloat (SFmul 53 1024 fx y)))
  end.

(** [int(x)]: truncation toward zero; NaN and the infinities raise. *)
Definition int (a : pynum) : result Z :=
  match a with
  | PyInt z => Ok z
  | PyFloat S754_nan => Raise (ValueError "cannot convert float NaN to integer")
  | PyFloat (S754_infinity _) =>
      Raise (OverflowError "cannot convert float infinity to integer")
  | PyFloat (S754_zero _) => Ok 0
  | PyFloat (S754_finite s m e) => Ok (cond_Zopp s (Z.shiftl (Zpos m) e))
  end.

(** Effects.  A computation lives in some [M] with sequencing and a way to
    run a pure, possibly failing step.  Code that touches the
    random-number generators (the maskers, the dithering) is state passing
    over a world [W]; code that only fails runs in [result]. *)
Class Effect (M : Type -> Type) : Type := {
  ret : forall {A}, A -> M A;
  bind : forall {A B}, M A -> (A -> M B) -> M B;
  lift : forall {A}, result A -> M A
}.

(** State passing with failure. *)
Definition Run (W A : Type) : Type := W -> result (A * W).

#[export] Instance Run_Effect (W : Type) : Effect (Run W) := {
  ret := fun A a w => Ok (a, w);
  bind := fun A B m k w =>
    match m w with
    | Ok (a, w') => k a w'
    | Raise e => Raise e
    | Unspecified => Unspecified
    end;
  lift := fun A r w => result_bind r (fun a => Ok (a, w))
}.

End Py.

Export Py.

Notation "x <- c ;; k" := (bind c (fun x => k))
  (at level 61, c at next level, right associativity).

(** Case analysis on the outcome of the step a state-passing computation
    is waiting for. *)
Ltac case_run :=
  match goal with
  | |- context [match ?m with Ok _ => _ | Raise _ => _ | Unspecified => _ end] =>
      destruct m as [[? ?] | ? |]
  end.

(** ** Tensors and the torch operations the module calls *)

Module Torch.

(** An element of a [torch.float32] tensor. *)
Definition float32 : Type := spec_float.

Definition Tensor1 : Type := list float32.
Definition Tensor2 : Type := list (list float32).
Definition Tensor3 : Type := list (list (list float32)).

(** Conversion of an integer to binary32, to nearest even. *)
Definition f32_of_Z (z : Z) : float32 := binary_normalize 24 128 z 0 false.

(** Conversion of a binary64 number to binary32. *)
Definition f32_of_f64 (f : spec_float) : float32 :=
  match f with
  | S754_finite s m e => binary_round 24 128 s m e
  | _ => f
  end.

(** A Python scalar operand of a float32 tensor operation, as the
    operation sees it: converted to binary32.  For an [int] this is what
    torch does when the number fits a signed 64-bit integer; a larger one
    is refused with an exception, which is not modelled, so statements
    about an [int] operand are made for that range. *)
Definition scalar (v : pynum) : float32 :=
  match v with
  | PyInt z => f32_of_Z z
  | PyFloat f => f32_of_f64 f
  end.

(** [t.float()] on an integer tensor. *)
Definition float (t : list Z) : Tensor1 := map f32_of_Z t.

(** [t / s] for a float32 tensor and a Python scalar. *)
Definition div (t : Tensor1) (s : pynum) : Tensor1 :=
  map (fun x => SFdiv 24 128 x (scalar s)) t.

(** [torch.ceil] on one element: the least integral float not below it. *)
Definition ceil1 (x : float32) : float32 :=
  match x with
  | S754_finite s m e =>
      if 0 <=? e then x
      else binary_normalize 24 128 (- ((- cond_Zopp s (Zpos m)) / 2 ^ (- e))) 0 s
  | _ => x
  end.

Definition ceil (t : Tensor1) : Tensor1 := map ceil1 t.

(** [.to(dtype=torch.long)] on one element: truncation toward zero into a
    signed 64-bit integer; unspecified outside that range. *)
Definition to_long1 (x : float32) : result Z :=
  match x with
  | S754_zero _ => Ok 0
  | S754_finite s m e =>
      let z := cond_Zopp s (Z.shiftl (Zpos m) e) in
      if (- 2 ^ 63 <=? z) && (z <? 2 ^ 63) then Ok z else Unspecified
  | _ => Unspecified
  end.

Definition to_long (t : Tensor1) : result (list Z) := result_mapM to_long1 t.

(** [torch.ones(n)]. *)
Definition ones (n : nat) : Tensor1 := repeat (f32_of_Z 1) n.

(** The window generators of torch that the window table refers to. *)
Inductive window_fn : Type :=
| hann_window
| hamming_window
| blackman_window
| bartlett_window
| ones_fn.

End Torch.

Export Torch.

#[export] Instance result_Effect : Effect result := {
  ret := fun A a => Ok a;
  bind := fun A B r k => result_bind r k;
  lift := fun A r => r
}.

(** A Python [dict] keyed by a window name ([None] is a key too). *)
Definition key_eqb (a b : option string) : bool :=
  match a, b with
  | None, None => true
  | Some x, Some y => String.eqb x y
  | _, _ => false
  end.

Fixpoint dict_get {V} (d : list (option string * V)) (k : option string) : option V :=
  match d with
  | [] => None
  | (k', v) :: d' => if key_eqb k' k then Some v else dict_get d' k
  end.

(** ** class AudioPreprocessor(NeuralModule, ABC) *)

Module AudioPreprocessor.

(** The attributes [__init__] sets. *)
Record t : Type := {
  win_length : option pynum;
  hop_length : option pynum;
  torch_windows : list (option string * window_fn)
}.

Definition __init__ (win_length hop_length : option pynum) : t :=
  {| win_length := win_length;
     hop_length := hop_length;
     torch_windows :=
       [ (Some "hann", hann_window);
         (Some "hamming", hamming_window);
         (Some "blackman", blackman_window);
         (Some "bartlett", bartlett_window);
         (Some "ones", ones_fn);
         (None, ones_fn) ] |}.

(** [torch.ceil(length / self.hop_length).to(dtype=torch.long)] *)
Definition get_seq_len (self : t) (length : Tensor1) : result (list Z) :=
  match hop_length self with
  | Some h => to_long (ceil (div length h))
  | None =>
      Raise (TypeError "unsupported operand type(s) for /: 'Tensor' and 'NoneType'")
  end.

(** What a concrete subclass [Self] supplies: the attributes of the base
    class, the abstract [get_features], and [get_seq_len], which it may
    override. *)
Class Methods (M : Type -> Type) (Self : Type) : Type := {
  super : Self -> t;
  get_features : Self -> Tensor2 -> list Z -> M Tensor3;
  get_seq_len_method : Self -> Tensor1 -> M (list Z)
}.

(** [forward]; [torch.no_grad()] has no effect on the values computed. *)
Definition forward {M} {E : Effect M} {Self} {C : Methods M Self}
  (self : Self) (input_signal : Tensor2) (length : list Z) : M (Tensor3 * list Z)%type :=
  processed_signal <- get_features self input_signal length ;;
  processed_length <- get_seq_len_method self (float length) ;;
  ret (processed_signal, processed_length).

(** A subclass that implements [get_features] only and inherits
    [get_seq_len]. *)
Record Plain (M : Type -> Type) : Type := {
  plain_base : t;
  plain_get_features : Tensor2 -> list Z -> M Tensor3
}.

Arguments plain_base {M} p.
Arguments plain_get_features {M} p.

#[global] Instance Plain_Methods {M} {E : Effect M} : Methods M (Plain M) := {
  super := plain_base;
  get_features := plain_get_features;
  get_seq_len_method := fun self length => lift (get_seq_len (plain_base self) length)
}.

End AudioPreprocessor.

(** ** class FilterbankFeatures (nemo.collections.asr.parts.features)

    Only its interface is visible from the module: the keyword arguments
    the constructor is called with, the call itself, [get_seq_len] and
    [filter_banks].  The class is a parameter of the development. *)

Module FilterbankFeatures.

Record kwargs : Type := {
  sample_rate : pynum;
  n_window_size : option pynum;
  n_window_stride : option pynum;
  window : option string;
  normalize : string;
  n_fft : option Z;
  preemph : option spec_float;
  nfilt : Z;
  lowfreq : Z;
  highfreq : option Z;
  log : bool;
  log_zero_guard_type : string;
  log_zero_guard_value : spec_float + string;
  dither : spec_float;
  pad_to : Z;
  frame_splicing : Z;
  stft_conv : bool;
  pad_value : pynum;
  mag_power : spec_float
}.

Class API (M : Type -> Type) : Type := {
  t : Type;
  __init__ : kwargs -> result t;
  call : t -> Tensor2 -> list Z -> M Tensor3;
  get_seq_len : t -> Tensor1 -> M (list Z);
  filter_banks : t -> Tensor2
}.

End FilterbankFeatures.

(** ** class AudioToMelSpectrogramPreprocessor(AudioPreprocessor) *)

Module AudioToMelSpectrogramPreprocessor.

(** The arguments of [__init__]. *)
Record Args : Type := {
  sample_rate : pynum;
  window_size : option pynum;
  window_stride : option pynum;
  n_window_size : option pynum;
  n_window_stride : option pynum;
  window : option string;
  normalize : string;
  n_fft : option Z;
  preemph : option spec_float;
  features : Z;
  lowfreq : Z;
  highfreq : option Z;
  log : bool;
  log_zero_guard_type : string;
  log_zero_guard_value : spec_float + string;
  dither : spec_float;
  pad_to : Z;
  frame_splicing : Z;
  stft_conv : bool;
  pad_value : pynum;
  mag_power : spec_float
}.

(** The default value of every argument. *)
Definition defaults : Args :=
  {| sample_rate := PyInt 16000;
     window_size := Some (PyFloat (float_literal 2 100));
     window_stride := Some (PyFloat (float_literal 1 100));
     n_window_size := None;
     n_window_stride := None;
     window := Some "hann";
     normalize := "per_feature";
     n_fft := None;
     preemph := Some (float_literal 97 100);
     features := 64;
     lowfreq := 0;
     highfreq := None;
     log := true;
     log_zero_guard_type := "add";
     log_zero_guard_value := inl (float_literal 1 (2 ^ 24));
     dither := float_literal 1 100000;
     pad_to := 16;
     frame_splicing := 1;
     stft_conv := false;
     pad_value := PyInt 0;
     mag_power := float_of_Z 2 |}.

(** A call that passes some of the window arguments by keyword. *)
Definition with_windows (a : Args)
  (ws wst nws nwst : option pynum) : Args :=
  {| sample_rate := sample_rate a;
     window_size := ws;
     window_stride := wst;
     n_window_size := nws;
     n_window_stride := nwst;
     window := window a;
     normalize := normalize a;
     n_fft := n_fft a;
     preemph := preemph a;
     features := features a;
     lowfreq := lowfreq a;
     highfreq := highfreq a;
     log := log a;
     log_zero_guard_type := log_zero_guard_type a;
     log_zero_guard_value := log_zero_guard_value a;
     dither := dither a;
     pad_to := pad_to a;
     frame_splicing := frame_splicing a;
     stft_conv := stft_conv a;
     pad_value := pad_value a;
     mag_power := mag_power a |}.

Definition with_window (a : Args) (w : option string) : Args :=
  {| sample_rate := sample_rate a;
     window_size := window_size a;
     window_stride := window_stride a;
     n_window_size := n_window_size a;
     n_window_stride := n_window_stride a;
     window := w;
     normalize := normalize a;
     n_fft := n_fft a;
     preemph := preemph a;
     features := features a;
     lowfreq := lowfreq a;
     highfreq := highfreq a;
     log := log a;
     log_zero_guard_type := log_zero_guard_type a;
     log_zero_guard_value := log_zero_guard_value a;
     dither := dither a;
     pad_to := pad_to a;
     frame_splicing := frame_splicing a;
     stft_conv := stft_conv a;
     pad_value := pad_value a;
     mag_power := mag_power a |}.

(** The messages of the two checks.  Each starts with [str(self)]: the
    text of a module that has no sub-module yet, since the featurizer is
    assigned only after the checks. *)
Definition both_window_size : string :=
  "AudioToMelSpectrogramPreprocessor() received both window_size and n_window_size. Only one should be specified.".

Definition both_window_stride : string :=
  "AudioToMelSpectrogramPreprocessor() received both window_stride and n_window_stride. Only one should be specified.".

(** [if duration: n = int(duration * self._sample_rate)]: the sample count
    after the statement, [n] being its value before. *)
Definition samples_of (duration : option pynum) (sample_rate : pynum)
  (n : option pynum) : result (option pynum) :=
  match duration with
  | Some d =>
      if truthy duration then
        product <- Py.mul d sample_rate ;;
        samples <- Py.int product ;;
        ret (Some (PyInt samples))
      else ret n
  | None => ret n
  end.

Section WithFeaturizer.

Context {M : Type -> Type} {E : Effect M} {F : FilterbankFeatures.API M}.

(** The attributes of an instance. *)
Record t : Type := {
  base : AudioPreprocessor.t;
  _sample_rate : pynum;
  featurizer : FilterbankFeatures.t
}.

(** The keyword arguments [__init__] builds the featurizer with. *)
Definition featurizer_kwargs (a : Args) (n_window_size n_window_stride : option pynum)
  : FilterbankFeatures.kwargs :=
  {| FilterbankFeatures.sample_rate := sample_rate a;
     FilterbankFeatures.n_window_size := n_window_size;
     FilterbankFeatures.n_window_stride := n_window_stride;
     FilterbankFeatures.window := window a;
     FilterbankFeatures.normalize := normalize a;
     FilterbankFeatures.n_fft := n_fft a;
     FilterbankFeatures.preemph := preemph a;
     FilterbankFeatures.nfilt := features a;
     FilterbankFeatures.lowfreq := lowfreq a;
     FilterbankFeatures.highfreq := highfreq a;
     FilterbankFeatures.log := log a;
     FilterbankFeatures.log_zero_guard_type := log_zero_guard_type a;
     FilterbankFeatures.log_zero_guard_value := log_zero_guard_value a;
     FilterbankFeatures.dither := dither a;
     FilterbankFeatures.pad_to := pad_to a;
     FilterbankFeatures.frame_splicing := frame_splicing a;
     FilterbankFeatures.stft_conv := stft_conv a;
     FilterbankFeatures.pad_value := pad_value a;
     FilterbankFeatures.mag_power := mag_power a |}.

(** The part of [__init__] after the two checks: the durations in
    seconds become sample counts, and the featurizer is built. *)
Definition construct (a : Args) : result t :=
  let base := AudioPreprocessor.__init__ (n_window_size a) (n_window_stride a) in
  let _sample_rate := sample_rate a in
  n_window_size <- samples_of (window_size a) _sample_rate (n_window_size a) ;;
  n_window_stride <- samples_of (window_stride a) _sample_rate (n_window_stride a) ;;
  featurizer <- FilterbankFeatures.__init__ (featurizer_kwargs a n_window_size n_window_stride) ;;
  ret {| base := base; _sample_rate := _sample_rate; featurizer := featurizer |}.

(** [__init__].  The base class is initialised first, with the sample
    counts as the caller passed them; then come the two checks. *)
Definition __init__ (a : Args) : result t :=
  if truthy (window_size a) && truthy (n_window_size a) then
    Raise (ValueError both_window_size)
  else if truthy (window_stride a) && truthy (n_window_stride a) then
    Raise (ValueError both_window_stride)
  else construct a.

Definition get_features (self : t) (input_signal : Tensor2) (length : list Z) : M Tensor3 :=
  FilterbankFeatures.call (featurizer self) input_signal length.

Definition get_seq_len (self : t) (seq_len : Tensor1) : M (list Z) :=
  FilterbankFeatures.get_seq_len (featurizer self) seq_len.

Definition filter_banks (self : t) : Tensor2 :=
  FilterbankFeatures.filter_banks (featurizer self).

#[global] Instance Mel_Methods : AudioPreprocessor.Methods M t := {
  AudioPreprocessor.super := base;
  AudioPreprocessor.get_features := get_features;
  AudioPreprocessor.get_seq_len_method := get_seq_len
}.

End WithFeaturizer.

Arguments t {M} {F}.

End AudioToMelSpectrogramPreprocessor.

(** ** classes SpecCutout and SpecAugment (nemo.collections.asr.parts.spectr_augment)

    Only their constructor calls are visible from the module; the two
    classes are parameters of the development.  [Rng] is the type of the
    random-number generator object a caller may hand over. *)

Module SpectrAugment.

Class API (M : Type -> Type) (Rng : Type) : Type := {
  SpecCutout :
    forall (rect_masks rect_time rect_freq : Z) (rng : option Rng), Tensor3 -> M Tensor3;
  SpecAugment :
    forall (freq_masks time_masks freq_width time_width : Z) (rng : option Rng),
      Tensor3 -> M Tensor3
}.

End SpectrAugment.

(** ** class SpectrogramAugmentation(NeuralModule) *)

Module SpectrogramAugmentation.

(** The arguments of [__init__]. *)
Record Args (Rng : Type) : Type := {
  freq_masks : Z;
  time_masks : Z;
  freq_width : Z;
  time_width : Z;
  rect_masks : Z;
  rect_time : Z;
  rect_freq : Z;
  rng : option Rng
}.

Arguments freq_masks {Rng} a.
Arguments time_masks {Rng} a.
Arguments freq_width {Rng} a.
Arguments time_width {Rng} a.
Arguments rect_masks {Rng} a.
Arguments rect_time {Rng} a.
Arguments rect_freq {Rng} a.
Arguments rng {Rng} a.

Definition defaults {Rng : Type} : Args Rng :=
  {| freq_masks := 0;
     time_masks := 0;
     freq_width := 10;
     time_width := 10;
     rect_masks := 0;
     rect_time := 5;
     rect_freq := 20;
     rng := None |}.

(** The attributes of an instance: the two stages, each a callable. *)
Record t (M : Type -> Type) : Type := {
  spec_cutout : Tensor3 -> M Tensor3;
  spec_augment : Tensor3 -> M Tensor3
}.

Arguments spec_cutout {M} _.
Arguments spec_augment {M} _.

Section WithMaskers.

Context {M : Type -> Type} {E : Effect M} {Rng : Type} {S : SpectrAugment.API M Rng}.

Definition __init__ (a : Args Rng) : t M :=
  {| spec_cutout :=
       if 0 <? rect_masks a then
         SpectrAugment.SpecCutout (rect_masks a) (rect_time a) (rect_freq a) (rng a)
       else (fun x => ret x);
     spec_augment :=
       if 0 <? freq_masks a + time_masks a then
         SpectrAugment.SpecAugment (freq_masks a) (time_masks a)
           (freq_width a) (time_width a) (rng a)
       else (fun x => ret x) |}.

End WithMaskers.

(** [forward]; the [typecheck] decorator validates port types and leaves
    the values alone. *)
Definition forward {M} {E : Effect M} (self : t M) (input_spec : Tensor3) : M Tensor3 :=
  augmented_spec <- spec_cutout self input_spec ;;
  augmented_spec <- spec_augment self augmented_spec ;;
  ret augmented_spec.

(** The two stages in the opposite order, for comparison with [forward]. *)
Definition forward_band_masking_first {M} {E : Effect M} (self : t M) (input_spec : Tensor3)
  : M Tensor3 :=
  augmented_spec <- spec_augment self input_spec ;;
  augmented_spec <- spec_cutout self augmented_spec ;;
  ret augmented_spec.

End SpectrogramAugmentation.

(** ** The collaborators that are not among the sources *)

(** Modelled from the spec: the bodies of [SpecAugment] and [SpecCutout]
    are missing.  Sections 4.8 and 4.9 say what a drawn mask does: a
    frequency band zeroes its channels across all frames of one item, a
    time band zeroes its frames across all channels, a rectangle zeroes
    the elements inside it.  How masks are drawn from the generator is
    left as a parameter. *)
Module Masking.

Inductive mask : Type :=
| FreqBand (item start width : nat)
| TimeBand (item start width : nat)
| Rectangle (item freq_start height time_start width : nat).

Definition within (start width i : nat) : bool :=
  (start <=? i)%nat && (i <? start + width)%nat.

(** Whether the mask covers the element at batch item [b], channel [f],
    frame [t]. *)
Definition covers (m : mask) (b f t : nat) : bool :=
  match m with
  | FreqBand item start width => (item =? b)%nat && within start width f
  | TimeBand item start width => (item =? b)%nat && within start width t
  | Rectangle item f0 h t0 w => (item =? b)%nat && within f0 h f && within t0 w t
  end.

Fixpoint mapi {A B} (g : nat -> A -> B) (i : nat) (l : list A) : list B :=
  match l with
  | [] => []
  | x :: l' => g i x :: mapi g (S i) l'
  end.

Definition tensor_mapi (g : nat -> nat -> nat -> float32 -> float32) (x : Tensor3) : Tensor3 :=
  mapi (fun b => mapi (fun f => mapi (fun t => g b f t) 0%nat) 0%nat) 0%nat x.

Definition zero_if (c : bool) (v : float32) : float32 :=
  if c then S754_zero false else v.

(** Modelled from the spec: the assignment of zero to a drawn band or
    rectangle inside [SpecAugment.forward] and [SpecCutout.forward]
    ("all elements in that band are set to zero", "zero the rectangle");
    the elements outside the mask keep their value. *)
Definition apply_mask (m : mask) (x : Tensor3) : Tensor3 :=
  tensor_mapi (fun b f t => zero_if (covers m b f t)) x.

Definition apply_masks (ms : list mask) (x : Tensor3) : Tensor3 :=
  fold_left (fun acc m => apply_mask m acc) ms x.

(** Modelled from the spec: the [forward] of [SpecAugment] and of
    [SpecCutout], which draws its masks for the tensor at hand and zeroes
    them; the draw itself (widths and positions, from the generator) is the
    parameter [draw]. *)
Definition masker {M} {E : Effect M} (draw : Tensor3 -> M (list mask)) (x : Tensor3) : M Tensor3 :=
  ms <- draw x ;;
  ret (apply_masks ms x).

(** Maskers as an implementation of the two classes, the draws being
    functions of the constructor arguments. *)
Definition API {M} {E : Effect M} {Rng : Type}
  (draw_rectangles : Z -> Z -> Z -> option Rng -> Tensor3 -> M (list mask))
  (draw_bands : Z -> Z -> Z -> Z -> option Rng -> Tensor3 -> M (list mask))
  : SpectrAugment.API M Rng :=
  {| SpectrAugment.SpecCutout := fun n rt rf rng => masker (draw_rectangles n rt rf rng);
     SpectrAugment.SpecAugment := fun nf nt wf wt rng => masker (draw_bands nf nt wf wt rng) |}.

End Masking.

(** Modelled from the spec: class [FilterbankFeatures] is missing.  Of
    its behaviour the model keeps what sections 4.1 and 4.7 state: the
    window name is resolved through the window table when the object is
    built, an unknown name being a configuration error there, and the
    sequence length is [ceil(length / hop_length)] with the stride in
    samples as hop length.  The feature pipeline itself is a parameter. *)
Module FilterbankFeaturesModel.

Record t : Type := {
  kw : FilterbankFeatures.kwargs;
  window_fn_of : window_fn
}.

Definition unknown_window : string := "unknown window name".

Definition window_table : list (option string * window_fn) :=
  AudioPreprocessor.torch_windows (AudioPreprocessor.__init__ None None).

(** Modelled from the spec: the lookup of the window name that the
    constructor of [FilterbankFeatures] performs (section 4.1: a name of
    the table yields its generator, an unknown name is a configuration
    error at construction time). *)
Definition resolve_window (name : option string) : result window_fn :=
  match dict_get window_table name with
  | Some g => Ok g
  | None => Raise (ValueError unknown_window)
  end.

(** Modelled from the spec: [FilterbankFeatures.__init__], as far as the
    window is concerned; the filterbank matrix and the window coefficients
    it derives are left out. *)
Definition __init__ (k : FilterbankFeatures.kwargs) : result t :=
  g <- resolve_window (FilterbankFeatures.window k) ;;
  ret {| kw := k; window_fn_of := g |}.

(** Modelled from the spec: [FilterbankFeatures.get_seq_len] (section
    4.7: [output_length[i] = ceil(length[i] / hop_length)], the hop length
    being the window stride in samples); the computation is the one
    [AudioPreprocessor.get_seq_len] performs. *)
Definition get_seq_len (self : t) (seq_len : Tensor1) : result (list Z) :=
  AudioPreprocessor.get_seq_len
    (AudioPreprocessor.__init__ (FilterbankFeatures.n_window_size (kw self))
                                (FilterbankFeatures.n_window_stride (kw self)))
    seq_len.

Definition API {M} {E : Effect M}
  (call : t -> Tensor2 -> list Z -> M Tensor3) (filter_banks : t -> Tensor2)
  : FilterbankFeatures.API M :=
  {| FilterbankFeatures.t := t;
     FilterbankFeatures.__init__ := __init__;
     FilterbankFeatures.call := call;
     FilterbankFeatures.get_seq_len := fun self seq_len => lift (get_seq_len self seq_len);
     FilterbankFeatures.filter_banks := filter_banks |}.

End FilterbankFeaturesModel.

(** The values a window generator returns, where they are rational: the
    rectangular window.  The cosine windows are torch's. *)
Definition window_values (g : window_fn) (n : nat) : option Tensor1 :=
  match g with
  | ones_fn => Some (ones n)
  | _ => None
  end.

(** ** Rounding to nearest even, on the rationals

    The values of binary32 numbers and the rounding that every binary32
    operation ends with, stated on exact rationals; Part II proves that
    the conversions and the division above follow it. *)

Module Rounding.

Local Open Scope Q_scope.

Definition pow2 (e : Z) : Q := 2 ^ e.

(** The value of a positive finite float with mantissa [m] and exponent [e]. *)
Definition F2Q (m : positive) (e : Z) : Q := inject_Z (Zpos m) * pow2 e.

(** The integer nearest to [u], the even one when [u] is half-way. *)
Definition rhe (u : Q) : Z :=
  let f := Qfloor u in
  match Qcompare (u - inject_Z f) (1 # 2) with
  | Lt => f
  | Eq => if Z.even f then f else (f + 1)%Z
  | Gt => (f + 1)%Z
  end.

(** The multiple of [2^e] nearest to [v]. *)
Definition round_at (e : Z) (v : Q) : Q := inject_Z (rhe (v / pow2 e)) * pow2 e.

(** [v] lies in the binade [[2^(k-1), 2^k)]. *)
Definition binade (k : Z) (v : Q) : Prop := pow2 (k - 1) <= v /\ v < pow2 k.

(** [r] is [v] rounded to 24 significant bits (normal range, [v] positive). *)
Definition rounds_to (v r : Q) : Prop :=
  exists k, binade k v /\ r == round_at (k - 24) v.

(** The same at any precision: [r] is [v] rounded to [prec] significant
    bits; binary64 is [prec = 53]. *)
Definition rounds_to_prec (prec : Z) (v r : Q) : Prop :=
  exists k, binade k v /\ r == round_at (k - prec) v.

(** Where [u] lies between the integers [m] and [m + 1], in the terms in
    which [SpecFloat] records it. *)
Definition located (m : Z) (l : location) (u : Q) : Prop :=
  match l with
  | loc_Exact => u == inject_Z m
  | loc_Inexact c =>
      inject_Z m < u /\ u < inject_Z m + 1 /\ Qcompare u (inject_Z m + (1 # 2)) = c
  end.

Ltac qcompare_to_order :=
  repeat match goal with
  | H : Qcompare _ _ = Lt |- _ => rewrite <- Qlt_alt in H
  | H : Qcompare _ _ = Eq |- _ => rewrite <- Qeq_alt in H
  | H : Qcompare _ _ = Gt |- _ => rewrite <- Qgt_alt in H
  | |- Qcompare _ _ = Lt => rewrite <- Qlt_alt
  | |- Qcompare _ _ = Eq => rewrite <- Qeq_alt
  | |- Qcompare _ _ = Gt => rewrite <- Qgt_alt
  end.

Ltac solve_shr_1 u Hloc :=
  let h := fresh "h" in
  let Hh := fresh "Hh" in
  assert (Hh : u == 2 * (u / 2)) by field;
  set (h := u / 2) in *;
  cbn [located loc_of_shr_record shr_1 shr_m orb] in Hloc |- *;
  change (inject_Z 0) with 0 in *;
  change (inject_Z 1) with 1 in *;
  match type of Hloc with
  | _ /\ _ => destruct Hloc as [? [? ?]]
  | _ => idtac
  end;
  repeat split; qcompare_to_order; lra.

End Rounding.

(** ** The statements the development compares the code with *)

Module Spec.

Import AudioToMelSpectrogramPreprocessor.

(** An optional argument is given when it is not [None]. *)
Definition given (v : option pynum) : bool :=
  match v with
  | Some _ => true
  | None => false
  end.

(** Both arguments of the window-size pair, or both of the stride pair,
    are given. *)
Definition both_given (a : Args) : bool :=
  (given (window_size a) && given (n_window_size a))
  || (given (window_stride a) && given (n_window_stride a)).

(** [ceil(length / hop_length)], over the rationals. *)
Definition output_length (hop_length length : Z) : Z :=
  Qceiling (inject_Z length / inject_Z hop_length)%Q.

(** "[output_length[i] = ceil(length[i] / hop_length)]", read for every
    batch of lengths (of 64-bit integers) and every positive hop length:
    whenever the features are computed, [forward] returns them with the
    exact ceilings. *)
Definition output_lengths_are_exact : Prop :=
  forall (W : Type) (self : AudioPreprocessor.Plain (Run W)) (hop : Z)
         (input_signal : Tensor2) (length : list Z) (w w' : W)
         (processed_signal : Tensor3),
    AudioPreprocessor.hop_length (AudioPreprocessor.plain_base self) = Some (PyInt hop) ->
    0 < hop < 2 ^ 63 ->
    Forall (fun l => 0 <= l < 2 ^ 63) length ->
    AudioPreprocessor.plain_get_features self input_signal length w
    = Ok (processed_signal, w') ->
    AudioPreprocessor.forward (M := Run W) self input_signal length w
    = Ok ((processed_signal, map (output_length hop) length), w').

(** "Setting both is a configuration error", read for every value. *)
Definition setting_both_is_an_error : Prop :=
  forall (M : Type -> Type) (E : Effect M) (F : FilterbankFeatures.API M) (a : Args),
    both_given a = true ->
    exists msg, __init__ a = Raise (ValueError msg).

(** "With only a sample count given and the durations at their defaults,
    construction raises", read for every sample count. *)
Definition sample_count_alone_is_an_error : Prop :=
  forall (M : Type -> Type) (E : Effect M) (F : FilterbankFeatures.API M) (n : pynum),
    (exists msg,
       __init__ (with_windows defaults (window_size defaults) (window_stride defaults)
                   (Some n) None) = Raise (ValueError msg))
    /\ (exists msg,
       __init__ (with_windows defaults (window_size defaults) (window_stride defaults)
                   None (Some n)) = Raise (ValueError msg)).

End Spec.

(** ** Instances used to run the definitions *)

Module Instances.

(** A feature pipeline that hands the waveforms back as one-channel
    features; it stands in for the missing pipeline where a concrete
    object is needed. *)
Definition echo_call (self : FilterbankFeaturesModel.t) (x : Tensor2) (length : list Z)
  : Run unit Tensor3 :=
  ret (map (fun row => [row]) x).

Definition featurizer_api : FilterbankFeatures.API (Run unit) :=
  FilterbankFeaturesModel.API echo_call (fun _ => []).

(** An instance of the base class with the given hop length whose
    features are the waveforms themselves. *)
Definition with_hop (hop : Z) : AudioPreprocessor.Plain (Run unit) :=
  {| AudioPreprocessor.plain_base := AudioPreprocessor.__init__ None (Some (PyInt hop));
     AudioPreprocessor.plain_get_features := fun x _ => ret [x] |}.

(** Maskers whose draws are fixed in advance. *)
Definition fixed_maskers (rectangles bands : list Masking.mask)
  : SpectrAugment.API (Run unit) unit :=
  Masking.API (fun _ _ _ _ _ => ret rectangles) (fun _ _ _ _ _ _ => ret bands).

End Instances.

(* ================================================================== *)
(** * Part II. Theorems *)
(* ================================================================== *)

(** ** The constructor of AudioToMelSpectrogramPreprocessor *)

Section Constructor.

Import AudioToMelSpectrogramPreprocessor.

Context {M : Type -> Type} {E : Effect M} {F : FilterbankFeatures.API M}.

Lemma given_of_truthy (v : option pynum) : truthy v = true -> Spec.given v = true.
Proof. destruct v; [reflexivity | discriminate]. Qed.

Lemma init_both_sizes (a : Args) :
  truthy (window_size a) && truthy (n_window_size a) = true ->
  __init__ a = Raise (ValueError both_window_size).
Proof. intros Hb. unfold __init__. now rewrite Hb. Qed.

Lemma init_both_strides (a : Args) :
  truthy (window_size a) && truthy (n_window_size a) = false ->
  truthy (window_stride a) && truthy (n_window_stride a) = true ->
  __init__ a = Raise (ValueError both_window_stride).
Proof. intros Hs Hb. unfold __init__. now rewrite Hs, Hb. Qed.

Lemma init_checks_pass (a : Args) :
  truthy (window_size a) && truthy (n_window_size a) = false ->
  truthy (window_stride a) && truthy (n_window_stride a) = false ->
  __init__ a = construct a.
Proof. intros Hs Hb. unfold __init__. now rewrite Hs, Hb. Qed.

Lemma samples_of_falsy (d : option pynum) (sr : pynum) (n : option pynum) :
  truthy d = false -> samples_of d sr n = Ok n.
Proof. intros Hd. unfold samples_of. destruct d; [now rewrite Hd | reflexivity]. Qed.

Lemma default_size_samples :
  samples_of (window_size defaults) (PyInt 16000) None = Ok (Some (PyInt 320)).
Proof. vm_compute. reflexivity. Qed.

Lemma default_stride_samples :
  samples_of (window_stride defaults) (PyInt 16000) None = Ok (Some (PyInt 160)).
Proof. vm_compute. reflexivity. Qed.

(** C3 (as amended).  The two checks of [__init__] go by truthiness: the
    constructor raises [ValueError] when both values of the window-size
    pair are truthy, and otherwise when both values of the stride pair
    are; when neither pair has two truthy values the checks raise nothing
    and construction goes on, which is the case in particular when at most
    one argument of each pair is given. *)
Theorem both_truthy_is_an_error (a : Args) :
  (truthy (window_size a) && truthy (n_window_size a) = true ->
     __init__ a = Raise (ValueError both_window_size))
  /\ (truthy (window_size a) && truthy (n_window_size a) = false ->
      truthy (window_stride a) && truthy (n_window_stride a) = true ->
     __init__ a = Raise (ValueError both_window_stride))
  /\ (truthy (window_size a) && truthy (n_window_size a) = false ->
      truthy (window_stride a) && truthy (n_window_stride a) = false ->
     __init__ a = construct a)
  /\ (Spec.both_given a = false -> __init__ a = construct a).
Proof.
  split; [apply init_both_sizes |].
  split; [apply init_both_strides |].
  split; [apply init_checks_pass |].
  unfold Spec.both_given. intros Hg.
  apply orb_false_iff in Hg. destruct Hg as [Hsize Hstride].
  apply init_checks_pass.
  - destruct (truthy (window_size a)) eqn:H1, (truthy (n_window_size a)) eqn:H2;
      try reflexivity.
    apply given_of_truthy in H1, H2. rewrite H1, H2 in Hsize. discriminate.
  - destruct (truthy (window_stride a)) eqn:H1, (truthy (n_window_stride a)) eqn:H2;
      try reflexivity.
    apply given_of_truthy in H1, H2. rewrite H1, H2 in Hstride. discriminate.
Qed.

(** C9 (as amended).  The default durations are truthy, so a truthy
    (non-zero) [n_window_size] passed alone raises [ValueError], and so
    does a truthy [n_window_stride] passed alone; with the duration of the
    same pair passed as [None] too, the checks raise nothing. *)
Theorem sample_count_needs_duration_None (n : pynum) :
  truthy (Some n) = true ->
  __init__ (with_windows defaults (window_size defaults) (window_stride defaults)
              (Some n) None) = Raise (ValueError both_window_size)
  /\ __init__ (with_windows defaults (window_size defaults) (window_stride defaults)
                None (Some n)) = Raise (ValueError both_window_stride)
  /\ __init__ (with_windows defaults None (window_stride defaults) (Some n) None)
     = construct (with_windows defaults None (window_stride defaults) (Some n) None)
  /\ __init__ (with_windows defaults (window_size defaults) None None (Some n))
     = construct (with_windows defaults (window_size defaults) None None (Some n)).
Proof.
  intros Hn.
  split; [| split; [| split]].
  - apply init_both_sizes. cbn [with_windows window_size n_window_size].
    rewrite Hn. reflexivity.
  - apply init_both_strides; cbn [with_windows window_size n_window_size
                                   window_stride n_window_stride].
    + apply andb_false_r.
    + rewrite Hn. reflexivity.
  - apply init_checks_pass; cbn [with_windows window_size n_window_size
                                  window_stride n_window_stride].
    + reflexivity.
    + apply andb_false_r.
  - apply init_checks_pass; cbn [with_windows window_size n_window_size
                                  window_stride n_window_stride].
    + apply andb_false_r.
    + reflexivity.
Qed.

(** C10.  A zero duration ([0], [0.0] or [-0.0]) is falsy: passed
    together with a sample count it makes neither check raise, it is not
    converted to samples, and the featurizer is built with the sample
    count as it was passed (the other pair being at its defaults, the
    stride becomes 160 samples, respectively the window 320 samples).
    Nothing in [__init__] itself raises: the instance is constructed
    whenever the constructor of the featurizer returns. *)
Theorem zero_duration_is_not_a_conflict (zero : pynum) (n : option pynum) :
  truthy (Some zero) = false ->
  (__init__ (with_windows defaults (Some zero) (window_stride defaults) n None)
   = (featurizer <- FilterbankFeatures.__init__
                      (featurizer_kwargs defaults n (Some (PyInt 160))) ;;
      ret {| base := AudioPreprocessor.__init__ n None;
             _sample_rate := PyInt 16000;
             featurizer := featurizer |})
   /\ forall f,
        FilterbankFeatures.__init__ (featurizer_kwargs defaults n (Some (PyInt 160)))
        = Ok f ->
        __init__ (with_windows defaults (Some zero) (window_stride defaults) n None)
        = Ok {| base := AudioPreprocessor.__init__ n None;
                _sample_rate := PyInt 16000;
                featurizer := f |})
  /\ (__init__ (with_windows defaults (window_size defaults) (Some zero) None n)
      = (featurizer <- FilterbankFeatures.__init__
                         (featurizer_kwargs defaults (Some (PyInt 320)) n) ;;
         ret {| base := AudioPreprocessor.__init__ None n;
                _sample_rate := PyInt 16000;
                featurizer := featurizer |})
      /\ forall f,
           FilterbankFeatures.__init__ (featurizer_kwargs defaults (Some (PyInt 320)) n)
           = Ok f ->
           __init__ (with_windows defaults (window_size defaults) (Some zero) None n)
           = Ok {| base := AudioPreprocessor.__init__ None n;
                   _sample_rate := PyInt 16000;
                   featurizer := f |}).
Proof.
  intros Hz.
  assert (Hsize :
    __init__ (with_windows defaults (Some zero) (window_stride defaults) n None)
    = (featurizer <- FilterbankFeatures.__init__
                       (featurizer_kwargs defaults n (Some (PyInt 160))) ;;
       ret {| base := AudioPreprocessor.__init__ n None;
              _sample_rate := PyInt 16000;
              featurizer := featurizer |})).
  { rewrite init_checks_pass;
      cbn [with_windows window_size n_window_size window_stride n_window_stride].
    - unfold construct.
      cbn [with_windows window_size n_window_size window_stride n_window_stride
           sample_rate].
      rewrite (samples_of_falsy _ _ _ Hz).
      change (sample_rate defaults) with (PyInt 16000).
      rewrite default_stride_samples. reflexivity.
    - rewrite Hz. reflexivity.
    - apply andb_false_r. }
  assert (Hstride :
    __init__ (with_windows defaults (window_size defaults) (Some zero) None n)
    = (featurizer <- FilterbankFeatures.__init__
                       (featurizer_kwargs defaults (Some (PyInt 320)) n) ;;
       ret {| base := AudioPreprocessor.__init__ None n;
              _sample_rate := PyInt 16000;
              featurizer := featurizer |})).
  { rewrite init_checks_pass;
      cbn [with_windows window_size n_window_size window_stride n_window_stride].
    - unfold construct.
      cbn [with_windows window_size n_window_size window_stride n_window_stride
           sample_rate].
      rewrite (samples_of_falsy _ _ _ Hz).
      change (sample_rate defaults) with (PyInt 16000).
      rewrite default_size_samples. reflexivity.
    - apply andb_false_r.
    - rewrite Hz. reflexivity. }
  split; (split; [assumption |]); intros f Hf.
  - rewrite Hsize. cbn [bind result_Effect]. rewrite Hf. reflexivity.
  - rewrite Hstride. cbn [bind result_Effect]. rewrite Hf. reflexivity.
Qed.

End Constructor.

Section ConstructorExamples.

Import AudioToMelSpectrogramPreprocessor.

(** A zero duration next to a sample count: both arguments of the
    window-size pair are given, and construction succeeds. *)
Lemma zero_duration_with_sample_count_constructs :
  is_ok (__init__ (F := Instances.featurizer_api)
           (with_windows defaults (Some (PyInt 0)) (window_stride defaults)
              (Some (PyInt 320)) None)) = true.
Proof. vm_compute. reflexivity. Qed.

(** C3, counterexample: [window_size=0, n_window_size=320] gives both
    arguments of a pair, and no error is raised. *)
Lemma setting_both_is_an_error_fails : ~ Spec.setting_both_is_an_error.
Proof.
  intros Hclaim.
  destruct (Hclaim (Run unit) _ Instances.featurizer_api
              (with_windows defaults (Some (PyInt 0)) (window_stride defaults)
                 (Some (PyInt 320)) None) eq_refl) as [msg Hmsg].
  apply (f_equal is_ok) in Hmsg.
  rewrite zero_duration_with_sample_count_constructs in Hmsg.
  discriminate Hmsg.
Qed.

Lemma both_truthy_is_an_error_witness :
  __init__ (F := Instances.featurizer_api)
    (with_windows defaults (window_size defaults) None (Some (PyInt 320)) None)
  = Raise (ValueError both_window_size).
Proof.
  apply (proj1 (both_truthy_is_an_error (F := Instances.featurizer_api)
                  (with_windows defaults (window_size defaults) None
                     (Some (PyInt 320)) None))).
  reflexivity.
Defined.

Lemma zero_sample_count_alone_constructs :
  is_ok (__init__ (F := Instances.featurizer_api)
           (with_windows defaults (window_size defaults) (window_stride defaults)
              (Some (PyInt 0)) None)) = true.
Proof. vm_compute. reflexivity. Qed.

(** C9, counterexample: [n_window_size=0] alone raises nothing (the
    default duration then overrides it). *)
Lemma sample_count_alone_is_an_error_fails : ~ Spec.sample_count_alone_is_an_error.
Proof.
  intros Hclaim.
  destruct (Hclaim (Run unit) _ Instances.featurizer_api (PyInt 0)) as [[msg Hmsg] _].
  apply (f_equal is_ok) in Hmsg.
  rewrite zero_sample_count_alone_constructs in Hmsg.
  discriminate Hmsg.
Qed.

Lemma sample_count_needs_duration_None_witness :
  __init__ (F := Instances.featurizer_api)
    (with_windows defaults (window_size defaults) (window_stride defaults)
       (Some (PyInt 400)) None) = Raise (ValueError both_window_size).
Proof.
  apply (proj1 (sample_count_needs_duration_None (F := Instances.featurizer_api) (PyInt 400) eq_refl)).
Defined.

Lemma zero_duration_is_not_a_conflict_witness :
  __init__ (F := Instances.featurizer_api)
    (with_windows defaults (Some (PyFloat (S754_zero false))) (window_stride defaults)
       (Some (PyInt 400)) None)
  = (featurizer <- FilterbankFeatures.__init__
                     (featurizer_kwargs defaults (Some (PyInt 400)) (Some (PyInt 160))) ;;
     ret {| base := AudioPreprocessor.__init__ (Some (PyInt 400)) None;
            _sample_rate := PyInt 16000;
            featurizer := featurizer |}).
Proof.
  apply (proj1 (proj1 (zero_duration_is_not_a_conflict (F := Instances.featurizer_api)
                         (PyFloat (S754_zero false)) (Some (PyInt 400)) eq_refl))).
Defined.

End ConstructorExamples.

(** ** The end-to-end scenario *)

Section EndToEnd.

Import AudioToMelSpectrogramPreprocessor.

Lemma seq_len_16000_by_160 :
  AudioPreprocessor.get_seq_len
    (AudioPreprocessor.__init__ (Some (PyInt 320)) (Some (PyInt 160))) (float [16000])
  = Ok [100].
Proof. vm_compute. reflexivity. Qed.

Lemma init_defaults {M} (F : FilterbankFeatures.API M) :
  __init__ defaults
  = (featurizer <- FilterbankFeatures.__init__
                     (featurizer_kwargs defaults (Some (PyInt 320)) (Some (PyInt 160))) ;;
     ret {| base := AudioPreprocessor.__init__ None None;
            _sample_rate := PyInt 16000;
            featurizer := featurizer |}).
Proof.
  rewrite init_checks_pass by reflexivity.
  unfold construct.
  change (sample_rate defaults) with (PyInt 16000).
  change (n_window_size defaults) with (@None pynum).
  change (n_window_stride defaults) with (@None pynum).
  rewrite default_size_samples, default_stride_samples. reflexivity.
Qed.

(** The base class of a default instance has no hop length: it was
    initialised before the durations were converted.  The sequence length
    of such an instance is therefore the featurizer's. *)
Lemma default_base_has_no_hop_length :
  AudioPreprocessor.get_seq_len (AudioPreprocessor.__init__ None None) (float [16000])
  = Raise (TypeError "unsupported operand type(s) for /: 'Tensor' and 'NoneType'").
Proof. reflexivity. Qed.

(** C7.  With [sample_rate=16000], [window_size=0.02] and
    [window_stride=0.01] (the defaults) the durations become
    [int(0.02 * 16000) = 320] and [int(0.01 * 16000) = 160] samples, which
    is what the featurizer is built with; [ceil(length / hop_length)] for
    length 16000 and hop length 160 is 100; and with a featurizer that
    computes its sequence length by that formula from its stride, the
    forward pass of the default instance returns the length 100. *)
Theorem default_windows_give_100_frames :
  samples_of (Some (PyFloat (float_literal 2 100))) (PyInt 16000) None
  = Ok (Some (PyInt 320))
  /\ samples_of (Some (PyFloat (float_literal 1 100))) (PyInt 16000) None
     = Ok (Some (PyInt 160))
  /\ (forall M (F : FilterbankFeatures.API M),
        __init__
          (with_windows defaults (Some (PyFloat (float_literal 2 100)))
             (Some (PyFloat (float_literal 1 100))) None None)
        = (featurizer <- FilterbankFeatures.__init__
                           (featurizer_kwargs defaults (Some (PyInt 320))
                              (Some (PyInt 160))) ;;
           ret {| base := AudioPreprocessor.__init__ None None;
                  _sample_rate := PyInt 16000;
                  featurizer := featurizer |}))
  /\ AudioPreprocessor.get_seq_len
       (AudioPreprocessor.__init__ (Some (PyInt 320)) (Some (PyInt 160)))
       (float [16000]) = Ok [100]
  /\ (forall W (call : FilterbankFeaturesModel.t -> Tensor2 -> list Z -> Run W Tensor3)
        (banks : FilterbankFeaturesModel.t -> Tensor2),
        let F := FilterbankFeaturesModel.API call banks in
        exists self : t (F := F),
          __init__ defaults = Ok self
          /\ forall x w,
               AudioPreprocessor.forward self x [16000] w
               = (processed_signal <- call (featurizer self) x [16000] ;;
                  ret (processed_signal, [100])) w).
Proof.
  split; [exact default_size_samples |].
  split; [exact default_stride_samples |].
  split; [intros M F; exact (init_defaults F) |].
  split; [exact seq_len_16000_by_160 |].
  intros W call banks F.
  eexists. split.
  - rewrite (init_defaults F). reflexivity.
  - intros x w.
    unfold AudioPreprocessor.forward.
    cbn [bind ret Run_Effect AudioPreprocessor.get_features Mel_Methods get_features
         AudioPreprocessor.get_seq_len_method get_seq_len featurizer
         FilterbankFeatures.call FilterbankFeatures.get_seq_len F
         FilterbankFeaturesModel.API].
    destruct (call _ x [16000] w) as [[sig w'] | e |]; reflexivity.
Qed.

End EndToEnd.

(** ** SpectrogramAugmentation *)

Section Augmentation.

Import SpectrogramAugmentation.

Lemma init_no_band_masking {M} {E : Effect M} {Rng} {S : SpectrAugment.API M Rng}
  (a : Args Rng) :
  freq_masks a + time_masks a <= 0 ->
  spec_augment (__init__ a) = (fun x => ret x).
Proof.
  intros Hle. unfold __init__. cbn [spec_augment].
  destruct (Z.ltb_spec 0 (freq_masks a + time_masks a)); [lia | reflexivity].
Qed.

Lemma init_no_cutout {M} {E : Effect M} {Rng} {S : SpectrAugment.API M Rng}
  (a : Args Rng) :
  rect_masks a <= 0 ->
  spec_cutout (__init__ a) = (fun x => ret x).
Proof.
  intros Hle. unfold __init__. cbn [spec_cutout].
  destruct (Z.ltb_spec 0 (rect_masks a)); [lia | reflexivity].
Qed.

(** C4.  With [freq_masks + time_masks == 0] the band-masking stage is
    the identity, with [rect_masks == 0] the cutout stage is the identity,
    and with both [forward] returns its input unchanged and leaves the
    random-number generators untouched. *)
Theorem zero_counts_give_identity :
  (forall M (E : Effect M) Rng (S : SpectrAugment.API M Rng) (a : Args Rng),
      (freq_masks a + time_masks a = 0 -> spec_augment (__init__ a) = (fun x => ret x))
      /\ (rect_masks a = 0 -> spec_cutout (__init__ a) = (fun x => ret x)))
  /\ (forall W Rng (S : SpectrAugment.API (Run W) Rng) (a : Args Rng),
        freq_masks a + time_masks a = 0 ->
        rect_masks a = 0 ->
        forall (input_spec : Tensor3) (w : W),
          forward (__init__ a) input_spec w = Ok (input_spec, w)).
Proof.
  split.
  - intros M E Rng S a. split; intros H0.
    + apply init_no_band_masking. lia.
    + apply init_no_cutout. lia.
  - intros W Rng S a Hband Hrect x w.
    unfold forward.
    rewrite init_no_cutout, init_no_band_masking by lia.
    reflexivity.
Qed.

End Augmentation.

Lemma zero_counts_give_identity_witness :
  SpectrogramAugmentation.forward
    (SpectrogramAugmentation.__init__ (S := Instances.fixed_maskers [] [])
       SpectrogramAugmentation.defaults)
    [[[f32_of_Z 1; f32_of_Z 2]]] tt
  = Ok ([[[f32_of_Z 1; f32_of_Z 2]]], tt).
Proof.
  apply (proj2 zero_counts_give_identity unit unit (Instances.fixed_maskers [] [])
           SpectrogramAugmentation.defaults eq_refl eq_refl).
Defined.

(** ** Zeroing masks commute *)

Section Masks.

Import Masking.

Lemma mapi_ext {A B} (g h : nat -> A -> B) (l : list A) :
  (forall i x, g i x = h i x) -> forall i, mapi g i l = mapi h i l.
Proof.
  intros Hgh. induction l as [| x l IH]; intros i; cbn [mapi].
  - reflexivity.
  - rewrite Hgh, IH. reflexivity.
Qed.

Lemma mapi_mapi {A B C} (g : nat -> B -> C) (h : nat -> A -> B) (l : list A) :
  forall i, mapi g i (mapi h i l) = mapi (fun j x => g j (h j x)) i l.
Proof.
  induction l as [| x l IH]; intros i; cbn [mapi].
  - reflexivity.
  - rewrite IH. reflexivity.
Qed.

Lemma tensor_mapi_compose (g h : nat -> nat -> nat -> float32 -> float32) (x : Tensor3) :
  tensor_mapi g (tensor_mapi h x) = tensor_mapi (fun b f t v => g b f t (h b f t v)) x.
Proof.
  unfold tensor_mapi. rewrite mapi_mapi.
  apply mapi_ext. intros b plane. rewrite mapi_mapi.
  apply mapi_ext. intros f row. apply mapi_mapi.
Qed.

Lemma tensor_mapi_ext (g h : nat -> nat -> nat -> float32 -> float32) (x : Tensor3) :
  (forall b f t v, g b f t v = h b f t v) -> tensor_mapi g x = tensor_mapi h x.
Proof.
  intros Hgh. unfold tensor_mapi.
  apply mapi_ext. intros b plane.
  apply mapi_ext. intros f row.
  apply mapi_ext. intros t v. apply Hgh.
Qed.

Lemma zero_if_comm (c d : bool) (v : float32) :
  zero_if c (zero_if d v) = zero_if d (zero_if c v).
Proof. destruct c, d; reflexivity. Qed.

(** Zeroing is idempotent. *)
Lemma zero_if_idem (c : bool) (v : float32) : zero_if c (zero_if c v) = zero_if c v.
Proof. destruct c; reflexivity. Qed.

Lemma apply_mask_comm (m n : mask) (x : Tensor3) :
  apply_mask m (apply_mask n x) = apply_mask n (apply_mask m x).
Proof.
  unfold apply_mask. rewrite !tensor_mapi_compose.
  apply tensor_mapi_ext. intros b f t v. apply zero_if_comm.
Qed.

Lemma apply_mask_idem (m : mask) (x : Tensor3) :
  apply_mask m (apply_mask m x) = apply_mask m x.
Proof.
  unfold apply_mask. rewrite tensor_mapi_compose.
  apply tensor_mapi_ext. intros b f t v. apply zero_if_idem.
Qed.

Lemma apply_mask_masks (m : mask) (ms : list mask) (x : Tensor3) :
  apply_mask m (apply_masks ms x) = apply_masks ms (apply_mask m x).
Proof.
  revert x. induction ms as [| n ms IH]; intros x; cbn [apply_masks fold_left].
  - reflexivity.
  - fold (apply_masks ms (apply_mask n x)).
    fold (apply_masks ms (apply_mask n (apply_mask m x))).
    rewrite IH, apply_mask_comm. reflexivity.
Qed.

Lemma apply_masks_comm (ms ns : list mask) (x : Tensor3) :
  apply_masks ms (apply_masks ns x) = apply_masks ns (apply_masks ms x).
Proof.
  revert x. induction ms as [| m ms IH]; intros x; cbn [apply_masks fold_left].
  - reflexivity.
  - fold (apply_masks ms (apply_mask m (apply_masks ns x))).
    fold (apply_masks ms (apply_mask m x)).
    rewrite apply_mask_masks, IH. reflexivity.
Qed.

End Masks.

(** C5.  [forward] runs the cutout stage first and the band-masking
    stage second, on the output of the first.  With maskers that zero the
    masks they have drawn, and the drawn rectangles and bands fixed, that
    is the tensor with the rectangles zeroed and then the bands zeroed,
    and it equals what the opposite order of the two stages returns. *)
Theorem cutout_then_band_masking :
  (forall M (E : Effect M) (self : SpectrogramAugmentation.t M) (input_spec : Tensor3),
      SpectrogramAugmentation.forward self input_spec
      = (after_cutout <- SpectrogramAugmentation.spec_cutout self input_spec ;;
         after_bands <- SpectrogramAugmentation.spec_augment self after_cutout ;;
         ret after_bands))
  /\ (forall W (rectangles bands : list Masking.mask) (input_spec : Tensor3) (w : W),
        let self :=
          {| SpectrogramAugmentation.spec_cutout :=
               Masking.masker (M := Run W) (fun _ => ret rectangles);
             SpectrogramAugmentation.spec_augment :=
               Masking.masker (M := Run W) (fun _ => ret bands) |} in
        SpectrogramAugmentation.forward self input_spec w
        = Ok (Masking.apply_masks bands (Masking.apply_masks rectangles input_spec), w)
        /\ SpectrogramAugmentation.forward_band_masking_first self input_spec w
           = SpectrogramAugmentation.forward self input_spec w).
Proof.
  split.
  - reflexivity.
  - intros W rectangles bands x w self. split.
    + reflexivity.
    + unfold SpectrogramAugmentation.forward_band_masking_first,
        SpectrogramAugmentation.forward, self, Masking.masker.
      cbn [bind ret Run_Effect SpectrogramAugmentation.spec_cutout
           SpectrogramAugmentation.spec_augment].
      rewrite apply_masks_comm. reflexivity.
Qed.

(** ** The window table *)

Section Windows.

Import AudioToMelSpectrogramPreprocessor.

Lemma ones_all_one (n : nat) :
  List.length (ones n) = n /\ Forall (fun v => v = f32_of_Z 1) (ones n).
Proof.
  unfold ones. split.
  - apply repeat_length.
  - apply Forall_forall. intros v Hv. exact (repeat_spec _ _ _ Hv).
Qed.

Lemma model_init_unknown_window (k : FilterbankFeatures.kwargs) :
  dict_get FilterbankFeaturesModel.window_table (FilterbankFeatures.window k) = None ->
  FilterbankFeaturesModel.__init__ k = Raise (ValueError FilterbankFeaturesModel.unknown_window).
Proof.
  intros Hk. unfold FilterbankFeaturesModel.__init__, FilterbankFeaturesModel.resolve_window.
  rewrite Hk. reflexivity.
Qed.

Lemma model_init_known_window (k : FilterbankFeatures.kwargs) (g : window_fn) :
  dict_get FilterbankFeaturesModel.window_table (FilterbankFeatures.window k) = Some g ->
  FilterbankFeaturesModel.__init__ k
  = Ok {| FilterbankFeaturesModel.kw := k; FilterbankFeaturesModel.window_fn_of := g |}.
Proof.
  intros Hk. unfold FilterbankFeaturesModel.__init__, FilterbankFeaturesModel.resolve_window.
  rewrite Hk. reflexivity.
Qed.

Lemma init_with_window {M} (F : FilterbankFeatures.API M) (name : option string) :
  __init__ (with_window defaults name)
  = (featurizer <- FilterbankFeatures.__init__
                     (featurizer_kwargs (with_window defaults name)
                        (Some (PyInt 320)) (Some (PyInt 160))) ;;
     ret {| base := AudioPreprocessor.__init__ None None;
            _sample_rate := PyInt 16000;
            featurizer := featurizer |}).
Proof.
  rewrite init_checks_pass by reflexivity.
  unfold construct.
  change (sample_rate (with_window defaults name)) with (PyInt 16000).
  change (n_window_size (with_window defaults name)) with (@None pynum).
  change (n_window_stride (with_window defaults name)) with (@None pynum).
  change (window_size (with_window defaults name)) with (window_size defaults).
  change (window_stride (with_window defaults name)) with (window_stride defaults).
  rewrite default_size_samples, default_stride_samples. reflexivity.
Qed.

(** C6.  The window table of [AudioPreprocessor] maps [hann], [hamming],
    [blackman] and [bartlett] to torch's generator of that window, and
    both [None] (no window) and [ones] to [torch.ones], whose result is the
    all-ones vector of the requested length.  With a featurizer that
    resolves the window name through the table when it is built, a name
    that is not a key makes the constructor of
    [AudioToMelSpectrogramPreprocessor] raise, so that no object exists
    whose call could fail; a name that is a key yields an object holding
    the generator. *)
Theorem window_table_and_unknown_names :
  let table := AudioPreprocessor.torch_windows (AudioPreprocessor.__init__ None None) in
  (dict_get table (Some "hann") = Some hann_window
   /\ dict_get table (Some "hamming") = Some hamming_window
   /\ dict_get table (Some "blackman") = Some blackman_window
   /\ dict_get table (Some "bartlett") = Some bartlett_window
   /\ dict_get table None = Some ones_fn
   /\ dict_get table (Some "ones") = Some ones_fn)
  /\ (forall n : nat,
        window_values ones_fn n = Some (ones n)
        /\ List.length (ones n) = n
        /\ Forall (fun v => v = f32_of_Z 1) (ones n))
  /\ (forall W (call : FilterbankFeaturesModel.t -> Tensor2 -> list Z -> Run W Tensor3)
        (banks : FilterbankFeaturesModel.t -> Tensor2) (name : option string),
        let F := FilterbankFeaturesModel.API call banks in
        (dict_get table name = None ->
           __init__ (F := F) (with_window defaults name)
           = Raise (ValueError FilterbankFeaturesModel.unknown_window))
        /\ (forall g, dict_get table name = Some g ->
              exists self : t (F := F),
                __init__ (with_window defaults name) = Ok self
                /\ FilterbankFeaturesModel.window_fn_of (featurizer self) = g)).
Proof.
  intros table.
  split; [repeat split |].
  split.
  - intros n. split; [reflexivity | apply ones_all_one].
  - intros W call banks name F. split.
    + intros Hname. rewrite (init_with_window F).
      cbn [FilterbankFeatures.__init__ F FilterbankFeaturesModel.API].
      rewrite model_init_unknown_window by exact Hname. reflexivity.
    + intros g Hname. eexists. split.
      * rewrite (init_with_window F).
        cbn [FilterbankFeatures.__init__ F FilterbankFeaturesModel.API].
        rewrite (model_init_known_window _ g) by exact Hname. reflexivity.
      * reflexivity.
Qed.

End Windows.

Lemma window_table_and_unknown_names_witness :
  AudioToMelSpectrogramPreprocessor.__init__ (F := Instances.featurizer_api)
    (AudioToMelSpectrogramPreprocessor.with_window
       AudioToMelSpectrogramPreprocessor.defaults (Some "kaiser"))
  = Raise (ValueError FilterbankFeaturesModel.unknown_window).
Proof.
  apply (proj1 (proj2 (proj2 window_table_and_unknown_names) unit
                  Instances.echo_call (fun _ => []) (Some "kaiser"))).
  reflexivity.
Defined.

(** ** Binary32 arithmetic rounds to nearest

    The conversion of an integer to binary32 and the binary32 division of
    [SpecFloat] return the rounding, in the sense of [Rounding.rounds_to],
    of the exact value; rounding is monotone and leaves the integers up to
    [2^24] alone. *)

Section Binary32.

Import Rounding.

Local Open Scope Q_scope.


Lemma two_neq_0 : ~ 2 == 0.
Proof. discriminate. Qed.

Lemma pow2_pos e : 0 < pow2 e.
Proof. apply Qpower_0_lt. reflexivity. Qed.

Lemma pow2_plus a b : pow2 (a + b) == pow2 a * pow2 b.
Proof. apply Qpower_plus, two_neq_0. Qed.

Lemma pow2_succ e : pow2 (e + 1) == 2 * pow2 e.
Proof. rewrite pow2_plus. unfold pow2 at 2. rewrite Qpower_1_r. ring. Qed.

Lemma pow2_pred e : 2 * pow2 (e - 1) == pow2 e.
Proof. rewrite <- pow2_succ. replace (e - 1 + 1)%Z with e by lia. reflexivity. Qed.

Lemma pow2_le a b : (a <= b)%Z -> pow2 a <= pow2 b.
Proof. intros H. apply Qpower_le_compat_l; [exact H | discriminate]. Qed.

Lemma pow2_lt a b : (a < b)%Z -> pow2 a < pow2 b.
Proof. intros H. apply Qpower_lt_compat_l; [exact H | reflexivity]. Qed.

Lemma pow2_lt_inv a b : pow2 a < pow2 b -> (a < b)%Z.
Proof.
  intros H. destruct (Z.lt_ge_cases a b) as [Hlt | Hge]; [exact Hlt |].
  apply pow2_le in Hge. lra.
Qed.

Lemma pow2_Z n : (0 <= n)%Z -> pow2 n == inject_Z (2 ^ n).
Proof. intros H. unfold pow2. rewrite Zpower_Qpower by exact H. reflexivity. Qed.

Lemma pow2_0 : pow2 0 == 1.
Proof. reflexivity. Qed.

(** Qfloor characterisation *)
Lemma Qfloor_eq (u : Q) (n : Z) : inject_Z n <= u -> u < inject_Z (n + 1) -> Qfloor u = n.
Proof.
  intros Hl Hu.
  pose proof (Qfloor_le u) as H1. pose proof (Qlt_floor u) as H2.
  assert (Hn : (n < Qfloor u + 1)%Z).
  { rewrite Zlt_Qlt. lra. }
  assert (Hm : (Qfloor u < n + 1)%Z).
  { rewrite Zlt_Qlt. lra. }
  lia.
Qed.

Lemma rhe_floor_or_succ u : rhe u = Qfloor u \/ rhe u = (Qfloor u + 1)%Z.
Proof.
  unfold rhe. destruct (u - inject_Z (Qfloor u) ?= 1 # 2); auto.
  destruct (Z.even (Qfloor u)); auto.
Qed.

Lemma rhe_comp u v : u == v -> rhe u = rhe v.
Proof.
  intros H. unfold rhe. rewrite (Qfloor_comp _ _ H).
  assert (Hc : (u - inject_Z (Qfloor v) ?= 1 # 2) = (v - inject_Z (Qfloor v) ?= 1 # 2)).
  { apply Qcompare_comp; [rewrite H; reflexivity | reflexivity]. }
  rewrite Hc. reflexivity.
Qed.

Lemma rhe_Z n : rhe (inject_Z n) = n.
Proof.
  unfold rhe. rewrite Qfloor_Z.
  assert (H : (inject_Z n - inject_Z n ?= 1 # 2) = Lt).
  { rewrite <- Qlt_alt. lra. }
  rewrite H. reflexivity.
Qed.

Lemma rhe_mono u v : u <= v -> (rhe u <= rhe v)%Z.
Proof.
  intros Huv.
  pose proof (Qfloor_resp_le _ _ Huv) as Hf.
  destruct (Z.eq_dec (Qfloor u) (Qfloor v)) as [Heq | Hne].
  - unfold rhe. rewrite Heq.
    destruct (u - inject_Z (Qfloor v) ?= 1 # 2) eqn:Cu;
      destruct (v - inject_Z (Qfloor v) ?= 1 # 2) eqn:Cv;
      try rewrite <- Qeq_alt in *; try rewrite <- Qlt_alt in *; try rewrite <- Qgt_alt in *;
      first [ exfalso; lra | destruct (Z.even (Qfloor v)); lia ].
  - destruct (rhe_floor_or_succ u) as [-> | ->], (rhe_floor_or_succ v) as [-> | ->]; lia.
Qed.

Lemma rhe_near u : inject_Z (rhe u) - (1 # 2) <= u /\ u <= inject_Z (rhe u) + (1 # 2).
Proof.
  pose proof (Qfloor_le u) as H1. pose proof (Qlt_floor u) as H2.
  rewrite inject_Z_plus in H2. change (inject_Z 1) with 1 in H2.
  unfold rhe.
  destruct (u - inject_Z (Qfloor u) ?= 1 # 2) eqn:C;
    try rewrite <- Qeq_alt in C; try rewrite <- Qlt_alt in C; try rewrite <- Qgt_alt in C.
  - destruct (Z.even (Qfloor u)); rewrite ?inject_Z_plus; change (inject_Z 1) with 1 in *; lra.
  - lra.
  - rewrite inject_Z_plus. change (inject_Z 1) with 1 in *. lra.
Qed.

(** Strictly above the midpoint rounds up. *)
Lemma rhe_above_half u n : inject_Z n + (1 # 2) < u -> (n + 1 <= rhe u)%Z.
Proof.
  intros H. pose proof (rhe_near u) as [_ Hn].
  assert (Hlt : inject_Z n < inject_Z (rhe u)) by lra.
  rewrite <- Zlt_Qlt in Hlt. lia.
Qed.

Lemma round_at_comp e u v : u == v -> round_at e u == round_at e v.
Proof.
  intros H. unfold round_at. rewrite (rhe_comp (u / pow2 e) (v / pow2 e)); [reflexivity |].
  rewrite H. reflexivity.
Qed.

Lemma round_at_mono e u v : u <= v -> round_at e u <= round_at e v.
Proof.
  intros H. unfold round_at. pose proof (pow2_pos e) as Hp.
  apply Qmult_le_compat_r; [| lra].
  rewrite <- Zle_Qle. apply rhe_mono.
  apply Qmult_le_compat_r; [exact H |]. apply Qlt_le_weak, Qinv_lt_0_compat, Hp.
Qed.

Lemma round_at_grid e n : round_at e (inject_Z n * pow2 e) == inject_Z n * pow2 e.
Proof.
  unfold round_at. pose proof (pow2_pos e) as Hp.
  rewrite (rhe_comp _ (inject_Z n)); [rewrite rhe_Z; reflexivity |].
  field. lra.
Qed.

Lemma binade_unique k k' v : binade k v -> binade k' v -> k = k'.
Proof.
  intros [Hl Hu] [Hl' Hu'].
  assert (H1 : pow2 (k - 1) < pow2 k') by lra.
  assert (H2 : pow2 (k' - 1) < pow2 k) by lra.
  apply pow2_lt_inv in H1, H2. lia.
Qed.

Lemma binade_mono k1 k2 v1 v2 :
  binade k1 v1 -> binade k2 v2 -> v1 <= v2 -> (k1 <= k2)%Z.
Proof.
  intros [Hl1 Hu1] [Hl2 Hu2] Hle.
  assert (H : pow2 (k1 - 1) < pow2 k2) by lra.
  apply pow2_lt_inv in H. lia.
Qed.

Lemma binade_pos k v : binade k v -> 0 < v.
Proof. intros [Hl _]. pose proof (pow2_pos (k - 1)). lra. Qed.

Lemma binade_comp k u v : u == v -> binade k u -> binade k v.
Proof. intros H [Hl Hu]. split; rewrite <- H; assumption. Qed.

Lemma binade_Z (z : Z) : (0 < z)%Z -> binade (Z.log2 z + 1) (inject_Z z).
Proof.
  intros Hz. pose proof (Z.log2_spec z Hz) as [Hl Hu].
  pose proof (Z.log2_nonneg z) as Hnn.
  unfold binade. replace (Z.log2 z + 1 - 1)%Z with (Z.log2 z) by lia.
  rewrite !pow2_Z by lia. rewrite <- Zle_Qle, <- Zlt_Qlt.
  replace (Z.log2 z + 1)%Z with (Z.succ (Z.log2 z)) by lia. lia.
Qed.

(** The grid of exponent [k - 24] holds both ends of the binade [k]. *)
Lemma pow2_on_grid_low k : pow2 (k - 1) == inject_Z (2 ^ 23) * pow2 (k - 24).
Proof.
  rewrite <- (pow2_Z 23) by lia. rewrite <- pow2_plus.
  replace (23 + (k - 24))%Z with (k - 1)%Z by lia. reflexivity.
Qed.

Lemma pow2_on_grid_high k : pow2 k == inject_Z (2 ^ 24) * pow2 (k - 24).
Proof.
  rewrite <- (pow2_Z 24) by lia. rewrite <- pow2_plus.
  replace (24 + (k - 24))%Z with k by lia. reflexivity.
Qed.

Lemma round_at_binade k v :
  binade k v -> pow2 (k - 1) <= round_at (k - 24) v /\ round_at (k - 24) v <= pow2 k.
Proof.
  intros [Hl Hu]. split.
  - rewrite (pow2_on_grid_low k) at 1. rewrite <- round_at_grid.
    apply round_at_mono. rewrite <- pow2_on_grid_low. exact Hl.
  - rewrite (pow2_on_grid_high k). rewrite <- round_at_grid.
    apply round_at_mono. rewrite <- pow2_on_grid_high. lra.
Qed.

Lemma rounds_to_pos v r : rounds_to v r -> 0 < r.
Proof.
  intros [k [Hk Hr]]. pose proof (round_at_binade k v Hk) as [Hl _].
  pose proof (pow2_pos (k - 1)). lra.
Qed.

Lemma rounds_to_comp v v' r r' : v == v' -> r == r' -> rounds_to v r -> rounds_to v' r'.
Proof.
  intros Hv Hr [k [Hk Hrk]]. exists k. split.
  - exact (binade_comp k v v' Hv Hk).
  - rewrite <- Hr, Hrk. apply round_at_comp, Hv.
Qed.

Lemma rounds_to_unique v r r' : rounds_to v r -> rounds_to v r' -> r == r'.
Proof.
  intros [k [Hk Hr]] [k' [Hk' Hr']].
  rewrite (binade_unique k k' v Hk Hk') in Hr. rewrite Hr, Hr'. reflexivity.
Qed.

(** Rounding to nearest is monotone, also across binades. *)
Lemma rounds_to_mono v1 v2 r1 r2 :
  rounds_to v1 r1 -> rounds_to v2 r2 -> v1 <= v2 -> r1 <= r2.
Proof.
  intros [k1 [Hk1 Hr1]] [k2 [Hk2 Hr2]] Hle.
  pose proof (binade_mono _ _ _ _ Hk1 Hk2 Hle) as Hk.
  destruct (Z.eq_dec k1 k2) as [-> | Hne].
  - rewrite Hr1, Hr2. apply round_at_mono, Hle.
  - pose proof (round_at_binade k1 v1 Hk1) as [_ Hu].
    pose proof (round_at_binade k2 v2 Hk2) as [Hl _].
    assert (Hp : pow2 k1 <= pow2 (k2 - 1)) by (apply pow2_le; lia).
    rewrite Hr1, Hr2. lra.
Qed.

(** A value on the grid of its binade is its own rounding. *)
Lemma rounds_to_grid k n v r :
  binade k v -> v == inject_Z n * pow2 (k - 24) -> rounds_to v r -> r == v.
Proof.
  intros Hk Hv [k' [Hk' Hr]].
  rewrite <- (binade_unique k k' v Hk Hk') in Hr.
  rewrite Hr. rewrite (round_at_comp _ _ _ Hv). rewrite round_at_grid. symmetry. exact Hv.
Qed.

Lemma rounds_to_grid_intro k n v :
  binade k v -> v == inject_Z n * pow2 (k - 24) -> rounds_to v v.
Proof.
  intros Hk Hv. exists k. split; [exact Hk |].
  rewrite (round_at_comp _ _ _ Hv). rewrite round_at_grid. exact Hv.
Qed.

(** Integers up to [2^24] are on the grid of their binade. *)
Lemma small_Z_on_grid z :
  (0 < z <= 2 ^ 24)%Z ->
  exists n, inject_Z z == inject_Z n * pow2 (Z.log2 z + 1 - 24).
Proof.
  intros [Hpos Hle].
  pose proof (Z.log2_spec z Hpos) as [Hl Hu]. pose proof (Z.log2_nonneg z) as Hnn.
  assert (Hlog : (Z.log2 z <= 24)%Z).
  { rewrite <- (Z.log2_pow2 24) by lia. apply Z.log2_le_mono. lia. }
  destruct (Z.eq_dec (Z.log2 z) 24) as [He | Hne].
  - exists (2 ^ 23)%Z. rewrite He.
    assert (Hz : z = (2 ^ 24)%Z) by (rewrite He in Hl; lia).
    rewrite Hz. reflexivity.
  - exists (z * 2 ^ (23 - Z.log2 z))%Z.
    rewrite inject_Z_mult. rewrite <- (pow2_Z (23 - Z.log2 z)) by lia.
    rewrite <- Qmult_assoc, <- pow2_plus.
    replace (23 - Z.log2 z + (Z.log2 z + 1 - 24))%Z with 0%Z by lia.
    rewrite pow2_0. ring.
Qed.

Lemma rounds_to_small_Z z r :
  (0 < z <= 2 ^ 24)%Z -> rounds_to (inject_Z z) r -> r == inject_Z z.
Proof.
  intros Hz Hr. destruct (small_Z_on_grid z Hz) as [n Hn].
  apply (rounds_to_grid (Z.log2 z + 1) n); [apply binade_Z; lia | exact Hn | exact Hr].
Qed.

Lemma rounds_to_small_Z_intro z :
  (0 < z <= 2 ^ 24)%Z -> rounds_to (inject_Z z) (inject_Z z).
Proof.
  intros Hz. destruct (small_Z_on_grid z Hz) as [n Hn].
  apply (rounds_to_grid_intro (Z.log2 z + 1) n); [apply binade_Z; lia | exact Hn].
Qed.

(** ** Locations *)

Lemma located_comp m l u v : u == v -> located m l u -> located m l v.
Proof.
  intros H. destruct l as [| c]; cbn [located].
  - intros Hu. rewrite <- H. exact Hu.
  - intros [H1 [H2 H3]]. split; [| split]; rewrite <- H; assumption.
Qed.

Lemma located_bounds m l u : located m l u -> inject_Z m <= u /\ u < inject_Z m + 1.
Proof.
  destruct l as [| c]; cbn [located].
  - intros H. lra.
  - intros [H1 [H2 _]]. lra.
Qed.

Lemma rhe_located m l u : located m l u -> rhe u = round_nearest_even m l.
Proof.
  destruct l as [| c]; cbn [located round_nearest_even].
  - intros H. rewrite (rhe_comp _ _ H). apply rhe_Z.
  - intros [H1 [H2 H3]].
    assert (Hf : Qfloor u = m).
    { apply Qfloor_eq; [lra |]. rewrite inject_Z_plus. change (inject_Z 1) with 1. lra. }
    unfold rhe. rewrite Hf.
    assert (Hc : Qcompare (u - inject_Z m) (1 # 2) = c).
    { destruct c; qcompare_to_order; lra. }
    rewrite Hc. destruct c; reflexivity.
Qed.

Lemma inject_Z_xO p : inject_Z (Zpos p~0) == 2 * inject_Z (Zpos p).
Proof. rewrite Pos2Z.inj_xO, inject_Z_mult. reflexivity. Qed.

Lemma inject_Z_xI p : inject_Z (Zpos p~1) == 2 * inject_Z (Zpos p) + 1.
Proof. rewrite Pos2Z.inj_xI, inject_Z_plus, inject_Z_mult. reflexivity. Qed.

Lemma shr_1_located mrs u :
  (0 <= shr_m mrs)%Z ->
  located (shr_m mrs) (loc_of_shr_record mrs) u ->
  shr_m (shr_1 mrs) = (shr_m mrs / 2)%Z
  /\ located (shr_m (shr_1 mrs)) (loc_of_shr_record (shr_1 mrs)) (u / 2).
Proof.
  destruct mrs as [m r s]. cbn [shr_m]. intros Hm Hloc.
  destruct m as [| p | p]; [| | lia].
  - split; [reflexivity |].
    destruct r, s; solve_shr_1 u Hloc.
  - destruct p as [p | p |].
    + split; [cbn [shr_1 shr_m]; rewrite Pos2Z.inj_xI;
              apply (Z.div_unique _ 2 _ 1); lia |].
      pose proof (inject_Z_xI p) as Hp.
      destruct r, s; solve_shr_1 u Hloc.
    + split; [cbn [shr_1 shr_m]; rewrite Pos2Z.inj_xO;
              apply (Z.div_unique _ 2 _ 0); lia |].
      pose proof (inject_Z_xO p) as Hp.
      destruct r, s; solve_shr_1 u Hloc.
    + split; [reflexivity |].
      destruct r, s; solve_shr_1 u Hloc.
Qed.

Lemma pow2_neq_0 e : ~ pow2 e == 0.
Proof. pose proof (pow2_pos e). lra. Qed.

Lemma pow2_1 : pow2 1 == 2.
Proof. reflexivity. Qed.

Lemma iter_shr_1_located p : forall mrs u,
  (0 <= shr_m mrs)%Z ->
  located (shr_m mrs) (loc_of_shr_record mrs) u ->
  shr_m (iter_pos shr_1 p mrs) = (shr_m mrs / 2 ^ Zpos p)%Z
  /\ located (shr_m (iter_pos shr_1 p mrs))
       (loc_of_shr_record (iter_pos shr_1 p mrs)) (u / pow2 (Zpos p)).
Proof.
  induction p as [p IH | p IH |]; intros mrs u Hm Hloc; cbn [iter_pos].
  - destruct (shr_1_located mrs u Hm Hloc) as [Hm1 Hl1].
    assert (Hp1 : (0 <= shr_m (shr_1 mrs))%Z) by (rewrite Hm1; apply Z.div_pos; lia).
    destruct (IH _ _ Hp1 Hl1) as [Hm2 Hl2].
    assert (Hp2 : (0 <= shr_m (iter_pos shr_1 p (shr_1 mrs)))%Z).
    { rewrite Hm2. apply Z.div_pos; [lia | apply Z.pow_pos_nonneg; lia]. }
    destruct (IH _ _ Hp2 Hl2) as [Hm3 Hl3].
    split.
    + rewrite Hm3, Hm2, Hm1.
      rewrite !Z.div_div by (try apply Z.pow_pos_nonneg; lia).
      f_equal.
      assert (He : Z.pos p~1 = (1 + Z.pos p + Z.pos p)%Z) by lia.
      rewrite He, !Z.pow_add_r by lia. rewrite Z.pow_1_r. ring.
    + refine (located_comp _ _ _ _ _ Hl3).
      assert (He : Z.pos p~1 = (Z.pos p + Z.pos p + 1)%Z) by lia.
      rewrite He, !pow2_plus, pow2_1. field. apply pow2_neq_0.
  - destruct (IH _ _ Hm Hloc) as [Hm2 Hl2].
    assert (Hp2 : (0 <= shr_m (iter_pos shr_1 p mrs))%Z).
    { rewrite Hm2. apply Z.div_pos; [lia | apply Z.pow_pos_nonneg; lia]. }
    destruct (IH _ _ Hp2 Hl2) as [Hm3 Hl3].
    split.
    + rewrite Hm3, Hm2.
      rewrite !Z.div_div by (try apply Z.pow_pos_nonneg; lia).
      f_equal.
      assert (He : Z.pos p~0 = (Z.pos p + Z.pos p)%Z) by lia.
      rewrite He, Z.pow_add_r by lia. reflexivity.
    + refine (located_comp _ _ _ _ _ Hl3).
      assert (He : Z.pos p~0 = (Z.pos p + Z.pos p)%Z) by lia.
      rewrite He, !pow2_plus. field. apply pow2_neq_0.
  - destruct (shr_1_located mrs u Hm Hloc) as [Hm1 Hl1].
    split; [exact Hm1 |].
    refine (located_comp _ _ _ _ _ Hl1). rewrite pow2_1. reflexivity.
Qed.

Lemma shr_record_of_loc_m m l : shr_m (shr_record_of_loc m l) = m.
Proof. destruct l as [| []]; reflexivity. Qed.

Lemma loc_of_shr_record_of_loc m l : loc_of_shr_record (shr_record_of_loc m l) = l.
Proof. destruct l as [| []]; reflexivity. Qed.

Lemma shr_located mrs e n u :
  (0 <= n)%Z ->
  (0 <= shr_m mrs)%Z ->
  located (shr_m mrs) (loc_of_shr_record mrs) u ->
  snd (shr mrs e n) = (e + n)%Z
  /\ shr_m (fst (shr mrs e n)) = (shr_m mrs / 2 ^ n)%Z
  /\ located (shr_m (fst (shr mrs e n))) (loc_of_shr_record (fst (shr mrs e n)))
       (u / pow2 n).
Proof.
  intros Hn Hm Hloc. destruct n as [| p | p]; [| | lia]; cbn [shr fst snd].
  - split; [lia |]. split; [rewrite Z.pow_0_r, Z.div_1_r; reflexivity |].
    refine (located_comp _ _ _ _ _ Hloc). rewrite pow2_0. field.
  - split; [reflexivity |]. apply iter_shr_1_located; assumption.
Qed.

(** ** Digits *)

Lemma digits2_pos_size p : digits2_pos p = Pos.size p.
Proof. induction p as [p IH | p IH |]; cbn; rewrite ?IH; reflexivity. Qed.

Lemma digits2_bounds p :
  (2 ^ (Zpos (digits2_pos p) - 1) <= Zpos p < 2 ^ Zpos (digits2_pos p))%Z.
Proof.
  rewrite digits2_pos_size.
  pose proof (Pos.size_gt p) as Hgt. pose proof (Pos.size_le p) as Hle.
  apply Pos2Z.pos_lt_pos in Hgt. apply Pos2Z.pos_le_pos in Hle.
  rewrite Pos2Z.inj_pow in Hgt, Hle. rewrite (Pos2Z.inj_xO p) in Hle.
  split; [| exact Hgt].
  assert (Hs : (2 ^ Z.pos (Pos.size p) = 2 * 2 ^ (Z.pos (Pos.size p) - 1))%Z).
  { rewrite <- Z.pow_succ_r by lia. f_equal. lia. }
  lia.
Qed.

Lemma pow2_Z_lt_inv a b : (0 <= a)%Z -> (0 <= b)%Z -> (2 ^ a < 2 ^ b)%Z -> (a < b)%Z.
Proof. intros Ha Hb H. apply (Z.pow_lt_mono_r_iff 2); lia. Qed.

Lemma Zdigits2_unique m d :
  (2 ^ (d - 1) <= m < 2 ^ d)%Z -> (0 < d)%Z -> Zdigits2 m = d.
Proof.
  intros [Hl Hu] Hd.
  assert (Hm : (0 < m)%Z).
  { pose proof (Z.pow_pos_nonneg 2 (d - 1)). lia. }
  destruct m as [| p | p]; try lia. cbn [Zdigits2].
  pose proof (digits2_bounds p) as [Hl' Hu'].
  assert (H1 : (2 ^ (d - 1) < 2 ^ Z.pos (digits2_pos p))%Z) by lia.
  assert (H2 : (2 ^ (Z.pos (digits2_pos p) - 1) < 2 ^ d)%Z) by lia.
  apply pow2_Z_lt_inv in H1; [| lia | lia].
  apply pow2_Z_lt_inv in H2; [| lia | lia].
  lia.
Qed.

Lemma Zdigits2_bounds m :
  (0 < m)%Z -> (2 ^ (Zdigits2 m - 1) <= m < 2 ^ Zdigits2 m)%Z /\ (0 < Zdigits2 m)%Z.
Proof.
  intros Hm. destruct m as [| p | p]; try lia. cbn [Zdigits2].
  split; [apply digits2_bounds | lia].
Qed.

Lemma fexp32 x : fexp 24 128 x = Z.max (x - 24) (-149).
Proof. reflexivity. Qed.

Lemma round_nearest_even_range m l :
  (m <= round_nearest_even m l <= m + 1)%Z.
Proof. destruct l as [| []]; cbn; try destruct (Z.even m); lia. Qed.

Lemma located_binade m e l v :
  (0 < m)%Z ->
  located m l (v / pow2 e) ->
  binade (Zdigits2 m + e) v.
Proof.
  intros Hm Hloc.
  destruct (Zdigits2_bounds m Hm) as [[Hl Hu] Hd].
  destruct (located_bounds _ _ _ Hloc) as [H1 H2].
  pose proof (pow2_pos e) as Hp.
  assert (Hv : v == (v / pow2 e) * pow2 e) by (field; apply pow2_neq_0).
  set (u := v / pow2 e) in *.
  unfold binade. split.
  - replace (Zdigits2 m + e - 1)%Z with (Zdigits2 m - 1 + e)%Z by lia.
    rewrite pow2_plus, pow2_Z by lia.
    rewrite Hv. apply Qmult_le_compat_r; [| lra].
    apply Qle_trans with (inject_Z m); [| exact H1].
    rewrite <- Zle_Qle. exact Hl.
  - rewrite pow2_plus, pow2_Z by lia.
    rewrite Hv. apply Qmult_lt_compat_r; [exact Hp |].
    apply Qlt_le_trans with (inject_Z m + 1); [exact H2 |].
    change 1 with (inject_Z 1). rewrite <- inject_Z_plus, <- Zle_Qle. lia.
Qed.

Lemma div_pow2_range m d n :
  (0 <= n)%Z -> (2 ^ (d - 1) <= m < 2 ^ d)%Z -> (d = 24 + n)%Z ->
  (2 ^ 23 <= m / 2 ^ n < 2 ^ 24)%Z.
Proof.
  intros Hn [Hl Hu] Hd. subst d.
  assert (Hp : (0 < 2 ^ n)%Z) by (apply Z.pow_pos_nonneg; lia).
  replace (24 + n - 1)%Z with (23 + n)%Z in Hl by lia.
  rewrite Z.pow_add_r in Hl, Hu by lia.
  split.
  - apply Z.div_le_lower_bound; lia.
  - apply Z.div_lt_upper_bound; lia.
Qed.

Lemma binary_round_aux_correct m e l v :
  (0 < m)%Z ->
  (24 <= Zdigits2 m)%Z ->
  located m l (v / pow2 e) ->
  (-149 <= Zdigits2 m + e - 24)%Z ->
  (Zdigits2 m + e <= 127)%Z ->
  exists m' e',
    binary_round_aux 24 128 false m e l = S754_finite false m' e'
    /\ Zpos (digits2_pos m') = 24%Z
    /\ (Zdigits2 m + e - 24 <= e' <= Zdigits2 m + e - 23)%Z
    /\ rounds_to v (inject_Z (Zpos m') * pow2 e').
Proof.
  intros Hm Hd Hloc Hlow Hhigh.
  pose proof (located_binade m e l v Hm Hloc) as Hbin.
  destruct (Zdigits2_bounds m Hm) as [Hmb _].
  set (d := Zdigits2 m) in *.
  set (n := (d - 24)%Z).
  set (e1 := (d + e - 24)%Z).
  unfold binary_round_aux, shr_fexp. fold d. rewrite fexp32.
  replace (Z.max (d + e - 24) (-149) - e)%Z with n by (unfold n; lia).
  assert (Hl0 : located (shr_m (shr_record_of_loc m l))
                  (loc_of_shr_record (shr_record_of_loc m l)) (v / pow2 e)).
  { rewrite shr_record_of_loc_m, loc_of_shr_record_of_loc. exact Hloc. }
  assert (Hm0 : (0 <= shr_m (shr_record_of_loc m l))%Z).
  { rewrite shr_record_of_loc_m. lia. }
  destruct (shr_located (shr_record_of_loc m l) e n (v / pow2 e)
              ltac:(unfold n; lia) Hm0 Hl0) as [He1 [Hm1 Hl1]].
  rewrite shr_record_of_loc_m in Hm1.
  destruct (shr (shr_record_of_loc m l) e n) as [mrs1 e1'].
  cbn [fst snd] in He1, Hm1, Hl1.
  subst e1'. replace (e + n)%Z with e1 in * by (unfold e1, n; lia).
  assert (Hu1 : v / pow2 e / pow2 n == v / pow2 e1).
  { unfold e1. replace (d + e - 24)%Z with (e + n)%Z by (unfold n; lia).
    rewrite pow2_plus. field. split; apply pow2_neq_0. }
  apply (located_comp _ _ _ _ Hu1) in Hl1.
  pose proof (div_pow2_range m d n ltac:(unfold n; lia) Hmb ltac:(unfold n; lia)) as Hr1.
  rewrite <- Hm1 in Hr1.
  pose proof (rhe_located _ _ _ Hl1) as Hrhe.
  pose proof (round_nearest_even_range (shr_m mrs1) (loc_of_shr_record mrs1)) as Hr2.
  set (m2 := round_nearest_even (shr_m mrs1) (loc_of_shr_record mrs1)) in *.
  assert (Hround : round_at e1 v == inject_Z m2 * pow2 e1).
  { unfold round_at. rewrite Hrhe. reflexivity. }
  assert (He1k : e1 = (d + e - 24)%Z) by reflexivity.
  destruct (Z.eq_dec m2 (2 ^ 24)) as [Htop | Hnot].
  - (* the mantissa was rounded up to [2^24] *)
    rewrite Htop in *.
    exists (8388608%positive), (e1 + 1)%Z.
    split; [| split; [reflexivity | split; [lia |]]].
    + change (Zdigits2 (2 ^ 24)) with 25%Z. rewrite fexp32.
      replace (Z.max (25 + e1 - 24) (-149) - e1)%Z with 1%Z by lia.
      cbn [shr shr_record_of_loc iter_pos shr_1 shr_m].
      change (2 ^ 24)%Z with (Z.pos 8388608~0). cbn [shr_1 shr_m].
      destruct (Z.leb_spec (e1 + 1) (128 - 24)); [reflexivity | lia].
    + exists (d + e)%Z. split; [exact Hbin |].
      rewrite <- He1k, Hround.
      rewrite pow2_plus, pow2_1.
      change (inject_Z (2 ^ 24)) with (inject_Z (Z.pos 8388608) * 2). ring.
  - assert (Hd2 : Zdigits2 m2 = 24%Z) by (apply Zdigits2_unique; lia).
    destruct m2 as [| p2 | p2] eqn:Hm2; try lia.
    exists p2, e1.
    split; [| split; [exact Hd2 | split; [lia |]]].
    + rewrite Hd2, fexp32.
      replace (Z.max (24 + e1 - 24) (-149) - e1)%Z with 0%Z by lia.
      cbn [shr shr_record_of_loc shr_m].
      destruct (Z.leb_spec e1 (128 - 24)); [reflexivity | lia].
    + exists (d + e)%Z. split; [exact Hbin |].
      rewrite <- He1k, Hround. reflexivity.
Qed.

(** ** Conversion of a positive integer *)

Lemma Pos_iter_xO m d : Zpos (Pos.iter xO m d) = (Zpos m * 2 ^ Zpos d)%Z.
Proof.
  induction d as [| d IH] using Pos.peano_ind.
  - cbn [Pos.iter]. rewrite Pos2Z.inj_xO. change (2 ^ 1)%Z with 2%Z. lia.
  - rewrite Pos.iter_succ, Pos2Z.inj_xO, IH, Pos2Z.inj_succ, Z.pow_succ_r by lia. ring.
Qed.

Lemma shl_align_spec mx ex ex' :
  snd (shl_align mx ex ex') = Z.min ex ex'
  /\ Zpos (fst (shl_align mx ex ex')) = (Zpos mx * 2 ^ (ex - Z.min ex ex'))%Z.
Proof.
  unfold shl_align. destruct (ex' - ex)%Z as [| k | k] eqn:Hk; cbn [fst snd].
  - replace (Z.min ex ex') with ex by lia. rewrite Z.sub_diag. split; [reflexivity | lia].
  - replace (Z.min ex ex') with ex by lia. rewrite Z.sub_diag. split; [reflexivity | lia].
  - replace (Z.min ex ex') with ex' by lia. split; [reflexivity |].
    rewrite Pos_iter_xO. f_equal. f_equal. lia.
Qed.

Lemma Zdigits2_log2 z : (0 < z)%Z -> Zdigits2 z = (Z.log2 z + 1)%Z.
Proof.
  intros Hz. pose proof (Z.log2_spec z Hz) as [Hl Hu]. pose proof (Z.log2_nonneg z).
  apply Zdigits2_unique; [| lia].
  replace (Z.log2 z + 1 - 1)%Z with (Z.log2 z) by lia.
  replace (Z.log2 z + 1)%Z with (Z.succ (Z.log2 z)) by lia. lia.
Qed.

Lemma f32_of_Z_correct z :
  (0 < z < 2 ^ 127)%Z ->
  exists m e,
    f32_of_Z z = S754_finite false m e
    /\ Zpos (digits2_pos m) = 24%Z
    /\ (Z.log2 z - 23 <= e <= Z.log2 z - 22)%Z
    /\ rounds_to (inject_Z z) (F2Q m e).
Proof.
  intros [Hpos Hlt].
  pose proof (Zdigits2_log2 z Hpos) as Hdig.
  assert (Hlog : (Z.log2 z < 127)%Z) by (apply Z.log2_lt_pow2; lia).
  pose proof (Z.log2_nonneg z) as Hnn.
  destruct z as [| p | p]; try lia.
  unfold f32_of_Z, binary_normalize, binary_round.
  destruct (shl_align_spec p 0 (fexp 24 128 (Z.pos (digits2_pos p) + 0))) as [He Hm].
  destruct (shl_align p 0 (fexp 24 128 (Z.pos (digits2_pos p) + 0))) as [mz ez].
  cbn [fst snd] in He, Hm. cbn [Zdigits2] in Hdig.
  rewrite fexp32 in He, Hm.
  destruct (digits2_bounds p) as [Hpl Hpu].
  set (d := Z.pos (digits2_pos p)) in *.
  assert (Hez : ez = Z.min 0 (d - 24)) by lia. clear He.
  assert (Hmz : Z.pos mz = (Z.pos p * 2 ^ (- ez))%Z).
  { rewrite Hm. f_equal. f_equal. lia. }
  clear Hm.
  assert (Hdz : Zdigits2 (Z.pos mz) = Z.max d 24).
  { apply Zdigits2_unique; [| lia]. rewrite Hmz.
    destruct (Z.le_ge_cases d 24) as [Hsmall | Hbig].
    - replace (- ez)%Z with (24 - d)%Z by lia. replace (Z.max d 24) with 24%Z by lia.
      assert (H23 : (2 ^ (24 - 1) = 2 ^ (d - 1) * 2 ^ (24 - d))%Z).
      { rewrite <- Z.pow_add_r by lia. f_equal. lia. }
      assert (H24 : (2 ^ 24 = 2 ^ d * 2 ^ (24 - d))%Z).
      { rewrite <- Z.pow_add_r by lia. f_equal. lia. }
      assert (Hk : (0 < 2 ^ (24 - d))%Z) by (apply Z.pow_pos_nonneg; lia).
      rewrite H23, H24. split.
      + apply Z.mul_le_mono_nonneg_r; lia.
      + apply Z.mul_lt_mono_pos_r; lia.
    - replace ez with 0%Z by lia. replace (Z.max d 24) with d by lia.
      cbn [Z.opp]. rewrite Z.pow_0_r. lia. }
  assert (Hloc : located (Z.pos mz) loc_Exact (inject_Z (Z.pos p) / pow2 ez)).
  { cbn [located]. rewrite Hmz, inject_Z_mult.
    rewrite <- (pow2_Z (- ez)) by lia.
    assert (Hone : pow2 (- ez) * pow2 ez == 1).
    { rewrite <- pow2_plus. replace (- ez + ez)%Z with 0%Z by lia. reflexivity. }
    pose proof (pow2_neq_0 ez) as Hnz.
    rewrite <- (Qmult_1_r (inject_Z (Z.pos p))) at 1. rewrite <- Hone. field. exact Hnz. }
  destruct (binary_round_aux_correct (Z.pos mz) ez loc_Exact (inject_Z (Z.pos p)))
    as [m' [e' [Heq [Hd' [He' Hr']]]]]; try (rewrite ?Hdz; lia); try exact Hloc.
  exists m', e'. split; [exact Heq |]. split; [exact Hd' |]. split; [| exact Hr'].
  rewrite Hdz in He'. lia.
Qed.

(** ** Division *)

Lemma Qcompare_frac (k : Z) (nb : positive) :
  Qcompare (inject_Z k / inject_Z (Zpos nb)) (1 # 2) = Z.compare (2 * k) (Zpos nb).
Proof.
  unfold Qcompare, Qdiv, Qmult, Qinv, inject_Z. cbn [Qnum Qden].
  f_equal; lia.
Qed.

Lemma Qcompare_plus_l a b c : Qcompare (c + a) (c + b) = Qcompare a b.
Proof.
  destruct (Qcompare a b) eqn:H; qcompare_to_order; lra.
Qed.

Lemma new_location_located (nb : positive) (k q : Z) :
  (0 <= k < Zpos nb)%Z ->
  located q (new_location (Zpos nb) k) (inject_Z (q * Zpos nb + k) / inject_Z (Zpos nb)).
Proof.
  intros [Hk0 Hk1].
  assert (Hy : 0 < inject_Z (Zpos nb)) by (rewrite <- (Zlt_Qlt 0); lia).
  assert (Hu : inject_Z (q * Zpos nb + k) / inject_Z (Zpos nb)
               == inject_Z q + inject_Z k / inject_Z (Zpos nb)).
  { rewrite inject_Z_plus, inject_Z_mult. field. lra. }
  apply (located_comp _ _ _ _ (Qeq_sym _ _ Hu)).
  assert (Hfrac : 0 <= inject_Z k / inject_Z (Zpos nb) /\ inject_Z k / inject_Z (Zpos nb) < 1).
  { split.
    - apply Qle_shift_div_l; [exact Hy |]. rewrite Qmult_0_l, <- (Zle_Qle 0). exact Hk0.
    - apply Qlt_shift_div_r; [exact Hy |]. rewrite Qmult_1_l, <- Zlt_Qlt. exact Hk1. }
  assert (Hpos : (0 < k)%Z -> 0 < inject_Z k / inject_Z (Zpos nb)).
  { intros Hk. apply Qlt_shift_div_l; [exact Hy |]. rewrite Qmult_0_l, <- (Zlt_Qlt 0). exact Hk. }
  pose proof (Qcompare_frac k nb) as Hcmp.
  set (t := inject_Z k / inject_Z (Zpos nb)) in *.
  unfold new_location, new_location_even, new_location_odd.
  destruct (Z.even (Zpos nb)) eqn:Heven; destruct (Z.eqb_spec k 0) as [-> | Hk];
    cbn [located].
  - unfold t. unfold Qdiv. rewrite Qmult_0_l. ring.
  - split; [specialize (Hpos ltac:(lia)); lra |]. split; [lra |].
    rewrite Qcompare_plus_l. exact Hcmp.
  - unfold t. unfold Qdiv. rewrite Qmult_0_l. ring.
  - split; [specialize (Hpos ltac:(lia)); lra |]. split; [lra |].
    rewrite Qcompare_plus_l, Hcmp.
    destruct (Z.compare_spec (2 * k + 1) (Zpos nb)) as [He | Hl | Hg].
    + apply Z.compare_lt_iff. lia.
    + apply Z.compare_lt_iff. lia.
    + apply Z.compare_gt_iff.
      assert (Hne : (2 * k)%Z <> Zpos nb).
      { intros Heq. rewrite <- Heq, Z.even_mul in Heven. discriminate. }
      lia.
Qed.

Lemma SFdiv_correct mx ex my ey :
  Zpos (digits2_pos mx) = 24%Z ->
  Zpos (digits2_pos my) = 24%Z ->
  (-125 <= ex - ey <= 126)%Z ->
  exists m e,
    SFdiv 24 128 (S754_finite false mx ex) (S754_finite false my ey)
    = S754_finite false m e
    /\ Zpos (digits2_pos m) = 24%Z
    /\ (ex - ey - 24 <= e <= ex - ey - 22)%Z
    /\ rounds_to (F2Q mx ex / F2Q my ey) (F2Q m e).
Proof.
  intros Hdx Hdy Hexp.
  destruct (digits2_bounds mx) as [Hxl Hxu]. destruct (digits2_bounds my) as [Hyl Hyu].
  rewrite Hdx in Hxl, Hxu. rewrite Hdy in Hyl, Hyu.
  unfold SFdiv, SFdiv_core_binary. cbn [Zdigits2 xorb]. rewrite Hdx, Hdy, fexp32.
  replace (Z.min (Z.max (24 + ex - (24 + ey) - 24) (-149)) (ex - ey))
    with (ex - ey - 24)%Z by lia.
  replace (ex - ey - (ex - ey - 24))%Z with 24%Z by lia.
  rewrite Z.shiftl_mul_pow2 by lia.
  pose proof (Z_div_mod (Z.pos mx * 2 ^ 24) (Z.pos my) ltac:(lia)) as Hdm.
  destruct (Z.div_eucl (Z.pos mx * 2 ^ 24) (Z.pos my)) as [q r].
  destruct Hdm as [Hqr Hr].
  assert (Hq : (2 ^ 23 <= q < 2 ^ 25)%Z).
  { change (2 ^ (24 - 1))%Z with (2 ^ 23)%Z in *.
    change (2 ^ 23)%Z with 8388608%Z in *. change (2 ^ 24)%Z with 16777216%Z in *.
    change (2 ^ 25)%Z with 33554432%Z. nia. }
  assert (Hq0 : (0 < q)%Z) by (change (2 ^ 23)%Z with 8388608%Z in Hq; lia).
  assert (Hdq : (24 <= Zdigits2 q <= 25)%Z).
  { destruct (Z.lt_ge_cases q (2 ^ 24)) as [Hs | Hb].
    - rewrite (Zdigits2_unique q 24); [lia | | lia]. change (24 - 1)%Z with 23%Z. lia.
    - rewrite (Zdigits2_unique q 25); [lia | | lia]. change (25 - 1)%Z with 24%Z. lia. }
  set (v := F2Q mx ex / F2Q my ey).
  assert (Hloc : located q (new_location (Z.pos my) r) (v / pow2 (ex - ey - 24))).
  { refine (located_comp _ _ _ _ _ (new_location_located my r q Hr)).
    replace (q * Z.pos my + r)%Z with (Z.pos mx * 2 ^ 24)%Z by lia.
    unfold v, F2Q. rewrite inject_Z_mult, <- (pow2_Z 24) by lia.
    assert (Hex : pow2 ex == pow2 24 * pow2 ey * pow2 (ex - ey - 24)).
    { rewrite <- !pow2_plus. replace (24 + ey + (ex - ey - 24))%Z with ex by lia. reflexivity. }
    rewrite Hex.
    assert (Hmy : ~ inject_Z (Z.pos my) == 0).
    { intros H0. assert (0 < inject_Z (Z.pos my)) by (rewrite <- (Zlt_Qlt 0); lia). lra. }
    field. repeat split; try apply pow2_neq_0; exact Hmy. }
  destruct (binary_round_aux_correct q (ex - ey - 24) (new_location (Z.pos my) r) v
              Hq0 ltac:(lia) Hloc ltac:(lia) ltac:(lia))
    as [m' [e' [Heq [Hd' [He' Hr']]]]].
  exists m', e'. split; [exact Heq |]. split; [exact Hd' |]. split; [lia | exact Hr'].
Qed.

(** ** Ceiling and the cast to a 64-bit integer *)

Lemma inject_Z_pos_neq_0 (p : positive) : ~ inject_Z (Zpos p) == 0.
Proof.
  intros H0. assert (0 < inject_Z (Z.pos p)) by (rewrite <- (Zlt_Qlt 0); lia). lra.
Qed.

Lemma F2Q_pos m e : 0 < F2Q m e.
Proof.
  unfold F2Q. apply Qmult_lt_0_compat; [| apply pow2_pos].
  rewrite <- (Zlt_Qlt 0). lia.
Qed.

Lemma F2Q_nonneg_exp m e : (0 <= e)%Z -> F2Q m e == inject_Z (Zpos m * 2 ^ e).
Proof. intros He. unfold F2Q. rewrite inject_Z_mult, pow2_Z by exact He. reflexivity. Qed.

Lemma F2Q_neg_exp m e : (e <= 0)%Z -> F2Q m e == inject_Z (Zpos m) / inject_Z (2 ^ (- e)).
Proof.
  intros He. unfold F2Q. rewrite <- (pow2_Z (- e)) by lia.
  assert (Hone : pow2 (- e) * pow2 e == 1).
  { rewrite <- pow2_plus. replace (- e + e)%Z with 0%Z by lia. reflexivity. }
  pose proof (pow2_neq_0 (- e)) as Hnz.
  rewrite <- (Qmult_1_r (inject_Z (Z.pos m))) at 2. rewrite <- Hone. field. exact Hnz.
Qed.

Lemma to_long1_integral m e c :
  F2Q m e == inject_Z c -> (0 < c < 2 ^ 63)%Z ->
  to_long1 (S754_finite false m e) = Ok c.
Proof.
  intros Hv Hc. unfold to_long1. cbn [cond_Zopp].
  assert (Hz : Z.shiftl (Z.pos m) e = c).
  { destruct (Z.le_ge_cases 0 e) as [Hpos | Hneg].
    - rewrite Z.shiftl_mul_pow2 by exact Hpos.
      rewrite F2Q_nonneg_exp in Hv by exact Hpos.
      exact (proj1 (inject_Z_injective _ _) Hv).
    - rewrite Z.shiftl_div_pow2 by lia.
      assert (Hp : (0 < 2 ^ (- e))%Z) by (apply Z.pow_pos_nonneg; lia).
      assert (Hm : Z.pos m = (c * 2 ^ (- e))%Z).
      { apply (proj1 (inject_Z_injective _ _)). rewrite inject_Z_mult.
        rewrite <- Hv, F2Q_neg_exp by lia. field.
        intros H0. assert (0 < inject_Z (2 ^ (- e))) by (rewrite <- (Zlt_Qlt 0); lia). lra. }
      rewrite Hm. apply Z.div_mul. lia. }
  rewrite Hz.
  destruct (Z.leb_spec (- 2 ^ 63) c); [| lia].
  destruct (Z.ltb_spec c (2 ^ 63)); [reflexivity | lia].
Qed.

Lemma Qceiling_dyadic (m b : Z) :
  (0 < b)%Z -> Qceiling (inject_Z m / inject_Z b) = (- ((- m) / b))%Z.
Proof.
  intros Hb. unfold Qceiling. f_equal. rewrite Zdiv_Qdiv.
  apply Qfloor_comp. rewrite inject_Z_opp. field.
  intros H0. assert (0 < inject_Z b) by (rewrite <- (Zlt_Qlt 0); lia). lra.
Qed.

Lemma ceil_to_long m e :
  Zpos (digits2_pos m) = 24%Z ->
  F2Q m e < inject_Z (2 ^ 63) ->
  to_long1 (ceil1 (S754_finite false m e)) = Ok (Qceiling (F2Q m e)).
Proof.
  intros Hd Hlt.
  destruct (digits2_bounds m) as [Hml Hmu]. rewrite Hd in Hml, Hmu.
  unfold ceil1. destruct (Z.leb_spec 0 e) as [Hpos | Hneg].
  - pose proof (F2Q_nonneg_exp m e Hpos) as Hv.
    rewrite (Qceiling_comp _ _ Hv), Qceiling_Z.
    apply to_long1_integral; [exact Hv |].
    rewrite Hv, <- Zlt_Qlt in Hlt.
    assert (0 < 2 ^ e)%Z by (apply Z.pow_pos_nonneg; lia). nia.
  - cbn [cond_Zopp].
    pose proof (F2Q_neg_exp m e ltac:(lia)) as Hv.
    assert (Hb : (2 <= 2 ^ (- e))%Z).
    { change 2%Z with (2 ^ 1)%Z at 1. apply Z.pow_le_mono_r; lia. }
    rewrite (Qceiling_comp _ _ Hv), Qceiling_dyadic by lia.
    set (b := (2 ^ (- e))%Z) in *.
    set (c := (- (- Z.pos m / b))%Z).
    assert (Hc : (0 < c <= 2 ^ 24)%Z).
    { pose proof (Z.mul_div_le (- Z.pos m) b ltac:(lia)) as H1.
      pose proof (Z.mul_succ_div_gt (- Z.pos m) b ltac:(lia)) as H2.
      change (2 ^ 24)%Z with 16777216%Z in *. unfold c. nia. }
    change (binary_normalize 24 128 c 0 false) with (f32_of_Z c).
    destruct (f32_of_Z_correct c) as [m' [e' [Heq [_ [_ Hr]]]]].
    { change (2 ^ 24)%Z with 16777216%Z in Hc. change (2 ^ 127)%Z with
        170141183460469231731687303715884105728%Z. lia. }
    rewrite Heq. apply to_long1_integral.
    + apply rounds_to_small_Z; [exact Hc | exact Hr].
    + change (2 ^ 24)%Z with 16777216%Z in Hc.
      change (2 ^ 63)%Z with 9223372036854775808%Z. lia.
Qed.

(** ** The quotient of two small integers *)

Lemma inject_Z_pos_lt (z : Z) : (0 < z)%Z -> 0 < inject_Z z.
Proof. intros H. rewrite <- (Zlt_Qlt 0). exact H. Qed.

Lemma Qdiv_Z_gt (k L H : Z) :
  (0 < H)%Z -> inject_Z k < inject_Z L / inject_Z H -> (k * H < L)%Z.
Proof.
  intros HH Hlt. pose proof (inject_Z_pos_lt H HH) as Hp.
  rewrite Zlt_Qlt, inject_Z_mult.
  assert (Hq : inject_Z L == inject_Z L / inject_Z H * inject_Z H) by (field; lra).
  rewrite Hq. apply Qmult_lt_compat_r; assumption.
Qed.

Lemma Qdiv_Z_lt (k L H : Z) :
  (0 < H)%Z -> inject_Z L / inject_Z H < inject_Z k -> (L < k * H)%Z.
Proof.
  intros HH Hlt. pose proof (inject_Z_pos_lt H HH) as Hp.
  rewrite Zlt_Qlt, inject_Z_mult.
  assert (Hq : inject_Z L == inject_Z L / inject_Z H * inject_Z H) by (field; lra).
  rewrite Hq. apply Qmult_lt_compat_r; assumption.
Qed.

Lemma round_quotient_above (L H k0 : Z) (r : Q) :
  (0 < L <= 2 ^ 24)%Z -> (0 < H)%Z -> (1 <= k0)%Z ->
  inject_Z k0 < inject_Z L / inject_Z H ->
  inject_Z L / inject_Z H < inject_Z (k0 + 1) ->
  rounds_to (inject_Z L / inject_Z H) r ->
  inject_Z k0 < r.
Proof.
  intros HL HH Hk0 Hlow Hhigh Hr.
  pose proof (inject_Z_pos_lt H HH) as HHq.
  pose proof (Qdiv_Z_gt _ _ _ HH Hlow) as HkH.
  pose proof (Qdiv_Z_lt _ _ _ HH Hhigh) as HkH'.
  pose proof (Z.log2_spec k0 ltac:(lia)) as [Hel Heu].
  pose proof (Z.log2_nonneg k0) as Henn.
  set (e := Z.log2 k0) in *.
  assert (He23 : (e <= 23)%Z).
  { assert (Hlt : (2 ^ e < 2 ^ 24)%Z) by nia.
    apply pow2_Z_lt_inv in Hlt; lia. }
  set (P := (2 ^ (23 - e))%Z).
  assert (HP : (0 < P)%Z) by (apply Z.pow_pos_nonneg; lia).
  assert (H2P : (2 ^ e * (2 * P) = 2 ^ 24)%Z).
  { unfold P. rewrite <- (Z.pow_succ_r 2 (23 - e)), <- Z.pow_add_r by lia. f_equal. lia. }
  assert (HHP : (H < 2 * P)%Z) by nia.
  assert (Hbin : binade (e + 1) (inject_Z L / inject_Z H)).
  { split.
    - replace (e + 1 - 1)%Z with e by lia. rewrite pow2_Z by lia.
      apply Qle_trans with (inject_Z k0); [rewrite <- Zle_Qle; lia | lra].
    - rewrite pow2_Z by lia.
      apply Qlt_le_trans with (inject_Z (k0 + 1)); [exact Hhigh |].
      rewrite <- Zle_Qle. replace (e + 1)%Z with (Z.succ e) by lia. lia. }
  destruct Hr as [k [Hk Hrk]].
  rewrite <- (binade_unique _ _ _ Hbin Hk) in Hrk. clear k Hk.
  replace (e + 1 - 24)%Z with (e - 23)%Z in Hrk by lia.
  assert (Hinv : pow2 (e - 23) * inject_Z P == 1).
  { unfold P. rewrite <- pow2_Z, <- pow2_plus by lia.
    replace (e - 23 + (23 - e))%Z with 0%Z by lia. reflexivity. }
  pose proof (pow2_pos (e - 23)) as Hpp.
  assert (Hu : inject_Z L / inject_Z H / pow2 (e - 23)
               == inject_Z (L * P) / inject_Z H).
  { rewrite inject_Z_mult.
    assert (HPq : inject_Z P == / pow2 (e - 23)).
    { apply (Qmult_inj_l _ _ (pow2 (e - 23))); [lra |].
      rewrite Hinv. field. lra. }
    rewrite HPq. field. split; lra. }
  assert (Hhalf : inject_Z (k0 * P) + (1 # 2) < inject_Z (L * P) / inject_Z H).
  { apply Qlt_shift_div_l; [exact HHq |].
    assert (HZ : ((2 * (k0 * P) + 1) * H < 2 * (L * P))%Z) by nia.
    rewrite Zlt_Qlt in HZ.
    rewrite !inject_Z_mult, !inject_Z_plus, !inject_Z_mult in HZ.
    rewrite !inject_Z_mult.
    change (inject_Z 2) with 2 in HZ. change (inject_Z 1) with 1 in HZ. lra. }
  pose proof (rhe_above_half _ _ Hhalf) as Hrhe.
  rewrite <- (rhe_comp _ _ Hu) in Hrhe.
  unfold round_at in Hrk.
  rewrite Zle_Qle, inject_Z_plus, inject_Z_mult in Hrhe. change (inject_Z 1) with 1 in Hrhe.
  assert (Hk0q : inject_Z k0 == inject_Z k0 * inject_Z P * pow2 (e - 23)).
  { rewrite <- Qmult_assoc, (Qmult_comm (inject_Z P)), Hinv. ring. }
  rewrite Hrk, Hk0q.
  apply Qmult_lt_compat_r; [exact Hpp | lra].
Qed.

Lemma Qle_mult_ge_1 a b : 0 <= a -> 1 <= b -> a <= a * b.
Proof.
  intros Ha Hb. rewrite (Qmult_comm a b).
  setoid_replace a with (1 * a) at 1 by ring.
  apply Qmult_le_compat_r; assumption.
Qed.

Lemma Qceiling_unique (q : Q) (c : Z) :
  inject_Z (c - 1) < q -> q <= inject_Z c -> Qceiling q = c.
Proof.
  intros Hl Hu.
  pose proof (Qle_ceiling q) as H1. pose proof (Qceiling_lt q) as H2.
  assert (Ha : (c - 1 < Qceiling q)%Z) by (rewrite Zlt_Qlt; lra).
  assert (Hb : (Qceiling q - 1 < c)%Z) by (rewrite Zlt_Qlt; lra).
  lia.
Qed.

Lemma round_quotient_ceiling (L H : Z) (r : Q) :
  (0 < L <= 2 ^ 24)%Z -> (0 < H <= 2 ^ 24)%Z ->
  rounds_to (inject_Z L / inject_Z H) r ->
  Qceiling r = Qceiling (inject_Z L / inject_Z H).
Proof.
  intros HL HH Hr.
  pose proof (inject_Z_pos_lt H ltac:(lia)) as HHq.
  pose proof (inject_Z_pos_lt L ltac:(lia)) as HLq.
  assert (Hq0 : 0 < inject_Z L / inject_Z H).
  { apply Qlt_shift_div_l; lra. }
  assert (HqL : inject_Z L / inject_Z H <= inject_Z L).
  { apply Qle_shift_div_r; [exact HHq |].
    assert (1 <= inject_Z H) by (rewrite <- (Zle_Qle 1); lia).
    apply Qle_mult_ge_1; lra. }
  remember (inject_Z L / inject_Z H) as q eqn:Hq.
  pose proof (Qle_ceiling q) as Hqc. pose proof (Qceiling_lt q) as Hcq.
  remember (Qceiling q) as c eqn:Hc.
  assert (Hc1 : (1 <= c)%Z).
  { assert (H0 : (0 < c)%Z) by (rewrite Zlt_Qlt; change (inject_Z 0) with 0; lra). lia. }
  assert (HcL : (c <= L)%Z).
  { rewrite Hc, <- (Qceiling_Z L). apply Qceiling_resp_le. exact HqL. }
  assert (Hcc : rounds_to (inject_Z c) (inject_Z c)).
  { apply rounds_to_small_Z_intro. lia. }
  apply Qceiling_unique.
  - (* the rounded quotient stays above [c - 1] *)
    destruct (Z.eq_dec c 1) as [Hone | Hmore].
    + rewrite Hone. change (inject_Z (1 - 1)) with 0. exact (rounds_to_pos _ _ Hr).
    + destruct (Qlt_le_dec q (inject_Z c)) as [Hlt | Hge].
      * subst q.
        apply (round_quotient_above L H (c - 1)); try lia; try assumption.
        replace (c - 1 + 1)%Z with c by lia. exact Hlt.
      * assert (Heq : q == inject_Z c) by lra.
        pose proof (rounds_to_comp _ _ _ _ Heq (Qeq_refl r) Hr) as Hr'.
        rewrite (rounds_to_unique _ _ _ Hr' Hcc).
        rewrite <- Zlt_Qlt. lia.
  - exact (rounds_to_mono _ _ _ _ Hr Hcc Hqc).
Qed.

Lemma rounds_to_pow2 j : rounds_to (pow2 j) (pow2 j).
Proof.
  apply (rounds_to_grid_intro (j + 1) (2 ^ 23)).
  - split.
    + replace (j + 1 - 1)%Z with j by lia. apply Qle_refl.
    + apply pow2_lt. lia.
  - rewrite <- pow2_on_grid_low. replace (j + 1 - 1)%Z with j by lia. reflexivity.
Qed.

(** ** One element of [get_seq_len] *)

Lemma seq_len_positive L H :
  (0 < L <= 2 ^ 62)%Z -> (0 < H < 2 ^ 63)%Z ->
  exists rL rH rq,
    rounds_to (inject_Z L) rL
    /\ rounds_to (inject_Z H) rH
    /\ rounds_to (rL / rH) rq
    /\ to_long1 (ceil1 (SFdiv 24 128 (f32_of_Z L) (f32_of_Z H))) = Ok (Qceiling rq).
Proof.
  intros HL HH.
  assert (HlogL : (0 <= Z.log2 L <= 62)%Z).
  { split; [apply Z.log2_nonneg |].
    rewrite <- (Z.log2_pow2 62) by lia. apply Z.log2_le_mono. lia. }
  assert (HlogH : (0 <= Z.log2 H <= 62)%Z).
  { split; [apply Z.log2_nonneg |].
    assert (Z.log2 H < 63)%Z by (apply Z.log2_lt_pow2; lia). lia. }
  destruct (f32_of_Z_correct L) as [mL [eL [HeqL [HdL [HeL HrL]]]]].
  { split; [lia |]. apply Z.le_lt_trans with (2 ^ 62)%Z; [lia | reflexivity]. }
  destruct (f32_of_Z_correct H) as [mH [eH [HeqH [HdH [HeH HrH]]]]].
  { split; [lia |]. apply Z.lt_trans with (2 ^ 63)%Z; [lia | reflexivity]. }
  destruct (SFdiv_correct mL eL mH eH HdL HdH ltac:(lia)) as [m [e [Heq [Hd [He Hr]]]]].
  exists (F2Q mL eL), (F2Q mH eH), (F2Q m e).
  split; [exact HrL |]. split; [exact HrH |]. split; [exact Hr |].
  rewrite HeqL, HeqH, Heq. apply ceil_to_long; [exact Hd |].
  (* the quotient is below [2^63] *)
  assert (H1 : 1 <= F2Q mH eH).
  { apply (rounds_to_mono 1 (inject_Z H) 1 _); [| exact HrH |].
    - exact (rounds_to_small_Z_intro 1 ltac:(lia)).
    - rewrite <- (Zle_Qle 1). lia. }
  assert (H62 : rounds_to (inject_Z (2 ^ 62)) (inject_Z (2 ^ 62))).
  { apply (rounds_to_comp (pow2 62) _ (pow2 62) _); try apply rounds_to_pow2;
      rewrite pow2_Z by lia; reflexivity. }
  assert (HL62 : F2Q mL eL <= inject_Z (2 ^ 62)).
  { apply (rounds_to_mono _ _ _ _ HrL H62). rewrite <- Zle_Qle. lia. }
  pose proof (F2Q_pos mL eL) as HLpos.
  assert (Hq62 : F2Q mL eL / F2Q mH eH <= inject_Z (2 ^ 62)).
  { apply Qle_shift_div_r; [lra |].
    assert (H0 : 0 <= inject_Z (2 ^ 62)) by discriminate.
    pose proof (Qle_mult_ge_1 _ _ H0 H1). lra. }
  apply Qle_lt_trans with (inject_Z (2 ^ 62)); [| reflexivity].
  exact (rounds_to_mono _ _ _ _ Hr H62 Hq62).
Qed.

Lemma seq_len_zero H :
  (0 < H < 2 ^ 63)%Z ->
  to_long1 (ceil1 (SFdiv 24 128 (f32_of_Z 0) (f32_of_Z H))) = Ok 0%Z.
Proof.
  intros HH.
  destruct (f32_of_Z_correct H) as [mH [eH [HeqH _]]].
  { split; [lia |]. apply Z.lt_trans with (2 ^ 63)%Z; [lia | reflexivity]. }
  rewrite HeqH. reflexivity.
Qed.

Lemma output_length_Z hop l : (0 < hop)%Z -> Spec.output_length hop l = (- ((- l) / hop))%Z.
Proof. intros Hh. apply Qceiling_dyadic. exact Hh. Qed.

Lemma seq_len_exact L H :
  (0 <= L <= 2 ^ 24)%Z -> (0 < H < 2 ^ 63)%Z ->
  to_long1 (ceil1 (SFdiv 24 128 (f32_of_Z L) (f32_of_Z H))) = Ok (Spec.output_length H L).
Proof.
  intros HL HH. unfold Spec.output_length.
  destruct (Z.eq_dec L 0) as [-> | Hnz].
  - rewrite seq_len_zero by exact HH. f_equal.
  - destruct (seq_len_positive L H) as [rL [rH [rq [HrL [HrH [Hrq Heq]]]]]].
    { split; [lia |]. apply Z.le_trans with (2 ^ 24)%Z; [lia | discriminate]. }
    { exact HH. }
    rewrite Heq. f_equal.
    pose proof (rounds_to_small_Z L rL ltac:(lia) HrL) as HLeq.
    pose proof (inject_Z_pos_lt H ltac:(lia)) as HHq.
    pose proof (inject_Z_pos_lt L ltac:(lia)) as HLq.
    destruct (Z.le_gt_cases H (2 ^ 24)) as [Hsmall | Hbig].
    + pose proof (rounds_to_small_Z H rH ltac:(lia) HrH) as HHeq.
      apply round_quotient_ceiling; [lia | lia |].
      refine (rounds_to_comp _ _ _ _ _ (Qeq_refl rq) Hrq).
      rewrite HLeq, HHeq. reflexivity.
    + assert (H24 : inject_Z (2 ^ 24) <= rH).
      { apply (rounds_to_mono (inject_Z (2 ^ 24)) (inject_Z H) _ _); [| exact HrH |].
        - apply rounds_to_small_Z_intro. lia.
        - rewrite <- Zle_Qle. lia. }
      assert (HL24 : inject_Z L <= inject_Z (2 ^ 24)) by (rewrite <- Zle_Qle; lia).
      assert (HrHpos : 0 < rH) by exact (rounds_to_pos _ _ HrH).
      assert (Hv1 : rL / rH <= 1).
      { apply Qle_shift_div_r; [exact HrHpos |]. lra. }
      assert (Hrq1 : rq <= 1).
      { apply (rounds_to_mono _ 1 _ 1 Hrq); [| exact Hv1].
        exact (rounds_to_small_Z_intro 1 ltac:(lia)). }
      pose proof (rounds_to_pos _ _ Hrq) as Hrq0.
      rewrite (Qceiling_unique rq 1); [| exact Hrq0 | exact Hrq1].
      symmetry. apply Qceiling_unique.
      * change (inject_Z (1 - 1)) with 0. apply Qlt_shift_div_l; lra.
      * apply Qle_shift_div_r; [exact HHq |].
        change (inject_Z 1) with 1. rewrite Qmult_1_l, <- Zle_Qle. lia.
Qed.

Lemma seq_len_mono L1 L2 H :
  (0 <= L1 <= L2)%Z -> (L2 <= 2 ^ 62)%Z -> (0 < H < 2 ^ 63)%Z ->
  exists n1 n2,
    to_long1 (ceil1 (SFdiv 24 128 (f32_of_Z L1) (f32_of_Z H))) = Ok n1
    /\ to_long1 (ceil1 (SFdiv 24 128 (f32_of_Z L2) (f32_of_Z H))) = Ok n2
    /\ (n1 <= n2)%Z.
Proof.
  intros HL1 HL2 HH.
  assert (Hpos2 : forall L, (0 < L <= 2 ^ 62)%Z ->
            exists n, to_long1 (ceil1 (SFdiv 24 128 (f32_of_Z L) (f32_of_Z H))) = Ok n
                      /\ (0 < n)%Z).
  { intros L HL. destruct (seq_len_positive L H HL HH) as [rL [rH [rq [_ [_ [Hrq Heq]]]]]].
    exists (Qceiling rq). split; [exact Heq |].
    pose proof (rounds_to_pos _ _ Hrq) as H0. pose proof (Qle_ceiling rq) as H1.
    rewrite Zlt_Qlt. change (inject_Z 0) with 0. lra. }
  destruct (Z.eq_dec L1 0) as [-> | Hnz1].
  - destruct (Z.eq_dec L2 0) as [-> | Hnz2].
    + exists 0%Z, 0%Z. rewrite seq_len_zero by exact HH. repeat split; lia.
    + destruct (Hpos2 L2 ltac:(lia)) as [n2 [Hn2 Hp2]].
      exists 0%Z, n2. rewrite seq_len_zero by exact HH. repeat split; [exact Hn2 | lia].
  - destruct (seq_len_positive L1 H ltac:(lia) HH)
      as [rL1 [rH1 [rq1 [HrL1 [HrH1 [Hrq1 Heq1]]]]]].
    destruct (seq_len_positive L2 H ltac:(lia) HH)
      as [rL2 [rH2 [rq2 [HrL2 [HrH2 [Hrq2 Heq2]]]]]].
    exists (Qceiling rq1), (Qceiling rq2).
    split; [exact Heq1 |]. split; [exact Heq2 |].
    apply Qceiling_resp_le.
    apply (rounds_to_mono _ _ _ _ Hrq1 Hrq2).
    pose proof (rounds_to_unique _ _ _ HrH1 HrH2) as HrH.
    pose proof (rounds_to_pos _ _ HrH2) as HrHpos.
    assert (HrL : rL1 <= rL2).
    { apply (rounds_to_mono _ _ _ _ HrL1 HrL2). rewrite <- Zle_Qle. lia. }
    rewrite HrH. apply Qmult_le_compat_r; [exact HrL |].
    apply Qlt_le_weak, Qinv_lt_0_compat, HrHpos.
Qed.

Lemma get_seq_len_float (self : AudioPreprocessor.t) (hop : Z) (ls : list Z) (g : Z -> Z) :
  AudioPreprocessor.hop_length self = Some (PyInt hop) ->
  (forall L, In L ls ->
     to_long1 (ceil1 (SFdiv 24 128 (f32_of_Z L) (f32_of_Z hop))) = Ok (g L)) ->
  AudioPreprocessor.get_seq_len self (float ls) = Ok (map g ls).
Proof.
  intros Hhop Hall. unfold AudioPreprocessor.get_seq_len. rewrite Hhop.
  unfold to_long, ceil, div, float. cbn [scalar].
  induction ls as [| L ls IH]; cbn [map result_mapM].
  - reflexivity.
  - rewrite (Hall L) by (left; reflexivity). cbn [result_bind].
    rewrite IH by (intros L' HL'; apply Hall; right; exact HL'). reflexivity.
Qed.

End Binary32.

(** ** The output lengths *)

Lemma ceiling_is_not_truncation (hop l : Z) :
  0 < hop ->
  Spec.output_length hop l = l / hop + (if l mod hop =? 0 then 0 else 1).
Proof.
  intros Hhop. rewrite output_length_Z by exact Hhop.
  pose proof (Z.div_mod l hop ltac:(lia)) as Hdm.
  pose proof (Z.mod_pos_bound l hop Hhop) as Hr.
  destruct (Z.eqb_spec (l mod hop) 0) as [Hz | Hnz].
  - rewrite <- (Z.div_unique (- l) hop (- (l / hop)) 0); lia.
  - rewrite <- (Z.div_unique (- l) hop (- (l / hop) - 1) (hop - l mod hop)); lia.
Qed.

(** C1 (as amended).  For lengths between 0 and [2^24], the integers
    binary32 holds exactly, and a hop length that is a positive 64-bit
    integer, [forward] returns the features together with
    [output_length[i] = ceil(length[i] / hop_length)]: the lengths are
    converted to float32, divided, rounded up and cast to 64-bit integers,
    and the result is the exact ceiling, one more than the truncated
    quotient whenever the division leaves a remainder. *)
Theorem forward_output_lengths
  (W : Type) (self : AudioPreprocessor.Plain (Run W)) (hop : Z)
  (input_signal : Tensor2) (length : list Z) (w : W) :
  AudioPreprocessor.hop_length (AudioPreprocessor.plain_base self) = Some (PyInt hop) ->
  0 < hop < 2 ^ 63 ->
  Forall (fun l => 0 <= l <= 2 ^ 24) length ->
  AudioPreprocessor.get_seq_len (AudioPreprocessor.plain_base self) (float length)
  = Ok (map (Spec.output_length hop) length)
  /\ AudioPreprocessor.forward (M := Run W) self input_signal length w
     = (processed_signal <- AudioPreprocessor.plain_get_features self input_signal length ;;
        ret (processed_signal, map (Spec.output_length hop) length)) w
  /\ (forall l, Spec.output_length hop l = l / hop + (if l mod hop =? 0 then 0 else 1)).
Proof.
  intros Hhop Hrange Hlen.
  assert (Hseq : AudioPreprocessor.get_seq_len (AudioPreprocessor.plain_base self)
                   (float length) = Ok (map (Spec.output_length hop) length)).
  { apply (get_seq_len_float _ hop); [exact Hhop |].
    intros L HL. apply seq_len_exact; [| exact Hrange].
    rewrite Forall_forall in Hlen. exact (Hlen L HL). }
  split; [exact Hseq |]. split.
  - unfold AudioPreprocessor.forward.
    cbn [bind ret lift Run_Effect AudioPreprocessor.get_features
         AudioPreprocessor.get_seq_len_method AudioPreprocessor.Plain_Methods].
    destruct (AudioPreprocessor.plain_get_features self input_signal length w)
      as [[sig w'] | e |]; try reflexivity.
    rewrite Hseq. reflexivity.
  - intros l. apply ceiling_is_not_truncation. lia.
Qed.

(** C2.  For a fixed hop length (a positive 64-bit integer) and lengths
    [0 <= L1 <= L2] (up to [2^62]), [get_seq_len] returns a length for
    each, and the one for [L1] is at most the one for [L2]. *)
Theorem get_seq_len_monotone (self : AudioPreprocessor.t) (hop L1 L2 : Z) :
  AudioPreprocessor.hop_length self = Some (PyInt hop) ->
  0 < hop < 2 ^ 63 ->
  0 <= L1 <= L2 ->
  L2 <= 2 ^ 62 ->
  exists n1 n2,
    AudioPreprocessor.get_seq_len self (float [L1]) = Ok [n1]
    /\ AudioPreprocessor.get_seq_len self (float [L2]) = Ok [n2]
    /\ n1 <= n2.
Proof.
  intros Hhop Hrange HL Hmax.
  destruct (seq_len_mono L1 L2 hop HL Hmax Hrange) as [n1 [n2 [H1 [H2 Hle]]]].
  exists n1, n2. repeat split; [| | exact Hle].
  - apply (get_seq_len_float self hop [L1] (fun _ => n1) Hhop).
    intros L [<- | []]. exact H1.
  - apply (get_seq_len_float self hop [L2] (fun _ => n2) Hhop).
    intros L [<- | []]. exact H2.
Qed.

Section OutputLengthExamples.

Lemma forward_at_16777217 :
  AudioPreprocessor.forward (M := Run unit) (Instances.with_hop 1) [] [16777217] tt
  = Ok (([[]], [16777216]), tt).
Proof. vm_compute. reflexivity. Qed.

(** C1, counterexample: the length [2^24 + 1 = 16777217] is not a binary32
    number; [.float()] turns it into [16777216.0], and with hop length 1
    the output length is 16777216, not [ceil(16777217 / 1)]. *)
Lemma output_lengths_are_exact_fails : ~ Spec.output_lengths_are_exact.
Proof.
  intros Hclaim.
  specialize (Hclaim unit (Instances.with_hop 1) 1 [] [16777217] tt tt [[]] eq_refl).
  rewrite forward_at_16777217 in Hclaim.
  assert (Hout : Spec.output_length 1 16777217 = 16777217) by (vm_compute; reflexivity).
  cbn [map] in Hclaim. rewrite Hout in Hclaim.
  assert (Heq : Ok (A := Tensor3 * list Z * unit) ([[]], [16777216], tt)
                = Ok ([[]], [16777217], tt)).
  { apply Hclaim; [split; [lia | reflexivity] | | reflexivity].
    constructor; [split; [lia | reflexivity] | constructor]. }
  discriminate Heq.
Qed.

Lemma forward_output_lengths_witness :
  AudioPreprocessor.get_seq_len
    (AudioPreprocessor.__init__ None (Some (PyInt 160))) (float [16000; 16001; 0])
  = Ok (map (Spec.output_length 160) [16000; 16001; 0]).
Proof.
  apply (proj1 (forward_output_lengths unit
                  (Instances.with_hop 160) 160 [] [16000; 16001; 0] tt eq_refl
                  ltac:(split; [lia | reflexivity])
                  ltac:(repeat constructor; discriminate))).
Defined.

Lemma get_seq_len_monotone_witness :
  exists n1 n2,
    AudioPreprocessor.get_seq_len
      (AudioPreprocessor.__init__ None (Some (PyInt 160))) (float [16777217]) = Ok [n1]
    /\ AudioPreprocessor.get_seq_len
         (AudioPreprocessor.__init__ None (Some (PyInt 160))) (float [4611686018427387904])
       = Ok [n2]
    /\ n1 <= n2.
Proof.
  apply (get_seq_len_monotone (AudioPreprocessor.__init__ None (Some (PyInt 160)))
           160 16777217 4611686018427387904 eq_refl
           ltac:(split; [lia | reflexivity])
           ltac:(lia)
           ltac:(discriminate)).
Defined.

End OutputLengthExamples.

(** ** Further properties of the code *)

(** X1.  [__init__] of [AudioToMelSpectrogramPreprocessor] initialises the
    base class before it converts the durations: the attributes
    [win_length] and [hop_length] of a constructed instance are the sample
    counts as the caller passed them ([None] by default), not the converted
    ones.  On a default instance the inherited formula of
    [AudioPreprocessor.get_seq_len] would therefore raise [TypeError]; the
    override that calls the featurizer is what [forward] uses. *)
Theorem base_class_gets_arguments_as_passed :
  forall M (F : FilterbankFeatures.API M) (a : AudioToMelSpectrogramPreprocessor.Args),
    match AudioToMelSpectrogramPreprocessor.__init__ a with
    | Ok self =>
        AudioToMelSpectrogramPreprocessor.base self
        = AudioPreprocessor.__init__
            (AudioToMelSpectrogramPreprocessor.n_window_size a)
            (AudioToMelSpectrogramPreprocessor.n_window_stride a)
        /\ AudioToMelSpectrogramPreprocessor._sample_rate self
           = AudioToMelSpectrogramPreprocessor.sample_rate a
        /\ (AudioToMelSpectrogramPreprocessor.n_window_stride a = None ->
            forall length,
              AudioPreprocessor.get_seq_len
                (AudioToMelSpectrogramPreprocessor.base self) length
              = Raise (TypeError
                         "unsupported operand type(s) for /: 'Tensor' and 'NoneType'"))
    | _ => True
    end.
Proof.
  intros M F a.
  unfold AudioToMelSpectrogramPreprocessor.__init__.
  destruct (truthy (AudioToMelSpectrogramPreprocessor.window_size a)
            && truthy (AudioToMelSpectrogramPreprocessor.n_window_size a)); [exact I |].
  destruct (truthy (AudioToMelSpectrogramPreprocessor.window_stride a)
            && truthy (AudioToMelSpectrogramPreprocessor.n_window_stride a)); [exact I |].
  unfold AudioToMelSpectrogramPreprocessor.construct.
  cbn [bind ret result_Effect result_bind].
  destruct (AudioToMelSpectrogramPreprocessor.samples_of
              (AudioToMelSpectrogramPreprocessor.window_size a) _ _)
    as [size | |]; cbn [result_bind]; try exact I.
  destruct (AudioToMelSpectrogramPreprocessor.samples_of
              (AudioToMelSpectrogramPreprocessor.window_stride a) _ _)
    as [stride | |]; cbn [result_bind]; try exact I.
  destruct (FilterbankFeatures.__init__ _) as [featurizer | |];
    cbn [result_bind]; try exact I.
  cbn [AudioToMelSpectrogramPreprocessor.base AudioToMelSpectrogramPreprocessor._sample_rate].
  split; [reflexivity |]. split; [reflexivity |].
  intros Hnone length. unfold AudioPreprocessor.get_seq_len, AudioPreprocessor.__init__.
  cbn [AudioPreprocessor.hop_length]. rewrite Hnone. reflexivity.
Qed.

(** X2.  For every positive length up to [2^62] and every hop length that
    is a positive 64-bit integer, [get_seq_len] returns the ceiling of the
    quotient as binary32 computes it: length and hop length are rounded to
    24 significant bits, and so is the quotient of the rounded values. *)
Theorem get_seq_len_is_rounded_ceiling (self : AudioPreprocessor.t) (hop L : Z) :
  AudioPreprocessor.hop_length self = Some (PyInt hop) ->
  0 < hop < 2 ^ 63 ->
  0 < L <= 2 ^ 62 ->
  exists rL rH rq : Q,
    Rounding.rounds_to (inject_Z L) rL
    /\ Rounding.rounds_to (inject_Z hop) rH
    /\ Rounding.rounds_to (rL / rH)%Q rq
    /\ AudioPreprocessor.get_seq_len self (float [L]) = Ok [Qceiling rq].
Proof.
  intros Hhop Hrange HL.
  destruct (seq_len_positive L hop HL Hrange) as [rL [rH [rq [H1 [H2 [H3 H4]]]]]].
  exists rL, rH, rq. repeat split; try assumption.
  apply (get_seq_len_float self hop [L] (fun _ => Qceiling rq) Hhop).
  intros L' [<- | []]. exact H4.
Qed.

Lemma get_seq_len_is_rounded_ceiling_witness :
  exists rL rH rq : Q,
    Rounding.rounds_to (inject_Z 16777217) rL
    /\ Rounding.rounds_to (inject_Z 1) rH
    /\ Rounding.rounds_to (rL / rH)%Q rq
    /\ AudioPreprocessor.get_seq_len
         (AudioPreprocessor.__init__ None (Some (PyInt 1))) (float [16777217])
       = Ok [Qceiling rq].
Proof.
  apply (get_seq_len_is_rounded_ceiling
           (AudioPreprocessor.__init__ None (Some (PyInt 1))) 1 16777217 eq_refl
           ltac:(split; [lia | reflexivity])
           ltac:(split; [lia | discriminate])).
Defined.

(** ** The batch of output lengths *)

Section Batch.

Lemma result_mapM_length {A B} (f : A -> result B) (l : list A) :
  forall l', result_mapM f l = Ok l' -> List.length l' = List.length l.
Proof.
  induction l as [| x l IH]; intros l' Hl; cbn [result_mapM] in Hl.
  - injection Hl as <-. reflexivity.
  - destruct (f x) as [y | e |]; cbn [result_bind] in Hl; try discriminate.
    destruct (result_mapM f l) as [ys | e |]; cbn [result_bind] in Hl; try discriminate.
    injection Hl as <-. cbn [List.length]. rewrite (IH ys eq_refl). reflexivity.
Qed.

Lemma result_mapM_never_raises {A B} (f : A -> result B) (l : list A) :
  (forall x e, f x <> Raise e) -> forall e, result_mapM f l <> Raise e.
Proof.
  intros Hf. induction l as [| x l IH]; intros e; cbn [result_mapM].
  - discriminate.
  - destruct (f x) as [y | e' |] eqn:Hx; cbn [result_bind].
    + destruct (result_mapM f l) as [ys | e' |] eqn:Hl; cbn [result_bind];
        try discriminate.
      exfalso. exact (IH e' eq_refl).
    + exfalso. exact (Hf x e' Hx).
    + discriminate.
Qed.

(** The cast of a float to a 64-bit integer raises nothing, whatever the
    float. *)
Lemma to_long1_never_raises (x : float32) (e : exn) : to_long1 x <> Raise e.
Proof.
  unfold to_long1. destruct x as [s | s | | s m ex]; try discriminate.
  destruct ((- 2 ^ 63 <=? cond_Zopp s (Z.shiftl (Z.pos m) ex))
            && (cond_Zopp s (Z.shiftl (Z.pos m) ex) <? 2 ^ 63)); discriminate.
Qed.

Lemma get_seq_len_shape (self : AudioPreprocessor.t) (h : pynum) (length : Tensor1) :
  AudioPreprocessor.hop_length self = Some h ->
  (forall e, AudioPreprocessor.get_seq_len self length <> Raise e)
  /\ (forall lens, AudioPreprocessor.get_seq_len self length = Ok lens ->
        List.length lens = List.length length).
Proof.
  intros Hh. unfold AudioPreprocessor.get_seq_len. rewrite Hh. unfold to_long. split.
  - apply result_mapM_never_raises. exact to_long1_never_raises.
  - intros lens Hl. apply result_mapM_length in Hl.
    rewrite Hl. unfold ceil, div. rewrite !length_map. reflexivity.
Qed.

End Batch.

(** X3.  On an instance that inherits [get_seq_len] and whose hop length
    is a number (a 64-bit integer, zero and the negative ones included),
    [forward] raises only what [get_features] raises: the conversion, the
    division, the ceiling and the cast raise nothing.  When [forward]
    returns, the features and the final state are those of
    [get_features], the lengths are what [get_seq_len] returns for the
    converted lengths, and there is one output length for every item of
    the batch. *)
Theorem forward_returns_one_length_per_item
  (W : Type) (self : AudioPreprocessor.Plain (Run W)) (hop : Z)
  (input_signal : Tensor2) (length : list Z) (w : W) :
  AudioPreprocessor.hop_length (AudioPreprocessor.plain_base self) = Some (PyInt hop) ->
  - 2 ^ 63 <= hop < 2 ^ 63 ->
  match AudioPreprocessor.forward (M := Run W) self input_signal length w with
  | Ok (processed_signal, processed_length, w') =>
      AudioPreprocessor.plain_get_features self input_signal length w
      = Ok (processed_signal, w')
      /\ AudioPreprocessor.get_seq_len (AudioPreprocessor.plain_base self) (float length)
         = Ok processed_length
      /\ List.length processed_length = List.length length
  | Raise e =>
      AudioPreprocessor.plain_get_features self input_signal length w = Raise e
  | Unspecified => True
  end.
Proof.
  intros Hhop _.
  destruct (get_seq_len_shape (AudioPreprocessor.plain_base self) (PyInt hop)
              (float length) Hhop) as [Hnever Hshape].
  unfold AudioPreprocessor.forward.
  cbn [bind ret lift Run_Effect AudioPreprocessor.get_features
       AudioPreprocessor.get_seq_len_method AudioPreprocessor.Plain_Methods].
  destruct (AudioPreprocessor.plain_get_features self input_signal length w)
    as [[sig w'] | e |]; try reflexivity.
  destruct (AudioPreprocessor.get_seq_len (AudioPreprocessor.plain_base self) (float length))
    as [lens | e |] eqn:Hlen; cbn [result_bind].
  - split; [reflexivity |]. split; [reflexivity |].
    rewrite (Hshape lens eq_refl). unfold float. apply length_map.
  - exfalso. exact (Hnever e eq_refl).
  - exact I.
Qed.

Lemma forward_returns_one_length_per_item_witness :
  match AudioPreprocessor.forward (M := Run unit) (Instances.with_hop 160)
          [[f32_of_Z 1]] [16000; 320] tt with
  | Ok (processed_signal, processed_length, w') =>
      AudioPreprocessor.plain_get_features (Instances.with_hop 160)
        [[f32_of_Z 1]] [16000; 320] tt
      = Ok (processed_signal, w')
      /\ AudioPreprocessor.get_seq_len
           (AudioPreprocessor.plain_base (Instances.with_hop 160)) (float [16000; 320])
         = Ok processed_length
      /\ List.length processed_length = List.length [16000; 320]
  | Raise e =>
      AudioPreprocessor.plain_get_features (Instances.with_hop 160)
        [[f32_of_Z 1]] [16000; 320] tt = Raise e
  | Unspecified => True
  end.
Proof.
  apply (forward_returns_one_length_per_item unit (Instances.with_hop 160) 160
           [[f32_of_Z 1]] [16000; 320] tt eq_refl).
  split; [discriminate | reflexivity].
Defined.

(** ** A hop length of zero *)

Lemma div_by_zero_cast (x : float32) (s : bool) :
  to_long1 (ceil1 (SFdiv 24 128 x (S754_zero s))) = Unspecified.
Proof. destruct x as [sx | sx | | sx m e]; reflexivity. Qed.

Lemma scalar_falsy (h : pynum) :
  truthy (Some h) = false -> exists s, scalar h = S754_zero s.
Proof.
  destruct h as [z | f]; cbn [truthy scalar].
  - intros Hz. apply negb_false_iff, Z.eqb_eq in Hz. subst z. exists false. reflexivity.
  - destruct f as [s | s | | s m e]; try discriminate. intros _. exists s. reflexivity.
Qed.

(** X4.  With a hop length of zero ([0], [0.0] or [-0.0])
    [get_seq_len] raises no [ZeroDivisionError]: the float32 division
    gives an infinity or NaN for every element, whatever its value, which
    the ceiling leaves alone and whose cast to a 64-bit integer is
    unspecified.  Only the empty batch has a defined result, the empty
    batch. *)
Theorem zero_hop_length_is_unspecified
  (self : AudioPreprocessor.t) (h : pynum) (x : float32) (length : Tensor1) :
  AudioPreprocessor.hop_length self = Some h ->
  truthy (Some h) = false ->
  AudioPreprocessor.get_seq_len self [] = Ok []
  /\ AudioPreprocessor.get_seq_len self (x :: length) = Unspecified.
Proof.
  intros Hh Hz. destruct (scalar_falsy h Hz) as [s Hs].
  unfold AudioPreprocessor.get_seq_len. rewrite Hh. split; [reflexivity |].
  unfold to_long, ceil, div. cbn [map result_mapM].
  rewrite Hs, div_by_zero_cast. reflexivity.
Qed.

Lemma zero_hop_length_is_unspecified_witness :
  AudioPreprocessor.get_seq_len (AudioPreprocessor.__init__ None (Some (PyInt 0))) []
  = Ok []
  /\ AudioPreprocessor.get_seq_len (AudioPreprocessor.__init__ None (Some (PyInt 0)))
       (f32_of_Z 16000 :: float [320])
     = Unspecified.
Proof.
  apply (zero_hop_length_is_unspecified
           (AudioPreprocessor.__init__ None (Some (PyInt 0))) (PyInt 0)
           (f32_of_Z 16000) (float [320]) eq_refl eq_refl).
Defined.

(** ** How far the output length is from the exact quotient *)

Section FrameCounts.

Import Rounding.

Local Open Scope Q_scope.

(** Rounding to 24 bits moves a value by at most the fraction [2^-24] of
    it. *)
Lemma rounds_to_error v r :
  rounds_to v r -> v * (1 - (1 # 16777216)) <= r /\ r <= v * (1 + (1 # 16777216)).
Proof.
  intros [k [[Hl Hu] Hr]].
  pose proof (pow2_pos (k - 24)) as Hp.
  pose proof (rhe_near (v / pow2 (k - 24))) as [Hn1 Hn2].
  unfold round_at in Hr.
  set (z := inject_Z (rhe (v / pow2 (k - 24)))) in *.
  assert (Hv : v == v / pow2 (k - 24) * pow2 (k - 24)) by (field; apply pow2_neq_0).
  set (u := v / pow2 (k - 24)) in *.
  assert (Hlow : inject_Z (2 ^ 23) * pow2 (k - 24) <= v).
  { rewrite <- pow2_on_grid_low. exact Hl. }
  change (inject_Z (2 ^ 23)) with (8388608 # 1) in Hlow.
  assert (Hu23 : (8388608 # 1) <= u).
  { apply (Qmult_le_r _ _ (pow2 (k - 24))); [exact Hp |]. rewrite <- Hv. exact Hlow. }
  assert (H1 : (z - u) * pow2 (k - 24) <= (1 # 2) * pow2 (k - 24)).
  { apply Qmult_le_compat_r; lra. }
  assert (H2 : - (1 # 2) * pow2 (k - 24) <= (z - u) * pow2 (k - 24)).
  { apply Qmult_le_compat_r; lra. }
  assert (H3 : (1 # 2) * pow2 (k - 24) <= (u * (1 # 16777216)) * pow2 (k - 24)).
  { apply Qmult_le_compat_r; lra. }
  rewrite Hr. split.
  - setoid_replace (v * (1 - (1 # 16777216)))
      with (u * pow2 (k - 24) - u * (1 # 16777216) * pow2 (k - 24)).
    + lra.
    + rewrite Hv at 1. ring.
  - setoid_replace (v * (1 + (1 # 16777216)))
      with (u * pow2 (k - 24) + u * (1 # 16777216) * pow2 (k - 24)).
    + lra.
    + rewrite Hv at 1. ring.
Qed.

Lemma Qdiv_le_compat a b c d :
  0 <= a -> a <= b -> 0 < c -> c <= d -> a / d <= b / c.
Proof.
  intros Ha Hab Hc Hcd.
  apply Qle_shift_div_l; [exact Hc |].
  assert (Hd : 0 < d) by lra.
  assert (H1 : a / d * c <= a / d * d).
  { rewrite !(Qmult_comm (a / d)). apply Qmult_le_compat_r; [exact Hcd |].
    apply Qle_shift_div_l; lra. }
  assert (H2 : a / d * d == a) by (field; lra).
  lra.
Qed.

(** The three roundings of one element of [get_seq_len] together move the
    quotient by at most the fraction [2^-22] of it. *)
Lemma quotient_error (L H rL rH rq : Q) :
  0 < L -> 0 < H ->
  rounds_to L rL -> rounds_to H rH -> rounds_to (rL / rH) rq ->
  L / H * (1 - (1 # 4194304)) <= rq /\ rq <= L / H * (1 + (1 # 4194304)).
Proof.
  intros HL HH HrL HrH Hrq.
  pose proof (rounds_to_error _ _ HrL) as [HL1 HL2].
  pose proof (rounds_to_error _ _ HrH) as [HH1 HH2].
  pose proof (rounds_to_error _ _ Hrq) as [Hq1 Hq2].
  pose proof (rounds_to_pos _ _ HrL) as HrLpos.
  pose proof (rounds_to_pos _ _ HrH) as HrHpos.
  set (eps := 1 # 16777216) in *.
  assert (Heps : 0 < eps) by reflexivity.
  assert (Heps1 : eps < 1) by reflexivity.
  assert (Hup : rL / rH <= (L * (1 + eps)) / (H * (1 - eps))).
  { apply Qdiv_le_compat; try lra. apply Qmult_lt_0_compat; lra. }
  assert (Hdn : (L * (1 - eps)) / (H * (1 + eps)) <= rL / rH).
  { apply Qdiv_le_compat; try lra.
    apply Qmult_le_0_compat; lra. }
  assert (Hq0 : 0 < L / H) by (apply Qlt_shift_div_l; lra).
  assert (Eup : (L * (1 + eps)) / (H * (1 - eps)) == L / H * ((1 + eps) / (1 - eps))).
  { field. split; lra. }
  assert (Edn : (L * (1 - eps)) / (H * (1 + eps)) == L / H * ((1 - eps) / (1 + eps))).
  { field. split; lra. }
  assert (Hquot0 : 0 <= rL / rH).
  { apply Qle_shift_div_l; lra. }
  split.
  - apply Qle_trans with (rL / rH * (1 - eps)); [| exact Hq1].
    apply Qle_trans with (L / H * ((1 - eps) / (1 + eps)) * (1 - eps)).
    + rewrite <- Qmult_assoc. rewrite !(Qmult_comm (L / H)).
      apply Qmult_le_compat_r; [| lra]. vm_compute. discriminate.
    + apply Qmult_le_compat_r; [| lra]. rewrite <- Edn. exact Hdn.
  - apply Qle_trans with (rL / rH * (1 + eps)); [exact Hq2 |].
    apply Qle_trans with (L / H * ((1 + eps) / (1 - eps)) * (1 + eps)).
    + apply Qmult_le_compat_r; [| lra]. rewrite <- Eup. exact Hup.
    + rewrite <- Qmult_assoc. rewrite !(Qmult_comm (L / H)).
      apply Qmult_le_compat_r; [| lra]. vm_compute. discriminate.
Qed.

End FrameCounts.

(** X5.  For every length from 0 to [2^62] and every hop length that is
    a positive 64-bit integer, [get_seq_len] returns a length; it is 0
    exactly when the input length is 0, and it is 1 for every positive
    length that does not exceed the hop length, also where length and hop
    length are beyond the integers float32 holds exactly. *)
Theorem frame_count_of_short_signals (self : AudioPreprocessor.t) (hop L : Z) :
  AudioPreprocessor.hop_length self = Some (PyInt hop) ->
  0 < hop < 2 ^ 63 ->
  0 <= L <= 2 ^ 62 ->
  exists n,
    AudioPreprocessor.get_seq_len self (float [L]) = Ok [n]
    /\ (n = 0 <-> L = 0)
    /\ (0 < L <= hop -> n = 1).
Proof.
  intros Hhop Hrange HL.
  destruct (Z.eq_dec L 0) as [-> | Hnz].
  - exists 0. split; [| split; [tauto | lia]].
    apply (get_seq_len_float self hop [0] (fun _ => 0) Hhop).
    intros L' [<- | []]. apply seq_len_zero. exact Hrange.
  - destruct (seq_len_positive L hop ltac:(lia) Hrange) as [rL [rH [rq [H1 [H2 [H3 H4]]]]]].
    exists (Qceiling rq). split; [| split].
    + apply (get_seq_len_float self hop [L] (fun _ => Qceiling rq) Hhop).
      intros L' [<- | []]. exact H4.
    + pose proof (rounds_to_pos _ _ H3) as Hpos. pose proof (Qle_ceiling rq) as Hc.
      split; [| lia]. intros H0. rewrite H0 in Hc. change (inject_Z 0) with 0%Q in Hc. lra.
    + intros [_ Hle].
      assert (HrLH : (rL <= rH)%Q).
      { apply (rounds_to_mono _ _ _ _ H1 H2). rewrite <- Zle_Qle. exact Hle. }
      pose proof (rounds_to_pos _ _ H2) as HrHpos.
      assert (Hq1 : (rL / rH <= 1)%Q).
      { apply Qle_shift_div_r; [exact HrHpos | lra]. }
      assert (Hrq1 : (rq <= 1)%Q).
      { apply (rounds_to_mono _ 1 _ 1 H3); [| exact Hq1].
        exact (rounds_to_small_Z_intro 1 ltac:(lia)). }
      pose proof (rounds_to_pos _ _ H3) as Hrq0.
      apply Qceiling_unique; [exact Hrq0 | exact Hrq1].
Qed.

Lemma frame_count_of_short_signals_witness :
  exists n,
    AudioPreprocessor.get_seq_len
      (AudioPreprocessor.__init__ None (Some (PyInt 160))) (float [100]) = Ok [n]
    /\ (n = 0 <-> 100 = 0)
    /\ (0 < 100 <= 160 -> n = 1).
Proof.
  apply (frame_count_of_short_signals
           (AudioPreprocessor.__init__ None (Some (PyInt 160))) 160 100 eq_refl
           ltac:(split; [lia | reflexivity])
           ltac:(split; [lia | discriminate])).
Defined.

(** X6.  For every positive length up to [2^62] and every hop length
    that is a positive 64-bit integer, the length [get_seq_len] returns is
    within the fraction [2^-22] of the exact quotient [L / hop], and less
    than one above that: [L/hop * (1 - 2^-22) <= n < L/hop * (1 + 2^-22) + 1]. *)
Theorem get_seq_len_relative_error (self : AudioPreprocessor.t) (hop L : Z) :
  AudioPreprocessor.hop_length self = Some (PyInt hop) ->
  0 < hop < 2 ^ 63 ->
  0 < L <= 2 ^ 62 ->
  exists n,
    AudioPreprocessor.get_seq_len self (float [L]) = Ok [n]
    /\ (inject_Z L / inject_Z hop * (1 - (1 # 4194304)) <= inject_Z n)%Q
    /\ (inject_Z n < inject_Z L / inject_Z hop * (1 + (1 # 4194304)) + 1)%Q.
Proof.
  intros Hhop Hrange HL.
  destruct (seq_len_positive L hop HL Hrange) as [rL [rH [rq [H1 [H2 [H3 H4]]]]]].
  exists (Qceiling rq). split; [| split].
  - apply (get_seq_len_float self hop [L] (fun _ => Qceiling rq) Hhop).
    intros L' [<- | []]. exact H4.
  - destruct (quotient_error (inject_Z L) (inject_Z hop) rL rH rq) as [Hlow _];
      try assumption; try (apply inject_Z_pos_lt; lia).
    pose proof (Qle_ceiling rq). lra.
  - destruct (quotient_error (inject_Z L) (inject_Z hop) rL rH rq) as [_ Hup];
      try assumption; try (apply inject_Z_pos_lt; lia).
    pose proof (Qceiling_lt rq) as Hc.
    unfold Z.sub in Hc. rewrite inject_Z_plus in Hc.
    change (inject_Z (- (1))) with (- (1))%Q in Hc. lra.
Qed.

Lemma get_seq_len_relative_error_witness :
  exists n,
    AudioPreprocessor.get_seq_len
      (AudioPreprocessor.__init__ None (Some (PyInt 160))) (float [1000000007]) = Ok [n]
    /\ (inject_Z 1000000007 / inject_Z 160 * (1 - (1 # 4194304)) <= inject_Z n)%Q
    /\ (inject_Z n < inject_Z 1000000007 / inject_Z 160 * (1 + (1 # 4194304)) + 1)%Q.
Proof.
  apply (get_seq_len_relative_error
           (AudioPreprocessor.__init__ None (Some (PyInt 160))) 160 1000000007 eq_refl
           ltac:(split; [lia | reflexivity])
           ltac:(split; [lia | discriminate])).
Defined.

(** ** Rounding to nearest at any precision

    The rounding that ends every operation of [SpecFloat], the conversion
    of an integer and the multiplication, for a format of [prec]
    significant bits and exponent bound [emax]; binary64, in which Python
    computes [window_size * sample_rate], is [prec = 53], [emax = 1024]. *)

Section Precision.

Import Rounding.

Local Open Scope Q_scope.

Variables prec emax : Z.

Hypothesis prec_gt_0 : (0 < prec)%Z.
Hypothesis prec_lt_emax : (prec < emax)%Z.

Lemma grid_low k : pow2 (k - 1) == inject_Z (2 ^ (prec - 1)) * pow2 (k - prec).
Proof.
  rewrite <- (pow2_Z (prec - 1)) by lia. rewrite <- pow2_plus.
  replace (prec - 1 + (k - prec))%Z with (k - 1)%Z by lia. reflexivity.
Qed.

Lemma grid_high k : pow2 k == inject_Z (2 ^ prec) * pow2 (k - prec).
Proof.
  rewrite <- (pow2_Z prec) by lia. rewrite <- pow2_plus.
  replace (prec + (k - prec))%Z with k by lia. reflexivity.
Qed.

Lemma round_at_binade_prec k v :
  binade k v -> pow2 (k - 1) <= round_at (k - prec) v /\ round_at (k - prec) v <= pow2 k.
Proof.
  intros [Hl Hu]. split.
  - rewrite (grid_low k) at 1. rewrite <- round_at_grid.
    apply round_at_mono. rewrite <- grid_low. exact Hl.
  - rewrite (grid_high k). rewrite <- round_at_grid.
    apply round_at_mono. rewrite <- grid_high. lra.
Qed.

Lemma rounds_to_prec_pos v r : rounds_to_prec prec v r -> 0 < r.
Proof.
  intros [k [Hk Hr]]. pose proof (round_at_binade_prec k v Hk) as [Hl _].
  pose proof (pow2_pos (k - 1)). lra.
Qed.

Lemma rounds_to_prec_comp v v' r r' :
  v == v' -> r == r' -> rounds_to_prec prec v r -> rounds_to_prec prec v' r'.
Proof.
  intros Hv Hr [k [Hk Hrk]]. exists k. split.
  - exact (binade_comp k v v' Hv Hk).
  - rewrite <- Hr, Hrk. apply round_at_comp, Hv.
Qed.

Lemma rounds_to_prec_mono v1 v2 r1 r2 :
  rounds_to_prec prec v1 r1 -> rounds_to_prec prec v2 r2 -> v1 <= v2 -> r1 <= r2.
Proof.
  intros [k1 [Hk1 Hr1]] [k2 [Hk2 Hr2]] Hle.
  pose proof (binade_mono _ _ _ _ Hk1 Hk2 Hle) as Hk.
  destruct (Z.eq_dec k1 k2) as [-> | Hne].
  - rewrite Hr1, Hr2. apply round_at_mono, Hle.
  - pose proof (round_at_binade_prec k1 v1 Hk1) as [_ Hu].
    pose proof (round_at_binade_prec k2 v2 Hk2) as [Hl _].
    assert (Hp : pow2 k1 <= pow2 (k2 - 1)) by (apply pow2_le; lia).
    rewrite Hr1, Hr2. lra.
Qed.

Lemma rounds_to_prec_grid k n v r :
  binade k v -> v == inject_Z n * pow2 (k - prec) -> rounds_to_prec prec v r -> r == v.
Proof.
  intros Hk Hv [k' [Hk' Hr]].
  rewrite <- (binade_unique k k' v Hk Hk') in Hr.
  rewrite Hr. rewrite (round_at_comp _ _ _ Hv). rewrite round_at_grid. symmetry. exact Hv.
Qed.

Lemma rounds_to_prec_grid_intro k n v :
  binade k v -> v == inject_Z n * pow2 (k - prec) -> rounds_to_prec prec v v.
Proof.
  intros Hk Hv. exists k. split; [exact Hk |].
  rewrite (round_at_comp _ _ _ Hv). rewrite round_at_grid. exact Hv.
Qed.

(** Integers up to [2^prec] are on the grid of their binade. *)
Lemma Z_on_grid z :
  (0 < z <= 2 ^ prec)%Z ->
  exists n, inject_Z z == inject_Z n * pow2 (Z.log2 z + 1 - prec).
Proof.
  intros [Hpos Hle].
  pose proof (Z.log2_spec z Hpos) as [Hl Hu]. pose proof (Z.log2_nonneg z) as Hnn.
  assert (Hlog : (Z.log2 z <= prec)%Z).
  { rewrite <- (Z.log2_pow2 prec) by lia. apply Z.log2_le_mono. lia. }
  destruct (Z.eq_dec (Z.log2 z) prec) as [He | Hne].
  - exists (2 ^ (prec - 1))%Z. rewrite He.
    assert (Hz : z = (2 ^ prec)%Z) by (rewrite He in Hl; lia).
    rewrite Hz. replace (prec + 1 - prec)%Z with 1%Z by lia.
    rewrite <- !pow2_Z by lia. rewrite <- pow2_plus.
    replace (prec - 1 + 1)%Z with prec by lia. reflexivity.
  - exists (z * 2 ^ (prec - 1 - Z.log2 z))%Z.
    rewrite inject_Z_mult. rewrite <- (pow2_Z (prec - 1 - Z.log2 z)) by lia.
    rewrite <- Qmult_assoc, <- pow2_plus.
    replace (prec - 1 - Z.log2 z + (Z.log2 z + 1 - prec))%Z with 0%Z by lia.
    rewrite pow2_0. ring.
Qed.

Lemma rounds_to_prec_Z z r :
  (0 < z <= 2 ^ prec)%Z -> rounds_to_prec prec (inject_Z z) r -> r == inject_Z z.
Proof.
  intros Hz Hr. destruct (Z_on_grid z Hz) as [n Hn].
  apply (rounds_to_prec_grid (Z.log2 z + 1) n); [apply binade_Z; lia | exact Hn | exact Hr].
Qed.

Lemma rounds_to_prec_Z_intro z :
  (0 < z <= 2 ^ prec)%Z -> rounds_to_prec prec (inject_Z z) (inject_Z z).
Proof.
  intros Hz. destruct (Z_on_grid z Hz) as [n Hn].
  apply (rounds_to_prec_grid_intro (Z.log2 z + 1) n); [apply binade_Z; lia | exact Hn].
Qed.

Lemma fexp_prec x : fexp prec emax x = Z.max (x - prec) (3 - emax - prec).
Proof. reflexivity. Qed.

Lemma div_pow2_range_prec m d n :
  (0 <= n)%Z -> (2 ^ (d - 1) <= m < 2 ^ d)%Z -> (d = prec + n)%Z ->
  (2 ^ (prec - 1) <= m / 2 ^ n < 2 ^ prec)%Z.
Proof.
  intros Hn [Hl Hu] Hd. subst d.
  assert (Hp : (0 < 2 ^ n)%Z) by (apply Z.pow_pos_nonneg; lia).
  replace (prec + n - 1)%Z with (prec - 1 + n)%Z in Hl by lia.
  rewrite Z.pow_add_r in Hl, Hu by lia.
  split.
  - apply Z.div_le_lower_bound; lia.
  - apply Z.div_lt_upper_bound; lia.
Qed.

(** A mantissa of at least [prec] digits, with the location of the exact
    value, becomes the nearest float, as long as the result is a normal
    number. *)
Lemma binary_round_aux_prec m e l v :
  (0 < m)%Z ->
  (prec <= Zdigits2 m)%Z ->
  located m l (v / pow2 e) ->
  (3 - emax - prec <= Zdigits2 m + e - prec)%Z ->
  (Zdigits2 m + e < emax)%Z ->
  exists m' e',
    binary_round_aux prec emax false m e l = S754_finite false m' e'
    /\ Zpos (digits2_pos m') = prec
    /\ (Zdigits2 m + e - prec <= e' <= Zdigits2 m + e - prec + 1)%Z
    /\ rounds_to_prec prec v (F2Q m' e').
Proof.
  intros Hm Hd Hloc Hlow Hhigh.
  pose proof (located_binade m e l v Hm Hloc) as Hbin.
  destruct (Zdigits2_bounds m Hm) as [Hmb _].
  set (d := Zdigits2 m) in *.
  set (n := (d - prec)%Z).
  set (e1 := (d + e - prec)%Z).
  unfold binary_round_aux, shr_fexp. fold d. rewrite fexp_prec.
  replace (Z.max (d + e - prec) (3 - emax - prec) - e)%Z with n by (unfold n; lia).
  assert (Hl0 : located (shr_m (shr_record_of_loc m l))
                  (loc_of_shr_record (shr_record_of_loc m l)) (v / pow2 e)).
  { rewrite shr_record_of_loc_m, loc_of_shr_record_of_loc. exact Hloc. }
  assert (Hm0 : (0 <= shr_m (shr_record_of_loc m l))%Z).
  { rewrite shr_record_of_loc_m. lia. }
  destruct (shr_located (shr_record_of_loc m l) e n (v / pow2 e)
              ltac:(unfold n; lia) Hm0 Hl0) as [He1 [Hm1 Hl1]].
  rewrite shr_record_of_loc_m in Hm1.
  destruct (shr (shr_record_of_loc m l) e n) as [mrs1 e1'].
  cbn [fst snd] in He1, Hm1, Hl1.
  subst e1'. replace (e + n)%Z with e1 in * by (unfold e1, n; lia).
  assert (Hu1 : v / pow2 e / pow2 n == v / pow2 e1).
  { unfold e1. replace (d + e - prec)%Z with (e + n)%Z by (unfold n; lia).
    rewrite pow2_plus. field. split; apply pow2_neq_0. }
  apply (located_comp _ _ _ _ Hu1) in Hl1.
  pose proof (div_pow2_range_prec m d n ltac:(unfold n; lia) Hmb ltac:(unfold n; lia)) as Hr1.
  rewrite <- Hm1 in Hr1.
  pose proof (rhe_located _ _ _ Hl1) as Hrhe.
  pose proof (round_nearest_even_range (shr_m mrs1) (loc_of_shr_record mrs1)) as Hr2.
  set (m2 := round_nearest_even (shr_m mrs1) (loc_of_shr_record mrs1)) in *.
  assert (Hround : round_at e1 v == inject_Z m2 * pow2 e1).
  { unfold round_at. rewrite Hrhe. reflexivity. }
  assert (He1k : e1 = (d + e - prec)%Z) by reflexivity.
  assert (Hpp : (0 < 2 ^ (prec - 1))%Z) by (apply Z.pow_pos_nonneg; lia).
  assert (Hdouble : (2 ^ prec = 2 * 2 ^ (prec - 1))%Z).
  { rewrite <- Z.pow_succ_r by lia. f_equal. lia. }
  assert (Hm2pos : (0 < m2)%Z) by lia.
  assert (Hl2 : located (shr_m (shr_record_of_loc m2 loc_Exact))
                  (loc_of_shr_record (shr_record_of_loc m2 loc_Exact)) (inject_Z m2)).
  { cbn [shr_record_of_loc shr_m loc_of_shr_record located]. reflexivity. }
  destruct (Z.eq_dec m2 (2 ^ prec)) as [Htop | Hnot].
  - (* the mantissa was rounded up to [2^prec] *)
    assert (Hd2 : Zdigits2 m2 = (prec + 1)%Z).
    { apply Zdigits2_unique; [| lia]. replace (prec + 1 - 1)%Z with prec by lia.
      rewrite Htop. split; [lia |]. apply Z.pow_lt_mono_r; lia. }
    rewrite Hd2, fexp_prec.
    replace (Z.max (prec + 1 + e1 - prec) (3 - emax - prec) - e1)%Z with 1%Z by lia.
    destruct (shr_located (shr_record_of_loc m2 loc_Exact) e1 1 (inject_Z m2)
                ltac:(lia) ltac:(cbn; lia) Hl2) as [He3 [Hm3 _]].
    destruct (shr (shr_record_of_loc m2 loc_Exact) e1 1) as [mrs3 e3].
    cbn [fst snd] in He3, Hm3. cbn [shr_record_of_loc shr_m] in Hm3.
    assert (Hm3' : shr_m mrs3 = (2 ^ (prec - 1))%Z).
    { rewrite Hm3, Htop, Hdouble. change (2 ^ 1)%Z with 2%Z.
      rewrite Z.mul_comm. apply Z.div_mul. lia. }
    rewrite Hm3'. destruct (2 ^ (prec - 1))%Z as [| p | p] eqn:Hp; try lia.
    exists p, (e1 + 1)%Z. subst e3.
    split; [| split; [| split; [lia |]]].
    + destruct (Z.leb_spec (e1 + 1) (emax - prec)); [reflexivity | lia].
    + change (Zdigits2 (Z.pos p) = prec). apply Zdigits2_unique; lia.
    + exists (d + e)%Z. split; [exact Hbin |].
      rewrite <- He1k, Hround, Htop. unfold F2Q.
      rewrite pow2_plus, pow2_1, Hdouble, inject_Z_mult.
      change (inject_Z 2) with 2. ring.
  - assert (Hd2 : Zdigits2 m2 = prec) by (apply Zdigits2_unique; lia).
    rewrite Hd2, fexp_prec.
    replace (Z.max (prec + e1 - prec) (3 - emax - prec) - e1)%Z with 0%Z by lia.
    cbn [shr shr_record_of_loc shr_m].
    destruct m2 as [| p2 | p2] eqn:Hm2; try lia.
    exists p2, e1.
    split; [| split; [exact Hd2 | split; [lia |]]].
    + destruct (Z.leb_spec e1 (emax - prec)); [reflexivity | lia].
    + exists (d + e)%Z. split; [exact Hbin |].
      rewrite <- He1k, Hround. reflexivity.
Qed.

(** Conversion of a positive integer. *)
Lemma binary_normalize_prec z :
  (0 < z < 2 ^ (emax - 1))%Z ->
  exists m e,
    binary_normalize prec emax z 0 false = S754_finite false m e
    /\ Zpos (digits2_pos m) = prec
    /\ rounds_to_prec prec (inject_Z z) (F2Q m e).
Proof.
  intros [Hpos Hlt].
  pose proof (Zdigits2_log2 z Hpos) as Hdig.
  assert (Hlog : (Z.log2 z < emax - 1)%Z) by (apply Z.log2_lt_pow2; lia).
  pose proof (Z.log2_nonneg z) as Hnn.
  destruct z as [| p | p]; try lia.
  unfold binary_normalize, binary_round.
  destruct (shl_align_spec p 0 (fexp prec emax (Z.pos (digits2_pos p) + 0))) as [He Hm].
  destruct (shl_align p 0 (fexp prec emax (Z.pos (digits2_pos p) + 0))) as [mz ez].
  cbn [fst snd] in He, Hm. cbn [Zdigits2] in Hdig.
  rewrite fexp_prec in He, Hm.
  destruct (digits2_bounds p) as [Hpl Hpu].
  set (d := Z.pos (digits2_pos p)) in *.
  assert (Hez : ez = Z.min 0 (d - prec)) by lia. clear He.
  assert (Hmz : Z.pos mz = (Z.pos p * 2 ^ (- ez))%Z).
  { rewrite Hm. f_equal. f_equal. lia. }
  clear Hm.
  assert (Hdz : Zdigits2 (Z.pos mz) = Z.max d prec).
  { apply Zdigits2_unique; [| lia]. rewrite Hmz.
    destruct (Z.le_ge_cases d prec) as [Hsmall | Hbig].
    - replace (- ez)%Z with (prec - d)%Z by lia. replace (Z.max d prec) with prec by lia.
      assert (Hgl : (2 ^ (prec - 1) = 2 ^ (d - 1) * 2 ^ (prec - d))%Z).
      { rewrite <- Z.pow_add_r by lia. f_equal. lia. }
      assert (Hgh : (2 ^ prec = 2 ^ d * 2 ^ (prec - d))%Z).
      { rewrite <- Z.pow_add_r by lia. f_equal. lia. }
      assert (Hk : (0 < 2 ^ (prec - d))%Z) by (apply Z.pow_pos_nonneg; lia).
      rewrite Hgl, Hgh. split.
      + apply Z.mul_le_mono_nonneg_r; lia.
      + apply Z.mul_lt_mono_pos_r; lia.
    - replace ez with 0%Z by lia. replace (Z.max d prec) with d by lia.
      cbn [Z.opp]. rewrite Z.pow_0_r. lia. }
  assert (Hloc : located (Z.pos mz) loc_Exact (inject_Z (Z.pos p) / pow2 ez)).
  { cbn [located]. rewrite Hmz, inject_Z_mult.
    rewrite <- (pow2_Z (- ez)) by lia.
    assert (Hone : pow2 (- ez) * pow2 ez == 1).
    { rewrite <- pow2_plus. replace (- ez + ez)%Z with 0%Z by lia. reflexivity. }
    pose proof (pow2_neq_0 ez) as Hnz.
    rewrite <- (Qmult_1_r (inject_Z (Z.pos p))) at 1. rewrite <- Hone. field. exact Hnz. }
  destruct (binary_round_aux_prec (Z.pos mz) ez loc_Exact (inject_Z (Z.pos p)))
    as [m' [e' [Heq [Hd' [He' Hr']]]]]; try (rewrite ?Hdz; lia); try exact Hloc.
  exists m', e'. split; [exact Heq |]. split; [exact Hd' | exact Hr'].
Qed.

(** Multiplication of two positive normal numbers rounds the exact
    product, as long as the product is in the normal range. *)
Lemma SFmul_prec mx ex my ey :
  Zpos (digits2_pos mx) = prec ->
  Zpos (digits2_pos my) = prec ->
  pow2 (3 - emax - 1) <= F2Q mx ex * F2Q my ey ->
  F2Q mx ex * F2Q my ey < pow2 (emax - 1) ->
  exists m e,
    SFmul prec emax (S754_finite false mx ex) (S754_finite false my ey)
    = S754_finite false m e
    /\ Zpos (digits2_pos m) = prec
    /\ rounds_to_prec prec (F2Q mx ex * F2Q my ey) (F2Q m e).
Proof.
  intros Hdx Hdy Hlow Hhigh.
  destruct (digits2_bounds mx) as [Hxl Hxu]. destruct (digits2_bounds my) as [Hyl Hyu].
  rewrite Hdx in Hxl, Hxu. rewrite Hdy in Hyl, Hyu.
  cbn [SFmul xorb].
  set (v := F2Q mx ex * F2Q my ey) in *.
  assert (Hloc : located (Z.pos (mx * my)) loc_Exact (v / pow2 (ex + ey))).
  { cbn [located]. unfold v, F2Q. rewrite Pos2Z.inj_mul, inject_Z_mult, pow2_plus.
    field. split; apply pow2_neq_0. }
  pose proof (located_binade _ _ _ _ (Pos2Z.is_pos (mx * my)) Hloc) as Hbin.
  set (k := (Zdigits2 (Z.pos (mx * my)) + (ex + ey))%Z) in *.
  assert (Hk1 : (3 - emax - 1 < k)%Z).
  { destruct Hbin as [_ Hu]. apply pow2_lt_inv. exact (Qle_lt_trans _ _ _ Hlow Hu). }
  assert (Hk2 : (k - 1 < emax - 1)%Z).
  { destruct Hbin as [Hl _]. apply pow2_lt_inv. exact (Qle_lt_trans _ _ _ Hl Hhigh). }
  assert (Hdig : (prec <= Zdigits2 (Z.pos (mx * my)))%Z).
  { assert (Hpp : (0 < 2 ^ (prec - 1))%Z) by (apply Z.pow_pos_nonneg; lia).
    assert (Hprod : (2 ^ (prec - 1) * 1 <= Z.pos mx * Z.pos my)%Z).
    { apply Z.mul_le_mono_nonneg; lia. }
    destruct (Zdigits2_bounds (Z.pos (mx * my)) ltac:(lia)) as [[_ Hu] Hd0].
    pose proof (Pos2Z.inj_mul mx my) as Hmul.
    assert (Hlt : (2 ^ (prec - 1) < 2 ^ Zdigits2 (Z.pos (mx * my)))%Z) by lia.
    apply pow2_Z_lt_inv in Hlt; lia. }
  destruct (binary_round_aux_prec (Z.pos (mx * my)) (ex + ey) loc_Exact v
              ltac:(lia) Hdig Hloc ltac:(fold k; lia) ltac:(fold k; lia))
    as [m' [e' [Heq [Hd' [_ Hr']]]]].
  exists m', e'. split; [exact Heq |]. split; [exact Hd' | exact Hr'].
Qed.

End Precision.

(** ** [int(window_size * sample_rate)] in binary64 *)

Section Binary64.

Import Rounding.
Import AudioToMelSpectrogramPreprocessor.

Local Open Scope Q_scope.

(** [int(x)] of a positive float is the floor of its value. *)
Lemma shiftl_floor m e : Z.shiftl (Zpos m) e = Qfloor (F2Q m e).
Proof.
  destruct (Z.le_ge_cases 0 e) as [Hpos | Hneg].
  - rewrite Z.shiftl_mul_pow2 by exact Hpos.
    rewrite (Qfloor_comp _ _ (F2Q_nonneg_exp m e Hpos)), Qfloor_Z. reflexivity.
  - rewrite Z.shiftl_div_pow2 by lia.
    rewrite (Qfloor_comp _ _ (F2Q_neg_exp m e ltac:(lia))).
    apply Zdiv_Qdiv.
Qed.

Lemma Qfloor_nonneg x : 0 <= x -> (0 <= Qfloor x)%Z.
Proof.
  intros Hx. rewrite <- (Qfloor_Z 0). apply Qfloor_resp_le. exact Hx.
Qed.

(** Truncating a value rounded to 53 bits gives one of the two integers
    around the exact value, as long as that is below [2^53]. *)
Lemma floor_of_rounded x r :
  0 < x -> x < inject_Z (2 ^ 53) ->
  rounds_to_prec 53 x r ->
  (Qfloor x <= Qfloor r <= Qceiling x)%Z.
Proof.
  intros Hx Hlt Hr.
  pose proof (rounds_to_prec_pos 53 eq_refl _ _ Hr) as Hrpos.
  pose proof (Qfloor_le x) as Hfx. pose proof (Qle_ceiling x) as Hcx.
  pose proof (Qfloor_le r) as Hfr.
  split.
  - destruct (Z.eq_dec (Qfloor x) 0) as [-> | Hnz].
    + apply Qfloor_nonneg. lra.
    + assert (Hf0 : (0 <= Qfloor x)%Z) by (apply Qfloor_nonneg; lra).
      assert (Hf53 : (Qfloor x <= 2 ^ 53)%Z).
      { rewrite Zle_Qle. lra. }
      pose proof (rounds_to_prec_Z_intro 53 eq_refl (Qfloor x) ltac:(lia)) as Hself.
      pose proof (rounds_to_prec_mono 53 eq_refl _ _ _ _ Hself Hr Hfx) as Hle.
      rewrite <- (Qfloor_Z (Qfloor x)). apply Qfloor_resp_le. exact Hle.
  - assert (Hc0 : (0 < Qceiling x)%Z).
    { rewrite Zlt_Qlt. change (inject_Z 0) with 0. lra. }
    assert (Hc53 : (Qceiling x <= 2 ^ 53)%Z).
    { rewrite <- (Qceiling_Z (2 ^ 53)). apply Qceiling_resp_le. lra. }
    pose proof (rounds_to_prec_Z_intro 53 eq_refl (Qceiling x) ltac:(lia)) as Hself.
    pose proof (rounds_to_prec_mono 53 eq_refl _ _ _ _ Hr Hself Hcx) as Hle.
    rewrite <- (Qfloor_Z (Qceiling x)). apply Qfloor_resp_le. exact Hle.
Qed.

(** [float(z)] is exact for a positive integer up to [2^53]. *)
Lemma float_of_Z_exact z :
  (0 < z <= 2 ^ 53)%Z ->
  exists m e,
    float_of_Z z = S754_finite false m e
    /\ Zpos (digits2_pos m) = 53%Z
    /\ F2Q m e == inject_Z z.
Proof.
  intros Hz.
  destruct (binary_normalize_prec 53 1024 eq_refl eq_refl z) as [m [e [Heq [Hd Hr]]]].
  { split; [lia |]. apply Z.le_lt_trans with (2 ^ 53)%Z; [lia | reflexivity]. }
  exists m, e. split; [exact Heq |]. split; [exact Hd |].
  exact (rounds_to_prec_Z 53 eq_refl z _ Hz Hr).
Qed.

(** The conversion of a duration that is a positive normal float, at an
    integer sample rate: the exact product is rounded to 53 bits and
    truncated. *)
Lemma samples_of_rounded (md : positive) (ed sample_rate : Z) (n : option pynum) :
  Zpos (digits2_pos md) = 53%Z ->
  (0 < sample_rate <= 2 ^ 53)%Z ->
  pow2 (- 1022) <= F2Q md ed * inject_Z sample_rate ->
  F2Q md ed * inject_Z sample_rate < pow2 1023 ->
  exists r,
    rounds_to_prec 53 (F2Q md ed * inject_Z sample_rate) r
    /\ samples_of (Some (PyFloat (S754_finite false md ed))) (PyInt sample_rate) n
       = Ok (Some (PyInt (Qfloor r))).
Proof.
  intros Hd Hsr Hlow Hhigh.
  destruct (float_of_Z_exact sample_rate Hsr) as [ms [es [Hfs [Hds Hvs]]]].
  destruct (SFmul_prec 53 1024 eq_refl md ed ms es Hd Hds) as [m [e [Hmul [_ Hr]]]].
  { rewrite Hvs. exact Hlow. }
  { rewrite Hvs. exact Hhigh. }
  exists (F2Q m e). split.
  - refine (rounds_to_prec_comp 53 _ _ _ _ _ (Qeq_refl _) Hr). rewrite Hvs. reflexivity.
  - unfold samples_of. cbn [truthy Py.mul bind ret result_Effect].
    unfold float_of_int. rewrite Hfs. cbn [result_bind]. rewrite Hmul.
    cbn [Py.int result_bind cond_Zopp]. rewrite shiftl_floor. reflexivity.
Qed.

End Binary64.

Section Durations.

Import Rounding.
Import AudioToMelSpectrogramPreprocessor.

(** X7.  The statement [n_window_size = int(window_size * self._sample_rate)]
    (and the one for the stride), for a duration that is a positive normal
    float and a sample rate that is a positive integer up to [2^53], with
    the exact product [x] of the two in the normal range and below [2^53]:
    the sample count is an integer between [floor(x)] and [ceil(x)], so it
    is [x] itself whenever [x] is an integer.  ([x] is the product with the
    value of the float, which for a literal such as [0.57] is not the
    decimal number written.) *)
Theorem duration_in_samples (md : positive) (ed sample_rate : Z) (n : option pynum) :
  Zpos (digits2_pos md) = 53 ->
  0 < sample_rate <= 2 ^ 53 ->
  (pow2 (- 1022) <= F2Q md ed * inject_Z sample_rate)%Q ->
  (F2Q md ed * inject_Z sample_rate < inject_Z (2 ^ 53))%Q ->
  exists samples,
    samples_of (Some (PyFloat (S754_finite false md ed))) (PyInt sample_rate) n
    = Ok (Some (PyInt samples))
    /\ Qfloor (F2Q md ed * inject_Z sample_rate) <= samples
       <= Qceiling (F2Q md ed * inject_Z sample_rate)
    /\ (forall k, (F2Q md ed * inject_Z sample_rate == inject_Z k)%Q -> samples = k).
Proof.
  intros Hd Hsr Hlow Hhigh.
  destruct (samples_of_rounded md ed sample_rate n Hd Hsr Hlow) as [r [Hr Heq]].
  { apply Qlt_trans with (inject_Z (2 ^ 53)); [exact Hhigh | reflexivity]. }
  assert (Hpos : (0 < F2Q md ed * inject_Z sample_rate)%Q).
  { apply Qlt_le_trans with (pow2 (- 1022)); [apply pow2_pos | exact Hlow]. }
  pose proof (floor_of_rounded _ _ Hpos Hhigh Hr) as Hbounds.
  exists (Qfloor r). split; [exact Heq |]. split; [exact Hbounds |].
  intros k Hk.
  rewrite (Qfloor_comp _ _ Hk), (Qceiling_comp _ _ Hk), Qfloor_Z, Qceiling_Z in Hbounds.
  lia.
Qed.

Lemma duration_in_samples_witness :
  exists samples,
    samples_of (Some (PyFloat (S754_finite false 5764607523034235 (- 58)))) (PyInt 16000) None
    = Ok (Some (PyInt samples))
    /\ Qfloor (F2Q 5764607523034235 (- 58) * inject_Z 16000) <= samples
       <= Qceiling (F2Q 5764607523034235 (- 58) * inject_Z 16000)
    /\ (forall k, (F2Q 5764607523034235 (- 58) * inject_Z 16000 == inject_Z k)%Q
                  -> samples = k).
Proof.
  apply (duration_in_samples 5764607523034235 (- 58) 16000 None eq_refl).
  - split; [reflexivity | discriminate].
  - vm_compute. discriminate.
  - vm_compute. reflexivity.
Defined.

(** X8.  The conversion is monotone in the duration: of two durations
    that are positive normal floats, converted at the same sample rate (a
    positive integer up to [2^53], the products in the normal range), the
    longer one never gives fewer samples, and neither count is negative. *)
Theorem longer_duration_more_samples
  (md1 md2 : positive) (ed1 ed2 sample_rate : Z) (n1 n2 : option pynum) :
  Zpos (digits2_pos md1) = 53 ->
  Zpos (digits2_pos md2) = 53 ->
  0 < sample_rate <= 2 ^ 53 ->
  (pow2 (- 1022) <= F2Q md1 ed1 * inject_Z sample_rate)%Q ->
  (F2Q md1 ed1 <= F2Q md2 ed2)%Q ->
  (F2Q md2 ed2 * inject_Z sample_rate < pow2 1023)%Q ->
  exists samples1 samples2,
    samples_of (Some (PyFloat (S754_finite false md1 ed1))) (PyInt sample_rate) n1
    = Ok (Some (PyInt samples1))
    /\ samples_of (Some (PyFloat (S754_finite false md2 ed2))) (PyInt sample_rate) n2
       = Ok (Some (PyInt samples2))
    /\ 0 <= samples1 <= samples2.
Proof.
  intros Hd1 Hd2 Hsr Hlow Hle Hhigh.
  assert (Hrate : (0 < inject_Z sample_rate)%Q) by (apply inject_Z_pos_lt; lia).
  assert (Hprod : (F2Q md1 ed1 * inject_Z sample_rate
                   <= F2Q md2 ed2 * inject_Z sample_rate)%Q).
  { apply Qmult_le_compat_r; [exact Hle | apply Qlt_le_weak, Hrate]. }
  destruct (samples_of_rounded md1 ed1 sample_rate n1 Hd1 Hsr Hlow) as [r1 [Hr1 Heq1]].
  { exact (Qle_lt_trans _ _ _ Hprod Hhigh). }
  destruct (samples_of_rounded md2 ed2 sample_rate n2 Hd2 Hsr) as [r2 [Hr2 Heq2]].
  { exact (Qle_trans _ _ _ Hlow Hprod). }
  { exact Hhigh. }
  exists (Qfloor r1), (Qfloor r2). split; [exact Heq1 |]. split; [exact Heq2 |].
  split.
  - apply Qfloor_nonneg, Qlt_le_weak. exact (rounds_to_prec_pos 53 eq_refl _ _ Hr1).
  - apply Qfloor_resp_le. exact (rounds_to_prec_mono 53 eq_refl _ _ _ _ Hr1 Hr2 Hprod).
Qed.

Lemma longer_duration_more_samples_witness :
  exists samples1 samples2,
    samples_of (Some (PyFloat (S754_finite false 5764607523034235 (- 59)))) (PyInt 16000) None
    = Ok (Some (PyInt samples1))
    /\ samples_of (Some (PyFloat (S754_finite false 5764607523034235 (- 58)))) (PyInt 16000)
         None
       = Ok (Some (PyInt samples2))
    /\ 0 <= samples1 <= samples2.
Proof.
  apply (longer_duration_more_samples 5764607523034235 5764607523034235 (- 59) (- 58)
           16000 None None eq_refl eq_refl).
  - split; [reflexivity | discriminate].
  - vm_compute. discriminate.
  - vm_compute. discriminate.
  - vm_compute. reflexivity.
Defined.

End Durations.

(** ** Durations that cannot be converted, and durations that are not given *)

Section DurationErrors.

Import AudioToMelSpectrogramPreprocessor.

Context {M : Type -> Type} {E : Effect M} {F : FilterbankFeatures.API M}.

Lemma samples_of_nan (sr : Z) (n : option pynum) :
  0 < sr <= 2 ^ 53 ->
  samples_of (Some (PyFloat S754_nan)) (PyInt sr) n
  = Raise (ValueError "cannot convert float NaN to integer").
Proof.
  intros Hsr. destruct (float_of_Z_exact sr Hsr) as [m [e [Hf _]]].
  unfold samples_of. cbn [truthy Py.mul bind ret result_Effect].
  unfold float_of_int. rewrite Hf. reflexivity.
Qed.

Lemma samples_of_infinity (s : bool) (sr : Z) (n : option pynum) :
  0 < sr <= 2 ^ 53 ->
  samples_of (Some (PyFloat (S754_infinity s))) (PyInt sr) n
  = Raise (OverflowError "cannot convert float infinity to integer").
Proof.
  intros Hsr. destruct (float_of_Z_exact sr Hsr) as [m [e [Hf _]]].
  unfold samples_of. cbn [truthy Py.mul bind ret result_Effect].
  unfold float_of_int. rewrite Hf. reflexivity.
Qed.

(** X9.  A duration that is NaN or infinite is truthy, so it passes the
    two checks when the sample count of its pair is [None] or zero, and
    the conversion then fails: [__init__] raises [ValueError] for NaN, with
    the message of [int], not that of the checks, and [OverflowError] for
    an infinity; the sample rate is a positive integer up to [2^53].  The
    window size is converted first, so the stride is reached when the
    window size is [None] or zero. *)
Theorem nan_and_infinite_durations_raise (a : Args) (sr : Z) :
  sample_rate a = PyInt sr ->
  0 < sr <= 2 ^ 53 ->
  truthy (window_size a) && truthy (n_window_size a) = false ->
  truthy (window_stride a) && truthy (n_window_stride a) = false ->
  (window_size a = Some (PyFloat S754_nan) ->
     __init__ a = Raise (ValueError "cannot convert float NaN to integer"))
  /\ (forall s, window_size a = Some (PyFloat (S754_infinity s)) ->
        __init__ a = Raise (OverflowError "cannot convert float infinity to integer"))
  /\ (truthy (window_size a) = false -> window_stride a = Some (PyFloat S754_nan) ->
        __init__ a = Raise (ValueError "cannot convert float NaN to integer"))
  /\ (forall s, truthy (window_size a) = false ->
        window_stride a = Some (PyFloat (S754_infinity s)) ->
        __init__ a = Raise (OverflowError "cannot convert float infinity to integer")).
Proof.
  intros Hrate Hsr Hsize Hstride.
  rewrite (init_checks_pass a Hsize Hstride). unfold construct. rewrite Hrate.
  split; [| split; [| split]].
  - intros Hw. rewrite Hw, samples_of_nan by exact Hsr. reflexivity.
  - intros s Hw. rewrite Hw, samples_of_infinity by exact Hsr. reflexivity.
  - intros Hfalsy Hw. rewrite (samples_of_falsy _ _ _ Hfalsy).
    rewrite Hw, samples_of_nan by exact Hsr. reflexivity.
  - intros s Hfalsy Hw. rewrite (samples_of_falsy _ _ _ Hfalsy).
    rewrite Hw, samples_of_infinity by exact Hsr. reflexivity.
Qed.

(** X10.  When both durations are [None] or zero, [__init__] converts
    nothing and raises nothing itself, whatever the sample counts are:
    the featurizer is built with [n_window_size] and [n_window_stride] as
    they were passed, [None] included, so a call that gives neither
    argument of a pair is not rejected here. *)
Theorem falsy_durations_pass_sample_counts_on (a : Args) :
  truthy (window_size a) = false ->
  truthy (window_stride a) = false ->
  __init__ a
  = (featurizer <- FilterbankFeatures.__init__
                     (featurizer_kwargs a (n_window_size a) (n_window_stride a)) ;;
     ret {| base := AudioPreprocessor.__init__ (n_window_size a) (n_window_stride a);
            _sample_rate := sample_rate a;
            featurizer := featurizer |})
  /\ (forall f,
        FilterbankFeatures.__init__
          (featurizer_kwargs a (n_window_size a) (n_window_stride a)) = Ok f ->
        __init__ a
        = Ok {| base := AudioPreprocessor.__init__ (n_window_size a) (n_window_stride a);
                _sample_rate := sample_rate a;
                featurizer := f |}).
Proof.
  intros Hsize Hstride.
  assert (Heq : __init__ a
    = (featurizer <- FilterbankFeatures.__init__
                     (featurizer_kwargs a (n_window_size a) (n_window_stride a)) ;;
     ret {| base := AudioPreprocessor.__init__ (n_window_size a) (n_window_stride a);
            _sample_rate := sample_rate a;
            featurizer := featurizer |})).
  { rewrite init_checks_pass by (rewrite ?Hsize, ?Hstride; reflexivity).
    unfold construct.
    rewrite (samples_of_falsy _ _ _ Hsize), (samples_of_falsy _ _ _ Hstride).
    reflexivity. }
  split; [exact Heq |].
  intros f Hf. rewrite Heq. cbn [bind result_Effect]. rewrite Hf. reflexivity.
Qed.

End DurationErrors.

Section DurationErrorExamples.

Import AudioToMelSpectrogramPreprocessor.

Lemma nan_and_infinite_durations_raise_witness :
  __init__ (F := Instances.featurizer_api)
    (with_windows defaults (Some (PyFloat S754_nan)) (window_stride defaults) None None)
  = Raise (ValueError "cannot convert float NaN to integer").
Proof.
  apply (proj1 (nan_and_infinite_durations_raise (F := Instances.featurizer_api)
                  (with_windows defaults (Some (PyFloat S754_nan)) (window_stride defaults)
                     None None)
                  16000 eq_refl
                  ltac:(split; [reflexivity | discriminate]) eq_refl eq_refl)).
  reflexivity.
Defined.

Lemma falsy_durations_pass_sample_counts_on_witness :
  __init__ (F := Instances.featurizer_api) (with_windows defaults None None None None)
  = (featurizer <- FilterbankFeatures.__init__
                     (featurizer_kwargs (with_windows defaults None None None None)
                        None None) ;;
     ret {| base := AudioPreprocessor.__init__ None None;
            _sample_rate := PyInt 16000;
            featurizer := featurizer |}).
Proof.
  apply (proj1 (falsy_durations_pass_sample_counts_on (F := Instances.featurizer_api)
                  (with_windows defaults None None None None) eq_refl eq_refl)).
Defined.

End DurationErrorExamples.

(** ** The stages of the augmentation *)

Section Stages.

Import SpectrogramAugmentation.

Lemma init_band_masking {M} {E : Effect M} {Rng} {S : SpectrAugment.API M Rng}
  (a : Args Rng) :
  0 < freq_masks a + time_masks a ->
  spec_augment (__init__ a)
  = SpectrAugment.SpecAugment (freq_masks a) (time_masks a) (freq_width a) (time_width a)
      (rng a).
Proof.
  intros Hlt. unfold __init__. cbn [spec_augment].
  destruct (Z.ltb_spec 0 (freq_masks a + time_masks a)); [reflexivity | lia].
Qed.

Lemma init_cutout {M} {E : Effect M} {Rng} {S : SpectrAugment.API M Rng}
  (a : Args Rng) :
  0 < rect_masks a ->
  spec_cutout (__init__ a)
  = SpectrAugment.SpecCutout (rect_masks a) (rect_time a) (rect_freq a) (rng a).
Proof.
  intros Hlt. unfold __init__. cbn [spec_cutout].
  destruct (Z.ltb_spec 0 (rect_masks a)); [reflexivity | lia].
Qed.

(** X11.  Which stages [forward] runs goes by the sign of [rect_masks]
    and of the sum [freq_masks + time_masks], not by the single counts.
    With both at most zero the input comes back unchanged and the
    generators are left alone, negative counts included, and also when one
    of [freq_masks] and [time_masks] is positive and the other cancels it;
    with one of the two positive [forward] is exactly that masker, built
    with the arguments as passed; with both positive it is the cutout
    followed by the band masking, both built with the same generator
    argument. *)
Theorem stages_go_by_the_sign_of_the_counts
  (W Rng : Type) (S : SpectrAugment.API (Run W) Rng) (a : Args Rng)
  (input_spec : Tensor3) (w : W) :
  (rect_masks a <= 0 -> freq_masks a + time_masks a <= 0 ->
     forward (__init__ a) input_spec w = Ok (input_spec, w))
  /\ (0 < rect_masks a -> freq_masks a + time_masks a <= 0 ->
        forward (__init__ a) input_spec w
        = SpectrAugment.SpecCutout (rect_masks a) (rect_time a) (rect_freq a) (rng a)
            input_spec w)
  /\ (rect_masks a <= 0 -> 0 < freq_masks a + time_masks a ->
        forward (__init__ a) input_spec w
        = SpectrAugment.SpecAugment (freq_masks a) (time_masks a) (freq_width a)
            (time_width a) (rng a) input_spec w)
  /\ (0 < rect_masks a -> 0 < freq_masks a + time_masks a ->
        forward (__init__ a) input_spec w
        = (augmented_spec <- SpectrAugment.SpecCutout (rect_masks a) (rect_time a)
                               (rect_freq a) (rng a) input_spec ;;
           SpectrAugment.SpecAugment (freq_masks a) (time_masks a) (freq_width a)
             (time_width a) (rng a) augmented_spec) w).
Proof.
  unfold forward. split; [| split; [| split]]; intros Hrect Hband.
  - rewrite init_no_cutout, init_no_band_masking by assumption. reflexivity.
  - rewrite init_cutout, init_no_band_masking by assumption.
    cbn [bind ret Run_Effect]. case_run; reflexivity.
  - rewrite init_no_cutout, init_band_masking by assumption.
    cbn [bind ret Run_Effect]. case_run; reflexivity.
  - rewrite init_cutout, init_band_masking by assumption.
    cbn [bind ret Run_Effect]. case_run; try reflexivity. case_run; reflexivity.
Qed.

Lemma stages_go_by_the_sign_of_the_counts_witness :
  forward
    (__init__ (S := Instances.fixed_maskers [Masking.Rectangle 0 0 1 0 1]
                      [Masking.TimeBand 0 0 1])
       {| freq_masks := - 1; time_masks := 1; freq_width := 10; time_width := 10;
          rect_masks := - 2; rect_time := 5; rect_freq := 20; rng := None |})
    [[[f32_of_Z 1; f32_of_Z 2]]] tt
  = Ok ([[[f32_of_Z 1; f32_of_Z 2]]], tt).
Proof.
  apply (proj1 (stages_go_by_the_sign_of_the_counts unit unit
                  (Instances.fixed_maskers [Masking.Rectangle 0 0 1 0 1]
                     [Masking.TimeBand 0 0 1])
                  {| freq_masks := - 1; time_masks := 1; freq_width := 10;
                     time_width := 10; rect_masks := - 2; rect_time := 5;
                     rect_freq := 20; rng := None |}
                  [[[f32_of_Z 1; f32_of_Z 2]]] tt)); discriminate.
Defined.

End Stages.

(** ** Hop lengths compared, and the items of a batch *)

Section HopLengths.

Import Rounding.

Lemma seq_len_antitone L H1 H2 :
  (0 <= L <= 2 ^ 62)%Z -> (0 < H1 <= H2)%Z -> (H2 < 2 ^ 63)%Z ->
  exists n1 n2,
    to_long1 (ceil1 (SFdiv 24 128 (f32_of_Z L) (f32_of_Z H1))) = Ok n1
    /\ to_long1 (ceil1 (SFdiv 24 128 (f32_of_Z L) (f32_of_Z H2))) = Ok n2
    /\ (n2 <= n1)%Z.
Proof.
  intros HL HH Hmax.
  destruct (Z.eq_dec L 0) as [-> | Hnz].
  - exists 0%Z, 0%Z. rewrite !seq_len_zero by lia. repeat split; lia.
  - destruct (seq_len_positive L H1 ltac:(lia) ltac:(lia))
      as [rL1 [rH1 [rq1 [HrL1 [HrH1 [Hrq1 Heq1]]]]]].
    destruct (seq_len_positive L H2 ltac:(lia) ltac:(lia))
      as [rL2 [rH2 [rq2 [HrL2 [HrH2 [Hrq2 Heq2]]]]]].
    exists (Qceiling rq1), (Qceiling rq2).
    split; [exact Heq1 |]. split; [exact Heq2 |].
    apply Qceiling_resp_le.
    apply (rounds_to_mono _ _ _ _ Hrq2 Hrq1).
    pose proof (rounds_to_unique _ _ _ HrL1 HrL2) as HrL.
    pose proof (rounds_to_pos _ _ HrL2) as HrLpos.
    pose proof (rounds_to_pos _ _ HrH1) as HrH1pos.
    assert (HrH : (rH1 <= rH2)%Q).
    { apply (rounds_to_mono _ _ _ _ HrH1 HrH2). rewrite <- Zle_Qle. lia. }
    rewrite HrL.
    apply Qdiv_le_compat; try lra.
Qed.

End HopLengths.

(** X12.  A larger hop length never gives more frames: for a length from
    0 to [2^62] and two hop lengths [hop1 <= hop2] that are positive 64-bit
    integers, [get_seq_len] returns a length for each, and the one for
    [hop2] is at most the one for [hop1]. *)
Theorem larger_hop_length_fewer_frames (self1 self2 : AudioPreprocessor.t) (hop1 hop2 L : Z) :
  AudioPreprocessor.hop_length self1 = Some (PyInt hop1) ->
  AudioPreprocessor.hop_length self2 = Some (PyInt hop2) ->
  0 < hop1 <= hop2 ->
  hop2 < 2 ^ 63 ->
  0 <= L <= 2 ^ 62 ->
  exists n1 n2,
    AudioPreprocessor.get_seq_len self1 (float [L]) = Ok [n1]
    /\ AudioPreprocessor.get_seq_len self2 (float [L]) = Ok [n2]
    /\ n2 <= n1.
Proof.
  intros Hhop1 Hhop2 Hle Hmax HL.
  destruct (seq_len_antitone L hop1 hop2 HL Hle Hmax) as [n1 [n2 [H1 [H2 Hn]]]].
  exists n1, n2. repeat split; [| | exact Hn].
  - apply (get_seq_len_float self1 hop1 [L] (fun _ => n1) Hhop1).
    intros L' [<- | []]. exact H1.
  - apply (get_seq_len_float self2 hop2 [L] (fun _ => n2) Hhop2).
    intros L' [<- | []]. exact H2.
Qed.

Lemma larger_hop_length_fewer_frames_witness :
  exists n1 n2,
    AudioPreprocessor.get_seq_len
      (AudioPreprocessor.__init__ None (Some (PyInt 160))) (float [16000]) = Ok [n1]
    /\ AudioPreprocessor.get_seq_len
         (AudioPreprocessor.__init__ None (Some (PyInt 256))) (float [16000]) = Ok [n2]
    /\ n2 <= n1.
Proof.
  apply (larger_hop_length_fewer_frames
           (AudioPreprocessor.__init__ None (Some (PyInt 160)))
           (AudioPreprocessor.__init__ None (Some (PyInt 256))) 160 256 16000
           eq_refl eq_refl ltac:(lia) ltac:(reflexivity)
           ltac:(split; [lia | discriminate])).
Defined.

Section PerItem.

Lemma result_mapM_cons {A B} (f : A -> result B) (x : A) (l : list A) (ys : list B) :
  result_mapM f (x :: l) = Ok ys
  <-> exists y ys', ys = y :: ys' /\ f x = Ok y /\ result_mapM f l = Ok ys'.
Proof.
  cbn [result_mapM]. split.
  - destruct (f x) as [y | e |]; cbn [result_bind]; try discriminate.
    destruct (result_mapM f l) as [ys' | e |]; cbn [result_bind]; try discriminate.
    intros Heq. injection Heq as <-. exists y, ys'. repeat split.
  - intros [y [ys' [-> [Hy Hys]]]]. rewrite Hy, Hys. reflexivity.
Qed.

End PerItem.

(** X13.  The items of a batch do not influence each other: with a hop
    length that is a float, or an integer that fits 64 bits (the range in
    which the division accepts it), [get_seq_len] returns the lengths
    [lens] for a batch exactly when, item by item, it returns the one
    length for the batch of that item alone.  (When the cast of one item
    is unspecified, so is the result for the batch.) *)
Theorem get_seq_len_goes_item_by_item
  (self : AudioPreprocessor.t) (h : pynum) (length : Tensor1) (lens : list Z) :
  AudioPreprocessor.hop_length self = Some h ->
  (forall hop, h = PyInt hop -> - 2 ^ 63 <= hop < 2 ^ 63) ->
  AudioPreprocessor.get_seq_len self length = Ok lens
  <-> Forall2 (fun x n => AudioPreprocessor.get_seq_len self [x] = Ok [n]) length lens.
Proof.
  intros Hh _. unfold AudioPreprocessor.get_seq_len. rewrite Hh.
  unfold to_long, ceil, div.
  revert lens. induction length as [| x length IH]; intros lens.
  - cbn [map result_mapM]. split.
    + intros Heq. injection Heq as <-. constructor.
    + intros Hall. inversion Hall. reflexivity.
  - cbn [map]. rewrite result_mapM_cons. split.
    + intros [y [ys' [-> [Hy Hys]]]]. constructor.
      * cbn [result_mapM]. rewrite Hy. reflexivity.
      * apply IH. exact Hys.
    + intros Hall. inversion Hall as [| x' n l' ns Hx Hrest]; subst.
      exists n, ns. split; [reflexivity |]. split.
      * cbn [result_mapM] in Hx.
        destruct (to_long1 _) as [y | e |]; cbn [result_bind] in Hx; try discriminate.
        injection Hx as ->. reflexivity.
      * apply IH. exact Hrest.
Qed.

Lemma get_seq_len_goes_item_by_item_witness :
  AudioPreprocessor.get_seq_len (AudioPreprocessor.__init__ None (Some (PyInt 160)))
    (float [16000; 16001]) = Ok [100; 101]
  <-> Forall2 (fun x n =>
                 AudioPreprocessor.get_seq_len
                   (AudioPreprocessor.__init__ None (Some (PyInt 160))) [x] = Ok [n])
        (float [16000; 16001]) [100; 101].
Proof.
  apply (get_seq_len_goes_item_by_item
           (AudioPreprocessor.__init__ None (Some (PyInt 160))) (PyInt 160)
           (float [16000; 16001]) [100; 101] eq_refl).
  intros hop [= <-]. split; [lia | reflexivity].
Defined.

(** ** The same number as an [int] and as a [float] *)

Section IntOrFloat.

Import Rounding.
Import AudioToMelSpectrogramPreprocessor.

Local Open Scope Q_scope.

(** A float with a mantissa of 24 digits is determined by its value. *)
Lemma canonical_unique m1 e1 m2 e2 :
  Zpos (digits2_pos m1) = 24%Z -> Zpos (digits2_pos m2) = 24%Z ->
  F2Q m1 e1 == F2Q m2 e2 -> m1 = m2 /\ e1 = e2.
Proof.
  intros Hd1 Hd2 Hv.
  assert (Hb : forall m e, Zpos (digits2_pos m) = 24%Z -> binade (24 + e) (F2Q m e)).
  { intros m e Hd.
    assert (Hloc : located (Z.pos m) loc_Exact (F2Q m e / pow2 e)).
    { cbn [located]. unfold F2Q. field. apply pow2_neq_0. }
    pose proof (located_binade _ _ _ _ (Pos2Z.is_pos m) Hloc) as Hbin.
    cbn [Zdigits2] in Hbin. rewrite Hd in Hbin. exact Hbin. }
  pose proof (Hb m1 e1 Hd1) as Hb1. pose proof (Hb m2 e2 Hd2) as Hb2.
  apply (binade_comp _ _ _ Hv) in Hb1.
  pose proof (binade_unique _ _ _ Hb1 Hb2) as He.
  assert (Hee : e1 = e2) by lia. subst e2. split; [| reflexivity].
  unfold F2Q in Hv. pose proof (pow2_pos e1) as Hp.
  apply Qmult_inj_r in Hv; [| lra].
  apply (proj1 (inject_Z_injective _ _)) in Hv. congruence.
Qed.

(** Converting an integer up to [2^53] to binary64 first and to binary32
    then gives what the direct conversion to binary32 gives. *)
Lemma f32_of_f64_of_Z z :
  (0 < z <= 2 ^ 53)%Z -> f32_of_f64 (float_of_Z z) = f32_of_Z z.
Proof.
  intros Hz.
  destruct (float_of_Z_exact z Hz) as [m [e [Hf [Hd Hv]]]].
  destruct (f32_of_Z_correct z) as [m2 [e2 [Hf2 [Hd2 [_ Hr2]]]]].
  { split; [lia |]. apply Z.le_lt_trans with (2 ^ 53)%Z; [lia | reflexivity]. }
  rewrite Hf, Hf2. cbn [f32_of_f64]. unfold binary_round.
  assert (Hbin : binade (53 + e) (F2Q m e)).
  { assert (Hloc : located (Z.pos m) loc_Exact (F2Q m e / pow2 e)).
    { cbn [located]. unfold F2Q. field. apply pow2_neq_0. }
    pose proof (located_binade _ _ _ _ (Pos2Z.is_pos m) Hloc) as Hb.
    cbn [Zdigits2] in Hb. rewrite Hd in Hb. exact Hb. }
  assert (He : (1 <= 53 + e <= 54)%Z).
  { apply (binade_comp _ _ _ Hv) in Hbin.
    pose proof (binade_Z z ltac:(lia)) as Hbz.
    pose proof (binade_unique _ _ _ Hbin Hbz) as Hk.
    pose proof (Z.log2_nonneg z).
    assert (Z.log2 z <= 53)%Z.
    { rewrite <- (Z.log2_pow2 53) by lia. apply Z.log2_le_mono. lia. }
    lia. }
  rewrite Hd, fexp32.
  destruct (shl_align_spec m e (Z.max (53 + e - 24) (-149))) as [Hse Hsm].
  destruct (shl_align m e (Z.max (53 + e - 24) (-149))) as [mz ez].
  cbn [fst snd] in Hse, Hsm. cbv beta iota.
  assert (Hez : ez = e) by lia. clear Hse. subst ez.
  assert (Hmz : mz = m).
  { replace (e - Z.min e (Z.max (53 + e - 24) (-149)))%Z with 0%Z in Hsm by lia.
    rewrite Z.pow_0_r, Z.mul_1_r in Hsm. congruence. }
  subst mz.
  assert (Hloc : located (Z.pos m) loc_Exact (inject_Z z / pow2 e)).
  { cbn [located]. rewrite <- Hv. unfold F2Q. field. apply pow2_neq_0. }
  destruct (binary_round_aux_correct (Z.pos m) e loc_Exact (inject_Z z))
    as [m1 [e1 [Hf1 [Hd1 [_ Hr1]]]]];
    try (cbn [Zdigits2]; rewrite ?Hd; lia); try exact Hloc.
  rewrite Hf1.
  pose proof (rounds_to_unique _ _ _ Hr1 Hr2) as Heq.
  destruct (canonical_unique m1 e1 m2 e2 Hd1 Hd2 Heq) as [-> ->]. reflexivity.
Qed.

End IntOrFloat.

(** X14.  A hop length given as the float that holds a positive integer
    up to [2^53] (such as [160.0]) behaves as the integer itself: for every
    float32 tensor, [get_seq_len] returns the same result for both, since
    the float32 scalar of the division is the same. *)
Theorem float_hop_length_is_the_integer_one
  (self_int self_float : AudioPreprocessor.t) (hop : Z) (length : Tensor1) :
  AudioPreprocessor.hop_length self_int = Some (PyInt hop) ->
  AudioPreprocessor.hop_length self_float = Some (PyFloat (float_of_Z hop)) ->
  0 < hop <= 2 ^ 53 ->
  AudioPreprocessor.get_seq_len self_float length
  = AudioPreprocessor.get_seq_len self_int length.
Proof.
  intros Hint Hfloat Hhop. unfold AudioPreprocessor.get_seq_len.
  rewrite Hint, Hfloat. unfold div. cbn [scalar].
  rewrite f32_of_f64_of_Z by exact Hhop. reflexivity.
Qed.

Lemma float_hop_length_is_the_integer_one_witness :
  AudioPreprocessor.get_seq_len
    (AudioPreprocessor.__init__ None (Some (PyFloat (float_of_Z 160)))) (float [16000; 17])
  = AudioPreprocessor.get_seq_len
      (AudioPreprocessor.__init__ None (Some (PyInt 160))) (float [16000; 17]).
Proof.
  apply (float_hop_length_is_the_integer_one
           (AudioPreprocessor.__init__ None (Some (PyInt 160)))
           (AudioPreprocessor.__init__ None (Some (PyFloat (float_of_Z 160))))
           160 (float [16000; 17]) eq_refl eq_refl).
  split; [reflexivity | discriminate].
Defined.

Section FloatSampleRate.

Import AudioToMelSpectrogramPreprocessor.

(** X15.  A sample rate given as the float that holds a positive integer
    up to [2^53] (such as [16000.0]) gives, for every duration that is a
    float, the same outcome of [int(duration * self._sample_rate)] as the
    integer itself: the same sample count or the same exception. *)
Theorem float_sample_rate_is_the_integer_one
  (duration : spec_float) (sample_rate : Z) (n : option pynum) :
  0 < sample_rate <= 2 ^ 53 ->
  samples_of (Some (PyFloat duration)) (PyFloat (float_of_Z sample_rate)) n
  = samples_of (Some (PyFloat duration)) (PyInt sample_rate) n.
Proof.
  intros Hsr. destruct (float_of_Z_exact sample_rate Hsr) as [m [e [Hf _]]].
  unfold samples_of. destruct (truthy (Some (PyFloat duration))); [| reflexivity].
  cbn [Py.mul bind result_Effect]. unfold float_of_int. rewrite Hf. reflexivity.
Qed.

Lemma float_sample_rate_is_the_integer_one_witness :
  samples_of (window_size defaults) (PyFloat (float_of_Z 16000)) None
  = samples_of (window_size defaults) (PyInt 16000) None.
Proof.
  apply (float_sample_rate_is_the_integer_one (float_literal 2 100) 16000 None).
  split; [reflexivity | discriminate].
Defined.

End FloatSampleRate.

(** ** Sample counts that are discarded *)

Section DiscardedCounts.

Import AudioToMelSpectrogramPreprocessor.

Context {M : Type -> Type} {E : Effect M} {F : FilterbankFeatures.API M}.

Lemma samples_of_truthy (d : option pynum) (sr : pynum) (n n' : option pynum) :
  truthy d = true -> samples_of d sr n = samples_of d sr n'.
Proof.
  intros Hd. unfold samples_of. destruct d as [d |]; [| discriminate].
  rewrite Hd. reflexivity.
Qed.

Lemma construct_with_truthy_durations (a : Args) (nws nwst : option pynum) :
  truthy (window_size a) = true ->
  truthy (window_stride a) = true ->
  construct (with_windows a (window_size a) (window_stride a) nws nwst)
  = (n_window_size <- samples_of (window_size a) (sample_rate a) None ;;
     n_window_stride <- samples_of (window_stride a) (sample_rate a) None ;;
     featurizer <- FilterbankFeatures.__init__
                     (featurizer_kwargs a n_window_size n_window_stride) ;;
     ret {| base := AudioPreprocessor.__init__ nws nwst;
            _sample_rate := sample_rate a;
            featurizer := featurizer |}).
Proof.
  intros Hsize Hstride. unfold construct.
  cbn [with_windows window_size window_stride n_window_size n_window_stride sample_rate].
  rewrite (samples_of_truthy _ _ nws None Hsize).
  rewrite (samples_of_truthy _ _ nwst None Hstride).
  reflexivity.
Qed.

(** X16.  Next to durations that are truthy, a sample count that passes
    the checks ([None] or zero) is discarded: two calls that differ only in
    such sample counts end alike, with the same exception or with two
    instances that hold the same featurizer, so that [forward],
    [get_features], [get_seq_len] and [filter_banks], which go through the
    featurizer only, cannot tell them apart; the instances differ in the
    attributes of the base class, which keep the sample counts as passed. *)
Theorem falsy_sample_counts_are_discarded (a : Args) (nws nwst nws' nwst' : option pynum) :
  truthy (window_size a) = true ->
  truthy (window_stride a) = true ->
  truthy nws = false -> truthy nwst = false ->
  truthy nws' = false -> truthy nwst' = false ->
  match __init__ (with_windows a (window_size a) (window_stride a) nws nwst),
        __init__ (with_windows a (window_size a) (window_stride a) nws' nwst') with
  | Ok self, Ok self' =>
      featurizer self = featurizer self'
      /\ base self = AudioPreprocessor.__init__ nws nwst
      /\ base self' = AudioPreprocessor.__init__ nws' nwst'
      /\ (forall input_signal length,
            AudioPreprocessor.forward self input_signal length
            = AudioPreprocessor.forward self' input_signal length)
      /\ (forall input_signal length,
            get_features self input_signal length = get_features self' input_signal length)
      /\ (forall seq_len, get_seq_len self seq_len = get_seq_len self' seq_len)
      /\ filter_banks self = filter_banks self'
  | Raise e, Raise e' => e = e'
  | Unspecified, Unspecified => True
  | _, _ => False
  end.
Proof.
  intros Hsize Hstride Hn1 Hn2 Hn1' Hn2'.
  rewrite !init_checks_pass;
    cbn [with_windows window_size window_stride n_window_size n_window_stride];
    rewrite ?Hn1, ?Hn2, ?Hn1', ?Hn2', ?andb_false_r; try reflexivity.
  rewrite !construct_with_truthy_durations by assumption.
  cbn [bind ret result_Effect].
  destruct (samples_of (window_size a) (sample_rate a) None) as [n1 | e |];
    cbn [result_bind]; try reflexivity.
  destruct (samples_of (window_stride a) (sample_rate a) None) as [n2 | e |];
    cbn [result_bind]; try reflexivity.
  destruct (FilterbankFeatures.__init__ (featurizer_kwargs a n1 n2)) as [f | e |];
    cbn [result_bind]; try reflexivity.
  repeat split.
Qed.

End DiscardedCounts.

Section DiscardedCountsExample.

Import AudioToMelSpectrogramPreprocessor.

Lemma falsy_sample_counts_are_discarded_witness :
  match __init__ (F := Instances.featurizer_api)
          (with_windows defaults (window_size defaults) (window_stride defaults)
             (Some (PyInt 0)) None),
        __init__ (F := Instances.featurizer_api)
          (with_windows defaults (window_size defaults) (window_stride defaults)
             None (Some (PyFloat (S754_zero false)))) with
  | Ok self, Ok self' =>
      featurizer self = featurizer self'
      /\ base self = AudioPreprocessor.__init__ (Some (PyInt 0)) None
      /\ base self' = AudioPreprocessor.__init__ None (Some (PyFloat (S754_zero false)))
      /\ (forall input_signal length,
            AudioPreprocessor.forward self input_signal length
            = AudioPreprocessor.forward self' input_signal length)
      /\ (forall input_signal length,
            get_features self input_signal length = get_features self' input_signal length)
      /\ (forall seq_len, get_seq_len self seq_len = get_seq_len self' seq_len)
      /\ filter_banks self = filter_banks self'
  | Raise e, Raise e' => e = e'
  | Unspecified, Unspecified => True
  | _, _ => False
  end.
Proof.
  apply (falsy_sample_counts_are_discarded (F := Instances.featurizer_api) defaults
           (Some (PyInt 0)) None None (Some (PyFloat (S754_zero false)))
           eq_refl eq_refl eq_refl eq_refl eq_refl eq_refl).
Defined.

End DiscardedCountsExample.
